(** * Marketplace compatibility scraper: version engine, URL helpers,
      fetch orchestrator, result builder and batch runner

    A shallow embedding of [src/utils/scraper.js], and of the summary that
    [src/utils/excelGenerator.js] computes from its results.

    Conventions of the embedding.

    - A JavaScript string is the [string] of its code units.  The embedding
      covers strings whose code units are below 256; white space, line
      terminators and case mapping are those of ECMAScript on that range.
      The three characters of the messages that lie outside it (a bullet, a
      check mark and a cross) are kept as the bytes of their UTF-8 encoding.
    - A JavaScript value that may be [null] or [undefined] is an [option];
      [x || d] and [!x] on such a value are written out with [truthy].
    - A function that can throw returns a [Result]: [Ok v] for a normal
      completion, [Throw e] for an exception [e].
    - The numeric part of a segment is a natural number ([N]).  [parseInt]
      is exact on runs of digits up to 2^53; the rounding of longer runs to
      a double is not part of the embedding.
    - What the network, the browser and the plugin store answer is a
      parameter: the [Upstream] of each plugin, the [pathname] of the URL
      class, the plugins [found] by the route.  A run records what it does
      to the outside as a list of [Event]s.

    The file has four parts: the program, the definitions used to state its
    properties, the properties of the specification, and further properties
    of the program. *)

From Stdlib Require Import List String Ascii NArith ZArith Bool Lia.
From Stdlib Require Import Permutation Sorted.
From Stdlib Require Import DecimalString.
Import ListNotations.

Local Open Scope string_scope.
Local Open Scope bool_scope.

(* ********************************************************************* *)
(** * Part I: the program *)
(* ********************************************************************* *)

(* ===================================================================== *)
(** ** Exceptions and results *)
(* ===================================================================== *)

(** The two kinds of exception the module raises: [new Error(msg)] thrown by
    the code itself, and the [TypeError] of reading a property of [null]. *)
Inductive exn : Type :=
| Error (msg : string)
| TypeError (msg : string).

Definition message (e : exn) : string :=
  match e with Error m => m | TypeError m => m end.

Inductive Result (A : Type) : Type :=
| Ok (a : A)
| Throw (e : exn).
Arguments Ok {A} a.
Arguments Throw {A} e.

Definition bind {A B} (r : Result A) (k : A -> Result B) : Result B :=
  match r with Ok a => k a | Throw e => Throw e end.

Notation "x <- r ;; k" := (bind r (fun x => k))
  (at level 61, r at next level, right associativity).

(** [xs.map(f)] for an [f] that can throw: left to right, the first
    exception ends the traversal. *)
Fixpoint mapR {A B} (f : A -> Result B) (l : list A) : Result (list B) :=
  match l with
  | [] => Ok []
  | x :: l' => y <- f x ;; ys <- mapR f l' ;; Ok (y :: ys)
  end.

(* ===================================================================== *)
(** ** String primitives *)
(* ===================================================================== *)

Definition code (c : ascii) : N := N_of_ascii c.

Definition between (lo hi : N) (c : ascii) : bool :=
  (lo <=? code c)%N && (code c <=? hi)%N.

(** [\d] *)
Definition isDigit (c : ascii) : bool := between 48 57 c.
(** [a-zA-Z] *)
Definition isLetter (c : ascii) : bool := between 97 122 c || between 65 90 c.
(** [0-9a-zA-Z] *)
Definition isAlnum (c : ascii) : bool := isDigit c || isLetter c.

(** LF and CR: the characters that [.] does not match (no [s] flag). *)
Definition isLineTerminator (c : ascii) : bool :=
  (code c =? 10)%N || (code c =? 13)%N.

(** White space and line terminators, as stripped by [trim]:
    TAB, LF, VT, FF, CR, SP and NBSP. *)
Definition isSpace (c : ascii) : bool :=
  between 9 13 c || (code c =? 32)%N || (code c =? 160)%N.

Definition lowerChar (c : ascii) : ascii :=
  if between 65 90 c
     || (between 192 222 c && negb (code c =? 215)%N)
  then ascii_of_N (code c + 32) else c.

Fixpoint toLowerCase (s : string) : string :=
  match s with
  | EmptyString => EmptyString
  | String c s' => String (lowerChar c) (toLowerCase s')
  end.

Fixpoint trimStart (s : string) : string :=
  match s with
  | EmptyString => EmptyString
  | String c s' => if isSpace c then trimStart s' else s
  end.

Fixpoint trimEnd (s : string) : string :=
  match s with
  | EmptyString => EmptyString
  | String c s' =>
      let t := trimEnd s' in
      if isSpace c && (t =? "") then EmptyString else String c t
  end.

Definition trim (s : string) : string := trimEnd (trimStart s).

(** [s.split(sep)] for a one-character separator: never empty, the pieces
    between the occurrences of [sep]. *)
Fixpoint split (sep : ascii) (s : string) : list string :=
  match s with
  | EmptyString => [EmptyString]
  | String c s' =>
      if (c =? sep)%char then EmptyString :: split sep s'
      else match split sep s' with
           | piece :: rest => String c piece :: rest
           | [] => [String c EmptyString]
           end
  end.

(** [s.includes(t)] *)
Fixpoint includes (s t : string) : bool :=
  prefix t s ||
  match s with
  | EmptyString => false
  | String _ s' => includes s' t
  end.

Fixpoint allChars (p : ascii -> bool) (s : string) : bool :=
  match s with
  | EmptyString => true
  | String c s' => p c && allChars p s'
  end.

Fixpoint anyChar (p : ascii -> bool) (s : string) : bool :=
  match s with
  | EmptyString => false
  | String c s' => p c || anyChar p s'
  end.

(** Truthiness of a string and of a possibly absent string. *)
Definition truthy (s : string) : bool := negb (s =? "").

Definition truthyO (o : option string) : bool :=
  match o with Some s => truthy s | None => false end.

(** [String(o || '')] *)
Definition orEmpty (o : option string) : string :=
  match o with Some s => s | None => "" end.

(** The line feed character, for the messages that contain one. *)
Definition LF : string := String (ascii_of_N 10) EmptyString.

(* ===================================================================== *)
(** ** Version engine *)
(* ===================================================================== *)

Record Segment : Type := mkSegment { num : N; alpha : string }.

(** [{ num: 0, alpha: '' }] *)
Definition pad : Segment := mkSegment 0 "".

(** The longest prefix of digits and what follows it: the first group of the
    pattern of [parseSegment] (a greedy run of [\d]) and the text left for
    its second group (a greedy run of [.], then the end of the input). *)
Fixpoint spanDigits (s : string) : string * string :=
  match s with
  | EmptyString => (EmptyString, EmptyString)
  | String c s' =>
      if isDigit c then let (d, r) := spanDigits s' in (String c d, r)
      else (EmptyString, s)
  end.

(** [parseInt(ds, 10)] on a string of digits. *)
Fixpoint parseIntFrom (acc : N) (ds : string) : N :=
  match ds with
  | EmptyString => acc
  | String c ds' => parseIntFrom (10 * acc + (code c - 48))%N ds'
  end.

Definition parseInt (ds : string) : N := parseIntFrom 0 ds.

(** What V8 reports for [m[1]] when [m] is [null]. *)
Definition nullMatch : exn :=
  TypeError "Cannot read properties of null (reading '1')".

(** [parseSegment].  Its pattern (start, digits, any characters, end) has
    neither the [s] nor the [m] flag: [.] stops at a line terminator and [$]
    is the end of the input, so the match is [null] exactly when a line
    terminator follows the digits, and [m[1]] then throws. *)
Definition parseSegment (seg : string) : Result Segment :=
  let seg := toLowerCase (trim seg) in
  let (digits, rest) := spanDigits seg in
  if anyChar isLineTerminator rest then Throw nullMatch
  else Ok {| num := if truthy digits then parseInt digits else 0%N;
             alpha := rest |}.

Definition compareSegments (sa sb : Segment) : Z :=
  if negb (num sa =? num sb)%N then
    (if (num sa <? num sb)%N then -1 else 1)%Z
  else if (alpha sa =? alpha sb) then 0%Z
  else if (alpha sa =? "") then (-1)%Z
  else if (alpha sb =? "") then 1%Z
  else if String.ltb (alpha sa) (alpha sb) then (-1)%Z else 1%Z.

Definition parseVersion (vstr : string) : Result (list Segment) :=
  if negb (truthy vstr) then Ok [pad]
  else mapR parseSegment (split "." (trim vstr)).

(** The [for] loop of [compareVersions]: [n] iterations are left, starting
    at index [i]; [sa[i] || pad] is [nth i sa pad]. *)
Fixpoint compareFrom (sa sb : list Segment) (i n : nat) : Z :=
  match n with
  | O => 0%Z
  | S n' =>
      let c := compareSegments (nth i sa pad) (nth i sb pad) in
      if negb (c =? 0)%Z then c else compareFrom sa sb (S i) n'
  end.

Definition compareVersions (a b : string) : Result Z :=
  sa <- parseVersion a ;;
  sb <- parseVersion b ;;
  Ok (compareFrom sa sb 0 (Nat.max (List.length sa) (List.length sb))).

(** [isVersionInRange]; each argument may be absent.  [&&] does not evaluate
    its right operand when the left one is false. *)
Definition isVersionInRange (target minVer maxVer : option string)
  : Result bool :=
  match target, minVer, maxVer with
  | Some t, Some lo, Some hi =>
      if negb (truthy t) || negb (truthy lo) || negb (truthy hi) then Ok false
      else
        c1 <- compareVersions t lo ;;
        if (c1 >=? 0)%Z then
          c2 <- compareVersions t hi ;; Ok (c2 <=? 0)%Z
        else Ok false
  | _, _, _ => Ok false
  end.

(* ===================================================================== *)
(** ** Compatibility strings *)
(* ===================================================================== *)

(** [VERSION_TOKEN_RE] has two alternatives of one shape: a first character
    (a digit in the first, a letter in the second), a greedy run of
    [0-9a-zA-Z], and one or more groups made of a dot and a non-empty greedy
    run of [0-9a-zA-Z].

    [tokenTail dotted s] matches what follows the first character: [dotted]
    records that a group has been completed.  A dot opens a group only when a
    character of the class follows it; giving characters back never helps,
    because what follows a shortened run is not a dot. *)
Definition startsAlnum (s : string) : bool :=
  match s with String c _ => isAlnum c | EmptyString => false end.

Fixpoint tokenTail (dotted : bool) (s : string) : option string :=
  match s with
  | String c s' =>
      if isAlnum c then option_map (String c) (tokenTail dotted s')
      else if (c =? ".")%char && startsAlnum s'
           then option_map (String c) (tokenTail true s')
      else if dotted then Some EmptyString else None
  | EmptyString => if dotted then Some EmptyString else None
  end.

(** One attempt of the pattern at the start of [s]: the matched text. *)
Definition matchToken (s : string) : option string :=
  match s with
  | String c s' =>
      if isDigit c then option_map (String c) (tokenTail false s')
      else if isLetter c then option_map (String c) (tokenTail false s')
      else None
  | EmptyString => None
  end.

(** [text.match(VERSION_TOKEN_RE)] with the [g] flag: the matches from left
    to right; after a match the search resumes behind it, after a failure
    one character further.  [skip] counts the characters of the last match
    still to pass. *)
Fixpoint matchAll (skip : nat) (s : string) : list string :=
  match s with
  | EmptyString => []
  | String _ s' =>
      match skip with
      | S k => matchAll k s'
      | O =>
          match matchToken s with
          | Some tok => tok :: matchAll (String.length tok - 1) s'
          | None => matchAll 0 s'
          end
      end
  end.

Definition extractVersionTokens (text : string) : list string :=
  if negb (truthy text) then []
  else filter (fun t => includes t ".") (matchAll 0 text).

Module Parsed.
Record t : Type := mk
  { minVersion : option string; maxVersion : option string;
    rawText : string }.
End Parsed.

Definition parseCompatibilityString (text : option string) : Result Parsed.t :=
  let rawText := trim (orEmpty text) in
  if negb (truthy rawText) then Ok (Parsed.mk None None rawText)
  else
    let tokens := extractVersionTokens rawText in
    match tokens with
    | [] => Ok (Parsed.mk None None rawText)
    | [t0] => Ok (Parsed.mk (Some t0) (Some t0) rawText)
    | t0 :: _ =>
        let min := t0 in
        let max := last tokens "" in
        c <- compareVersions min max ;;
        if (c >? 0)%Z then Ok (Parsed.mk (Some max) (Some min) rawText)
        else Ok (Parsed.mk (Some min) (Some max) rawText)
    end.

(* ===================================================================== *)
(** ** URL helpers *)
(* ===================================================================== *)

(** [s.replace(/\/$/, '')]: one slash at the very end is removed. *)
Fixpoint dropTrailingSlash (s : string) : string :=
  match s with
  | EmptyString => EmptyString
  | String c s' =>
      if (c =? "/")%char && (s' =? "") then EmptyString
      else String c (dropTrailingSlash s')
  end.

Definition normalizeVersionHistoryUrl (rawUrl : string) : string :=
  let rawUrl := trim rawUrl in
  let base :=
    if includes rawUrl "/version-history"
    then hd "" (split "?" rawUrl)
    else dropTrailingSlash rawUrl ++ "/version-history" in
  base ++ "?versionHistoryHosting=dataCenter".

Module Identifiers.
Record t : Type := mk { id : option string; slug : option string }.
End Identifiers.

(** [parts.indexOf(x)], with [None] for -1. *)
Fixpoint indexOf (x : string) (parts : list string) : option nat :=
  match parts with
  | [] => None
  | y :: parts' =>
      if (y =? x) then Some 0
      else option_map S (indexOf x parts')
  end.

Section Identifiers.

(** [new URL(u).pathname] of the platform's URL class; an invalid URL
    throws. *)
Variable pathname : string -> Result string.

Definition extractAddonIdentifiers (marketplaceUrl : string)
  : Identifiers.t :=
  let none := Identifiers.mk None None in
  match pathname marketplaceUrl with
  | Throw _ => none
  | Ok path =>
      let parts := filter truthy (split "/" path) in
      match indexOf "apps" parts with
      | Some appsIdx =>
          let id := nth_error parts (appsIdx + 1) in
          let slug := nth_error parts (appsIdx + 2) in
          if truthyO id && allChars isDigit (orEmpty id) then
            Identifiers.mk id
              (if truthyO slug &&
                  negb (existsb (String.eqb (orEmpty slug))
                          ["version-history"; "overview"])
               then slug else None)
          else none
      | None => none
      end
  end.

End Identifiers.

(* ===================================================================== *)
(** ** Records *)
(* ===================================================================== *)

Module Plugin.
Record t : Type := mk
  { name : string; marketplaceUrl : string; currentVersion : string }.
End Plugin.

(** A raw version record, as the three clients produce it.  Optional fields
    are absent ([None]) when the client did not set them. *)
Module Raw.
Record t : Type := mk
  { version : string;
    compatibility : option string;
    releaseDate : option string;
    releaseSummary : option string;
    minVersion : option string;
    maxVersion : option string }.
End Raw.

(** An entry of [compatibleVersions]. *)
Module Entry.
Record t : Type := mk
  { pluginVersion : string;
    compatibilityRange : string;
    compatibility : string;
    releaseDate : string;
    releaseSummary : string }.
End Entry.

(** The per-plugin result.  [compatible] is [None] for [null]; the three
    fields that only [buildResult] sets are [None] in the record of a failed
    plugin. *)
Module PluginResult.
Record t : Type := mk
  { pluginName : string;
    pluginUrl : string;
    currentVersion : string;
    targetDCVersion : option string;
    fetchMethod : string;
    compatible : option bool;
    compatibleVersions : list Entry.t;
    compatibleVersionRange : option string;
    recommendedVersion : option string;
    totalVersionsChecked : option nat;
    allVersions : option (list Raw.t);
    parseWarnings : option (list string);
    error : option string }.
End PluginResult.

(* ===================================================================== *)
(** ** Array helpers *)
(* ===================================================================== *)

(** [xs.some(f)]: stops at the first element on which [f] is true. *)
Fixpoint someR {A} (f : A -> Result bool) (l : list A) : Result bool :=
  match l with
  | [] => Ok false
  | x :: l' => b <- f x ;; if b then Ok true else someR f l'
  end.

(** [xs.sort(cmp)].  The sort is stable, and for a consistent comparator its
    result is the one stable arrangement in non-decreasing order, which
    insertion computes.  An array of one element is returned without a call
    of [cmp]; with two or more elements every element is compared at least
    once, and an exception of [cmp] leaves the sort. *)
Fixpoint insertBy {A} (cmp : A -> A -> Result Z) (x : A) (l : list A)
  : Result (list A) :=
  match l with
  | [] => Ok [x]
  | y :: l' =>
      c <- cmp x y ;;
      if (c <=? 0)%Z then Ok (x :: y :: l')
      else r <- insertBy cmp x l' ;; Ok (y :: r)
  end.

Fixpoint sortBy {A} (cmp : A -> A -> Result Z) (l : list A) : Result (list A) :=
  match l with
  | [] => Ok []
  | x :: l' => s <- sortBy cmp l' ;; insertBy cmp x s
  end.

(* ===================================================================== *)
(** ** Result builder *)
(* ===================================================================== *)

(** [`${minVersion} - ${maxVersion}`] *)
Definition rangeText (lo hi : string) : string := lo ++ " - " ++ hi.

(** The bounds of a record: its own, or both re-parsed from the
    compatibility text when one of them is missing. *)
Definition resolveBounds (v : Raw.t) : Result (option string * option string) :=
  if negb (truthyO (Raw.minVersion v)) || negb (truthyO (Raw.maxVersion v)) then
    parsed <- parseCompatibilityString (Raw.compatibility v) ;;
    Ok (Parsed.minVersion parsed, Parsed.maxVersion parsed)
  else Ok (Raw.minVersion v, Raw.maxVersion v).

Definition toEntry (v : Raw.t) (lo hi : string) : Entry.t :=
  {| Entry.pluginVersion := Raw.version v;
     Entry.compatibilityRange := rangeText lo hi;
     Entry.compatibility :=
       if truthyO (Raw.compatibility v) then orEmpty (Raw.compatibility v)
       else rangeText lo hi;
     Entry.releaseDate := orEmpty (Raw.releaseDate v);
     Entry.releaseSummary := orEmpty (Raw.releaseSummary v) |}.

(** The first loop of [buildResult]: the entries pushed, in order. *)
Fixpoint keepCompatible (target : option string) (rawVersions : list Raw.t)
  : Result (list Entry.t) :=
  match rawVersions with
  | [] => Ok []
  | v :: rest =>
      bounds <- resolveBounds v ;;
      let (minVersion, maxVersion) := bounds in
      if negb (truthyO minVersion) || negb (truthyO maxVersion)
      then keepCompatible target rest
      else
        inRange <- isVersionInRange target minVersion maxVersion ;;
        kept <- keepCompatible target rest ;;
        Ok (if inRange
            then toEntry v (orEmpty minVersion) (orEmpty maxVersion) :: kept
            else kept)
  end.

Definition sameAsCurrent (currentVersion : string) (cv : Entry.t) : Result bool :=
  c <- compareVersions (Entry.pluginVersion cv) currentVersion ;;
  Ok (c =? 0)%Z.

Definition descending (a b : Entry.t) : Result Z :=
  compareVersions (Entry.pluginVersion b) (Entry.pluginVersion a).

Definition ascending (a b : Entry.t) : Result Z :=
  compareVersions (Entry.pluginVersion a) (Entry.pluginVersion b).

(** [l[0].pluginVersion] and [l[l.length - 1].pluginVersion] on a non-empty
    array. *)
Definition firstVersion (l : list Entry.t) : string :=
  hd "" (map Entry.pluginVersion l).

Definition lastVersion (l : list Entry.t) : string :=
  last (map Entry.pluginVersion l) "".

(** [buildResult].  The first [sort] works in place, so the array that the
    result carries as [compatibleVersions], and the copy that the second
    [sort] orders, are in descending order. *)
Definition buildResult (plugin : Plugin.t) (rawVersions : list Raw.t)
    (targetDCVersion : option string) (fetchMethod : string)
  : Result PluginResult.t :=
  pushed <- keepCompatible targetDCVersion rawVersions ;;
  isCurrentVersionCompatible <-
    someR (sameAsCurrent (Plugin.currentVersion plugin)) pushed ;;
  compatibleVersions <-
    (if (0 <? List.length pushed)%nat then sortBy descending pushed
     else Ok pushed) ;;
  let recommendedVersion :=
    if (0 <? List.length pushed)%nat
    then Some (firstVersion compatibleVersions) else None in
  compatibleVersionRange <-
    (if (0 <? List.length compatibleVersions)%nat then
       sorted <- sortBy ascending compatibleVersions ;;
       let v1 := firstVersion sorted in
       let v2 := lastVersion sorted in
       Ok (Some (if (v1 =? v2) then v1 else rangeText v1 v2))
     else Ok None) ;;
  Ok {| PluginResult.pluginName := Plugin.name plugin;
        PluginResult.pluginUrl := Plugin.marketplaceUrl plugin;
        PluginResult.currentVersion := Plugin.currentVersion plugin;
        PluginResult.targetDCVersion := targetDCVersion;
        PluginResult.fetchMethod := fetchMethod;
        PluginResult.compatible := Some isCurrentVersionCompatible;
        PluginResult.compatibleVersions := compatibleVersions;
        PluginResult.compatibleVersionRange := compatibleVersionRange;
        PluginResult.recommendedVersion := recommendedVersion;
        PluginResult.totalVersionsChecked := Some (List.length rawVersions);
        PluginResult.allVersions := Some rawVersions;
        PluginResult.parseWarnings := Some [];
        PluginResult.error := None |}.

(* ===================================================================== *)
(** ** Effects: the progress sink, the network and the browser *)
(* ===================================================================== *)

Inductive Method : Type := InitialState | RestApi | Puppeteer.

(** What a run does to the outside, in order. *)
Inductive Event : Type :=
| Progress (line : string)          (* progressCallback(line) *)
| Launch                            (* puppeteer.launch(...) *)
| Close                             (* browser.close() *)
| Call (m : Method)                 (* a client function is entered *)
| Request (m : Method) (arg : string) (* its network or browser work *)
| Sleep (ms : nat).                 (* setTimeout *)

(** A computation: the events it emitted, and its completion. *)
Record M (A : Type) : Type := mkM { events : list Event; outcome : Result A }.
Arguments mkM {A} events outcome.
Arguments events {A} m.
Arguments outcome {A} m.

Definition ret {A} (a : A) : M A := mkM [] (Ok a).
Definition throw {A} (e : exn) : M A := mkM [] (Throw e).
Definition emit (ev : Event) : M unit := mkM [ev] (Ok tt).
Definition liftR {A} (r : Result A) : M A := mkM [] r.

Definition bindM {A B} (m : M A) (k : A -> M B) : M B :=
  match outcome m with
  | Ok a => mkM (events m ++ events (k a)) (outcome (k a))
  | Throw e => mkM (events m) (Throw e)
  end.

(** [try { m } catch (e) { handler e }] *)
Definition tryCatch {A} (m : M A) (handler : exn -> M A) : M A :=
  match outcome m with
  | Ok a => m
  | Throw e => mkM (events m ++ events (handler e)) (outcome (handler e))
  end.

Notation "x <~ m ;; k" := (bindM m (fun x => k))
  (at level 61, m at next level, right associativity).
Notation "m ;;> k" := (bindM m (fun _ => k))
  (at level 61, right associativity).

Definition progressCallback (line : string) : M unit := emit (Progress line).

(** A number inside a template string. *)
Definition show (n : nat) : string := NilEmpty.string_of_uint (Nat.to_uint n).

(** A row scraped from the rendered grid. *)
Module Row.
Record t : Type := mk
  { version : string; compatibility : string; releaseDate : string }.
End Row.

(** The marketplace as one plugin's clients meet it: what the network and
    the browser answer to each client.
    - [initialState pageUrl]: [httpGet] of the page, the search for the
      script tag, [JSON.parse] and [walkInitialState]; the records
      collected, or the exception thrown on the way.
    - [restApi key]: the paginated requests of [fetchFromAPI] and the
      records accumulated in [allVersions].
    - [renderedRows pageUrl]: the page opened in the browser, the waits, the
      clicks and the rows extracted. *)
Record Upstream : Type := mkUpstream
  { initialState : string -> Result (list Raw.t);
    restApi : string -> Result (list Raw.t);
    renderedRows : string -> Result (list Row.t) }.

Definition isEmpty {A} (l : list A) : bool :=
  match l with [] => true | _ :: _ => false end.

Section Clients.

Variable up : Upstream.

Definition fetchFromInitialState (pageUrl : string) : M (list Raw.t) :=
  emit (Call InitialState) ;;>
  progressCallback "  [Method 1] Fetching page HTML for initial-state JSON..." ;;>
  emit (Request InitialState pageUrl) ;;>
  versions <~ liftR (initialState up pageUrl) ;;
  if isEmpty versions
  then throw (Error "No version data found in initial-state")
  else
    progressCallback
      ("  [Method 1] Found " ++ show (List.length versions) ++ " versions") ;;>
    ret versions.

Definition fetchFromAPI (identifiers : Identifiers.t) : M (list Raw.t) :=
  emit (Call RestApi) ;;>
  let resourceKey :=
    if truthyO (Identifiers.id identifiers)
    then orEmpty (Identifiers.id identifiers)
    else orEmpty (Identifiers.slug identifiers) in
  if negb (truthy resourceKey) then throw (Error "No ID or slug found")
  else
    progressCallback ("  [Method 2] REST API using key: " ++ resourceKey) ;;>
    emit (Request RestApi resourceKey) ;;>
    allVersions <~ liftR (restApi up resourceKey) ;;
    if isEmpty allVersions then throw (Error "API returned 0 DC versions")
    else
      progressCallback
        ("  [Method 2] Found " ++ show (List.length allVersions) ++ " versions") ;;>
      ret allVersions.

Definition rowToRaw (v : Row.t) : Result Raw.t :=
  parsed <- parseCompatibilityString (Some (Row.compatibility v)) ;;
  Ok {| Raw.version := Row.version v;
        Raw.compatibility := Some (Row.compatibility v);
        Raw.releaseDate := Some (Row.releaseDate v);
        Raw.releaseSummary := None;
        Raw.minVersion := Parsed.minVersion parsed;
        Raw.maxVersion := Parsed.maxVersion parsed |}.

Definition fetchFromPuppeteer (pageUrl pluginName : string) : M (list Raw.t) :=
  emit (Call Puppeteer) ;;>
  progressCallback ("  [Method 3] Browser rendering: " ++ pageUrl) ;;>
  emit (Request Puppeteer pageUrl) ;;>
  versions <~ liftR (renderedRows up pageUrl) ;;
  if isEmpty versions
  then throw (Error "No rows found. DOM selector mismatch.")
  else
    progressCallback
      ("  [Method 3] Extracted " ++ show (List.length versions)
       ++ " versions from DOM") ;;>
    liftR (mapR rowToRaw versions).

End Clients.

(* ===================================================================== *)
(** ** Fetch orchestrator *)
(* ===================================================================== *)

(** [`All methods failed:\n • ${errors.join('\n • ')}`]; the bullet is kept
    as the bytes of its UTF-8 encoding. *)
Definition allMethodsFailed (errors : list string) : exn :=
  Error ("All methods failed:" ++ LF ++ " • "
         ++ String.concat (LF ++ " • ") errors).

Section Orchestrator.

Variable pathname : string -> Result string.
Variable up : Upstream.

Definition tryPuppeteer (pageUrl : string) (plugin : Plugin.t)
    (errors : list string) : M (list Raw.t * string) :=
  tryCatch
    (versions <~ fetchFromPuppeteer up pageUrl (Plugin.name plugin) ;;
     ret (versions, "puppeteer"))
    (fun e =>
       throw (allMethodsFailed (errors ++ ["puppeteer: " ++ message e]))).

Definition fetchAllVersions (plugin : Plugin.t) : M (list Raw.t * string) :=
  let pageUrl := normalizeVersionHistoryUrl (Plugin.marketplaceUrl plugin) in
  let identifiers :=
    extractAddonIdentifiers pathname (Plugin.marketplaceUrl plugin) in
  tryCatch
    (versions <~ fetchFromInitialState up pageUrl ;;
     ret (versions, "initial-state"))
    (fun e1 =>
       let errors := ["initial-state: " ++ message e1] in
       if truthyO (Identifiers.id identifiers)
          || truthyO (Identifiers.slug identifiers)
       then
         tryCatch
           (versions <~ fetchFromAPI up identifiers ;;
            ret (versions, "rest-api"))
           (fun e2 =>
              tryPuppeteer pageUrl plugin
                (errors ++ ["rest-api: " ++ message e2]))
       else tryPuppeteer pageUrl plugin errors).

End Orchestrator.

(* ===================================================================== *)
(** ** Batch runner *)
(* ===================================================================== *)

Definition failedResult (plugin : Plugin.t) (targetDCVersion : option string)
    (err : exn) : PluginResult.t :=
  {| PluginResult.pluginName := Plugin.name plugin;
     PluginResult.pluginUrl := Plugin.marketplaceUrl plugin;
     PluginResult.currentVersion := Plugin.currentVersion plugin;
     PluginResult.targetDCVersion := targetDCVersion;
     PluginResult.fetchMethod := "failed";
     PluginResult.compatible := None;
     PluginResult.compatibleVersions := [];
     PluginResult.compatibleVersionRange := None;
     PluginResult.recommendedVersion := None;
     PluginResult.totalVersionsChecked := None;
     PluginResult.allVersions := None;
     PluginResult.parseWarnings := None;
     PluginResult.error := Some (message err) |}.

Section Batch.

Variable pathname : string -> Result string.

(** The marketplace while the plugin at each index is processed. *)
Variable upstreamAt : nat -> Upstream.

(** The [try]/[catch] of the loop body. *)
Definition processPlugin (up : Upstream) (plugin : Plugin.t)
    (targetDCVersion : option string) : M PluginResult.t :=
  tryCatch
    (fetched <~ fetchAllVersions pathname up plugin ;;
     result <~ liftR (buildResult plugin (fst fetched) targetDCVersion
                        (snd fetched)) ;;
     progressCallback
       ("  ✓ Found "
        ++ show (List.length (PluginResult.compatibleVersions result))
        ++ " compatible versions") ;;>
     ret result)
    (fun err =>
       progressCallback ("  ✗ Error: " ++ message err) ;;>
       ret (failedResult plugin targetDCVersion err)).

(** The [for] loop, from index [i], over the plugins still to process;
    [total] is [plugins.length]. *)
Fixpoint processFrom (total i : nat) (plugins : list Plugin.t)
    (targetDCVersion : option string) : M (list PluginResult.t) :=
  match plugins with
  | [] => ret []
  | plugin :: rest =>
      progressCallback
        ("[" ++ show (i + 1) ++ "/" ++ show total ++ "] Processing: "
         ++ Plugin.name plugin) ;;>
      result <~ processPlugin (upstreamAt i) plugin targetDCVersion ;;
      (if (i <? total - 1)%nat then emit (Sleep 2000) else ret tt) ;;>
      results <~ processFrom total (S i) rest targetDCVersion ;;
      ret (result :: results)
  end.

(** [checkCompatibility].  The launch and the close of the browser are
    events: a browser that cannot be launched ends the batch before the
    first plugin, and is outside the embedding. *)
Definition checkCompatibility (plugins : list Plugin.t)
    (targetDCVersion : option string) : M (list PluginResult.t) :=
  progressCallback "Launching browser (used only as final fallback)..." ;;>
  emit Launch ;;>
  results <~ processFrom (List.length plugins) 0 plugins targetDCVersion ;;
  emit Close ;;>
  ret results.

End Batch.

(* ===================================================================== *)
(** ** The route that calls the batch runner *)
(* ===================================================================== *)

(** The server-sent events of the compatibility route. *)
Inductive Sse : Type :=
| SseError (msg : string)
| SseStart (total : nat) (msg : string)
| SseProgress (msg : string)
| SseComplete (results : list PluginResult.t).

Inductive Reply : Type :=
| Status400 (error : string)     (* res.status(400).json({ error }) *)
| EventStream (sent : list Sse). (* what was sent before res.end() *)

Definition progressLines (evs : list Event) : list Sse :=
  flat_map (fun ev => match ev with Progress l => [SseProgress l] | _ => [] end)
           evs.

(** The handler of [GET /api/check-compatibility], for an authenticated
    session.  [found] is the answer of the plugin store to [Plugin.find].
    The handler returns its reply and what the batch runner did to the
    marketplace and the browser. *)
Definition checkCompatibilityRoute (pathname : string -> Result string)
    (upstreamAt : nat -> Upstream) (type targetDCVersion : option string)
    (found : Result (list Plugin.t)) : Reply * list Event :=
  if negb (truthyO type) || negb (truthyO targetDCVersion)
  then (Status400 "type and targetDCVersion are required.", [])
  else
    match found with
    | Throw err => (EventStream [SseError (message err)], [])
    | Ok plugins =>
        if (List.length plugins =? 0)%nat
        then (EventStream [SseError "No plugins found for this product type."],
              [])
        else
          let run :=
            checkCompatibility pathname upstreamAt
              (map (fun p => Plugin.mk (Plugin.name p) (Plugin.marketplaceUrl p)
                                       (Plugin.currentVersion p)) plugins)
              targetDCVersion in
          (EventStream
             (SseStart (List.length plugins)
                ("Starting compatibility check for "
                 ++ show (List.length plugins) ++ " plugins...")
              :: progressLines (events run)
              ++ match outcome run with
                 | Ok results => [SseComplete results]
                 | Throw err => [SseError (message err)]
                 end),
           events run)
    end.

(* ===================================================================== *)
(** ** Parsed JSON *)
(* ===================================================================== *)

Local Unset Elimination Schemes.

(** A value that [JSON.parse] returns.  A number is held as the text that
    [String] gives for it, which determines the number up to the sign of
    zero.  The properties of an object are distinct; they are listed in the
    order of [Object.keys]. *)
Inductive Json : Type :=
| JNull
| JBool (b : bool)
| JNum (text : string)
| JStr (s : string)
| JArr (items : list Json)
| JObj (props : list (string * Json)).

Local Set Elimination Schemes.

(** Truthiness.  [JSON.parse] gives no [NaN]; both zeros print as ["0"]. *)
Definition truthyJ (v : Json) : bool :=
  match v with
  | JNull => false
  | JBool b => b
  | JNum text => negb (text =? "0")
  | JStr s => truthy s
  | JArr _ | JObj _ => true
  end.

(** A value that may be [undefined] is an [option]. *)
Definition truthyV (v : option Json) : bool :=
  match v with Some j => truthyJ j | None => false end.

(** [a || b] *)
Definition orV (a b : option Json) : option Json :=
  if truthyV a then a else b.

(** [a || d] for a [d] that is defined. *)
Definition orJ (a : option Json) (d : Json) : Json :=
  match a with
  | Some j => if truthyJ j then j else d
  | None => d
  end.

(** [a && a.key], written with the read of the key as [f]. *)
Definition andV (a : option Json) (f : Json -> option Json) : option Json :=
  match a with
  | Some j => if truthyJ j then f j else a
  | None => None
  end.

Fixpoint assoc (key : string) (props : list (string * Json)) : option Json :=
  match props with
  | [] => None
  | (k, v) :: rest => if (k =? key) then Some v else assoc key rest
  end.

(** [v.key] for a [v] that is not [null].  The keys that the module reads
    are own properties of objects only: no prototype defines one of them, so
    on a string, a number, a boolean or an array the read is [undefined]. *)
Definition prop (key : string) (v : Json) : option Json :=
  match v with
  | JObj props => assoc key props
  | _ => None
  end.

(** [v.key] for any [v]: reading a property of [null] throws. *)
Definition get (v : Json) (key : string) : Result (option Json) :=
  match v with
  | JNull =>
      Throw (TypeError
               ("Cannot read properties of null (reading '" ++ key ++ "')"))
  | _ => Ok (prop key v)
  end.

(** [Array.isArray(v) ? v : []] *)
Definition arrayItems (v : option Json) : list Json :=
  match v with
  | Some (JArr items) => items
  | _ => []
  end.

Definition hasKey (key : string) (props : list (string * Json)) : bool :=
  match assoc key props with Some _ => true | None => false end.

(** [String(v)], which is also what a template string does with [v].  An
    array is joined with commas, a [null] element giving the empty text.  An
    object prints as [[object Object]] unless it has a property [toString]
    of its own: that property is not a function, and the conversion throws. *)
Fixpoint toStr (v : Json) : Result string :=
  match v with
  | JNull => Ok "null"
  | JBool b => Ok (if b then "true" else "false")
  | JNum text => Ok text
  | JStr s => Ok s
  | JArr items =>
      (fix join (l : list Json) : Result string :=
         match l with
         | [] => Ok ""
         | x :: rest =>
             a <- match x with JNull => Ok "" | _ => toStr x end ;;
             match rest with
             | [] => Ok a
             | _ :: _ => b <- join rest ;; Ok (a ++ "," ++ b)
             end
         end) items
  | JObj props =>
      if hasKey "toString" props
      then Throw (TypeError "Cannot convert object to primitive value")
      else Ok "[object Object]"
  end.

(** [xs.find(f)] for an [f] that can throw. *)
Fixpoint findR {A} (f : A -> Result bool) (l : list A) : Result (option A) :=
  match l with
  | [] => Ok None
  | x :: l' => b <- f x ;; if b then Ok (Some x) else findR f l'
  end.

(** The elements that are present, in order. *)
Definition somes {A} (l : list (option A)) : list A :=
  flat_map (fun o => match o with Some a => [a] | None => [] end) l.

(* ===================================================================== *)
(** ** The walk of the initial state *)
(* ===================================================================== *)

(** A record built by [extractVersionFromStateNode].  The version and the
    compatibility text are strings; the other fields are the JSON values
    found. *)
Module StateEntry.
Record t : Type := mk
  { version : string;
    compatibility : string;
    releaseDate : Json;
    releaseSummary : Json;
    minVersion : Json;
    maxVersion : Json }.
End StateEntry.

(** The callback of [candidates.find].  Only an object can pass it: on any
    other candidate that is not [null] both reads are [undefined]. *)
Definition isDataCenter (c : Json) : Result bool :=
  hosting <- get c "hosting" ;;
  h <- toStr (orJ (orV hosting (prop "type" c)) (JStr "")) ;;
  let h := toLowerCase h in
  Ok (includes h "datacenter" || includes h "data_center"
      || (h =? "server_and_dc")).

Definition extractVersionFromStateNode (node versionStr : Json)
  : Result (option StateEntry.t) :=
  embedded <- get node "_embedded" ;;
  let emb := orJ embedded (JObj []) in
  let candidates :=
    (arrayItems (prop "compatibilities" emb)
     ++ arrayItems (prop "compatibility" node)
     ++ arrayItems (prop "compatibilities" node))%list in
  found <- findR isDataCenter candidates ;;
  match found with
  | None => Ok None
  | Some dc =>
      let cvEmb :=
        orJ (andV (prop "_embedded" dc) (prop "compatibleVersions"))
            (JObj []) in
      let min :=
        orJ (orV (orV (prop "min" dc) (prop "minVersion" dc))
                 (prop "min" cvEmb)) (JStr "") in
      let max :=
        orJ (orV (orV (prop "max" dc) (prop "maxVersion" dc))
                 (prop "max" cvEmb)) (JStr "") in
      if negb (truthyJ min) || negb (truthyJ max) then Ok None
      else
        version <- toStr versionStr ;;
        lo <- toStr min ;;
        hi <- toStr max ;;
        Ok (Some
              {| StateEntry.version := version;
                 StateEntry.compatibility := rangeText lo hi;
                 StateEntry.releaseDate :=
                   orJ (orV (prop "releaseDate" node)
                            (andV (prop "release" node) (prop "date")))
                       (JStr "");
                 StateEntry.releaseSummary :=
                   orJ (orV (andV (prop "release" node) (prop "notes"))
                            (prop "releaseSummary" node))
                       (JStr "");
                 StateEntry.minVersion := min;
                 StateEntry.maxVersion := max |})
  end.

(** The pattern of the walk: at the start of the text, digits, a dot and a
    digit. *)
Definition startsMajorMinor (s : string) : bool :=
  let (digits, rest) := spanDigits s in
  truthy digits &&
  match rest with
  | String "." (String c _) => isDigit c
  | _ => false
  end.

(** A version-like object that yields a record; [None] when the walk has to
    go on into the properties. *)
Definition versionNode (node : Json) : Result (option StateEntry.t) :=
  let versionStr := orJ (orV (prop "name" node) (prop "version" node))
                        (JStr "") in
  if truthyJ versionStr then
    s <- toStr versionStr ;;
    if startsMajorMinor s && (String.length s <? 25)%nat
    then extractVersionFromStateNode node versionStr
    else Ok None
  else Ok None.

(** [walkInitialState(node, collected, depth)]: the records that the call
    pushes on [collected], in order.  An exception leaves the walk. *)
Fixpoint walkInitialState (node : Json) (depth : nat)
  : Result (list StateEntry.t) :=
  match node with
  | JArr items =>
      if (15 <? depth)%nat then Ok []
      else
        (fix each (l : list Json) : Result (list StateEntry.t) :=
           match l with
           | [] => Ok []
           | item :: rest =>
               a <- walkInitialState item (S depth) ;;
               b <- each rest ;;
               Ok (a ++ b)%list
           end) items
  | JObj props =>
      if (15 <? depth)%nat then Ok []
      else
        entry <- versionNode node ;;
        match entry with
        | Some e => Ok [e]
        | None =>
            (fix each (l : list (string * Json)) : Result (list StateEntry.t) :=
               match l with
               | [] => Ok []
               | (_, value) :: rest =>
                   a <- walkInitialState value (S depth) ;;
                   b <- each rest ;;
                   Ok (a ++ b)%list
               end) props
        end
  | _ => Ok []
  end.

(* ===================================================================== *)
(** ** The two JSON clients, from the parsed document on *)
(* ===================================================================== *)

(** [fetchFromInitialState] and [fetchFromAPI] once more, with the work that
    [initialState] and [restApi] of an [Upstream] stand for written out from
    the parsed JSON on.  What stays a parameter is the transport:
    - [stateJson pageUrl]: [httpGet] of the page, the search for the script
      tag and [JSON.parse] of its content;
    - [httpGetJson apiUrl]: [httpGet] of a page of the REST listing and
      [JSON.parse] of the body.
    The loop of [fetchFromAPI] has no bound of its own: it runs on [fuel],
    one unit per request, and [None] is a run that needs more. *)
Module OnJson.

Section Clients.

Variable stateJson : string -> Result Json.
Variable httpGetJson : string -> Result Json.

Definition fetchFromInitialState (pageUrl : string) : M (list StateEntry.t) :=
  emit (Call InitialState) ;;>
  progressCallback "  [Method 1] Fetching page HTML for initial-state JSON..." ;;>
  emit (Request InitialState pageUrl) ;;>
  state <~ liftR (stateJson pageUrl) ;;
  versions <~ liftR (walkInitialState state 0) ;;
  if isEmpty versions
  then throw (Error "No version data found in initial-state")
  else
    progressCallback
      ("  [Method 1] Found " ++ show (List.length versions) ++ " versions") ;;>
    ret versions.

Definition LIMIT : nat := 50.

Definition apiUrl (resourceKey : string) (offset : nat) : string :=
  "https://marketplace.atlassian.com/rest/2/addons/" ++ resourceKey
  ++ "/versions" ++ "?hosting=datacenter&limit=" ++ show LIMIT
  ++ "&offset=" ++ show offset.

(** The array of versions of a page, or the empty array. *)
Definition itemsOf (data : Json) : Result (list Json) :=
  embedded <- get data "_embedded" ;;
  match andV embedded (prop "versions") with
  | Some (JArr items) => Ok items
  | _ =>
      match prop "versions" data with
      | Some (JArr items) => Ok items
      | _ => Ok []
      end
  end.

(** The body of [for (const v of items)]. *)
Definition entryOfItem (v : Json) : Result (option StateEntry.t) :=
  name <- get v "name" ;;
  extractVersionFromStateNode v (orJ (orV name (prop "version" v)) (JStr "")).

(** One round of the loop: the records of the page at [offset], and whether
    the loop goes on to the next page. *)
Definition requestPage (resourceKey : string) (offset : nat)
  : M (list StateEntry.t * bool) :=
  (if (offset =? 0)%nat
   then progressCallback
          ("  [Method 2] Requesting: " ++ apiUrl resourceKey offset)
   else ret tt) ;;>
  emit (Request RestApi (apiUrl resourceKey offset)) ;;>
  data <~ liftR (httpGetJson (apiUrl resourceKey offset)) ;;
  items <~ liftR (itemsOf data) ;;
  if isEmpty items then ret ([], false)
  else
    found <~ liftR (mapR entryOfItem items) ;;
    ret (somes found, negb (List.length items <? LIMIT)%nat).

(** The [do ... while (true)] loop, from [offset] on. *)
Fixpoint requestPages (fuel : nat) (resourceKey : string) (offset : nat)
  : option (M (list StateEntry.t)) :=
  match fuel with
  | O => None
  | S fuel' =>
      let page := requestPage resourceKey offset in
      match outcome page with
      | Ok (entries, true) =>
          match requestPages fuel' resourceKey (offset + LIMIT) with
          | Some rest =>
              Some (page ;;> emit (Sleep 400) ;;>
                    more <~ rest ;;
                    ret (entries ++ more)%list)
          | None => None
          end
      | _ => Some (p <~ page ;; ret (fst p))
      end
  end.

Definition fetchFromAPI (fuel : nat) (identifiers : Identifiers.t)
  : option (M (list StateEntry.t)) :=
  let resourceKey :=
    if truthyO (Identifiers.id identifiers)
    then orEmpty (Identifiers.id identifiers)
    else orEmpty (Identifiers.slug identifiers) in
  if negb (truthy resourceKey)
  then Some (emit (Call RestApi) ;;> throw (Error "No ID or slug found"))
  else
    match requestPages fuel resourceKey 0 with
    | None => None
    | Some pages =>
        Some
          (emit (Call RestApi) ;;>
           progressCallback
             ("  [Method 2] REST API using key: " ++ resourceKey) ;;>
           allVersions <~ pages ;;
           if isEmpty allVersions
           then throw (Error "API returned 0 DC versions")
           else
             progressCallback
               ("  [Method 2] Found " ++ show (List.length allVersions)
                ++ " versions") ;;>
             ret allVersions)
    end.

End Clients.

End OnJson.

(* ===================================================================== *)
(** ** The rows of the rendered grid *)
(* ===================================================================== *)

(** A grid cell, by the two texts the extraction reads. *)
Module Cell.
Record t : Type := mk { innerText : string; textContent : string }.
End Cell.

(** [cell.innerText || cell.textContent] *)
Definition textOf (cell : Cell.t) : string :=
  if truthy (Cell.innerText cell) then Cell.innerText cell
  else Cell.textContent cell.

(** The longest prefix of characters of [0-9a-zA-Z.] and what follows it. *)
Fixpoint spanVersionChars (s : string) : string * string :=
  match s with
  | EmptyString => (EmptyString, EmptyString)
  | String c s' =>
      if isAlnum c || (c =? ".")%char
      then let (t, r) := spanVersionChars s' in (String c t, r)
      else (EmptyString, s)
  end.

(** The group of the version pattern at the start of [s]: digits, a dot,
    characters of [0-9a-zA-Z.], and then the end of the text or white
    space.  Both runs are greedy, and giving back a character never helps:
    the character given back is not a dot, or is not white space. *)
Definition versionAt (s : string) : option string :=
  let (digits, rest) := spanDigits s in
  if truthy digits then
    match rest with
    | String "." rest' =>
        let (tail, after) := spanVersionChars rest' in
        if truthy tail then
          match after with
          | EmptyString => Some (digits ++ "." ++ tail)
          | String c _ =>
              if isSpace c then Some (digits ++ "." ++ tail) else None
          end
        else None
    | _ => None
    end
  else None.

(** The first match that begins with a white space character. *)
Fixpoint afterSpace (s : string) : option string :=
  match s with
  | EmptyString => None
  | String c s' =>
      if isSpace c then
        match versionAt s' with
        | Some v => Some v
        | None => afterSpace s'
        end
      else afterSpace s'
  end.

(** [t1.match(pattern)], by its group: the leftmost match, which begins at
    the start of the text or with a white space character. *)
Definition vMatch (t1 : string) : option string :=
  match versionAt t1 with
  | Some v => Some v
  | None => afterSpace t1
  end.

(** The callback of [versionRows.forEach], on the grid cells of a row. *)
Definition gridRow (cells : list Cell.t) : option Row.t :=
  match cells with
  | c0 :: c1 :: c2 :: _ =>
      match vMatch (textOf c0) with
      | Some v =>
          Some {| Row.version := trim v;
                  Row.compatibility := trim (textOf c1);
                  Row.releaseDate := trim (textOf c2) |}
      | None => None
      end
  | _ => None
  end.

(** The rows pushed for the rows of the grid, in order. *)
Definition extractData (versionRows : list (list Cell.t)) : list Row.t :=
  somes (map gridRow versionRows).

(* ===================================================================== *)
(** ** The summary sheet of the workbook *)
(* ===================================================================== *)

(** From [src/utils/excelGenerator.js]: what [generateExcel] computes from
    the results before it styles the cells.  The results are records of the
    shape that the batch runner returns. *)
Inductive CompatStatus : Type :=
| StatusError
| StatusCompatible
| StatusNotCompatible
| StatusUnknown.

Definition isTrue (o : option bool) : bool :=
  match o with Some true => true | _ => false end.

Definition isFalse (o : option bool) : bool :=
  match o with Some false => true | _ => false end.

Definition compatStatus (result : PluginResult.t) : CompatStatus :=
  if truthyO (PluginResult.error result)
     && negb (isTrue (PluginResult.compatible result))
     && (List.length (PluginResult.compatibleVersions result) =? 0)%nat
  then StatusError
  else if isTrue (PluginResult.compatible result) then StatusCompatible
  else if isFalse (PluginResult.compatible result) then StatusNotCompatible
  else StatusUnknown.

(** The four counts of the summary row. *)
Module Summary.
Record t : Type := mk
  { compatible : nat; notCompatible : nat; errors : nat; needsUpgrade : nat }.
End Summary.

Definition count {A} (p : A -> bool) (l : list A) : nat :=
  List.length (filter p l).

Definition summary (results : list PluginResult.t) : Summary.t :=
  {| Summary.compatible :=
       count (fun r => isTrue (PluginResult.compatible r)) results;
     Summary.notCompatible :=
       count (fun r => isFalse (PluginResult.compatible r)) results;
     Summary.errors :=
       count (fun r => truthyO (PluginResult.error r)) results;
     Summary.needsUpgrade :=
       count (fun r => isFalse (PluginResult.compatible r)
                       && (0 <? List.length (PluginResult.compatibleVersions r))%nat)
             results |}.

(** [cv.pluginVersion === result.recommendedVersion] *)
Definition isRecommended (result : PluginResult.t) (cv : Entry.t) : bool :=
  match PluginResult.recommendedVersion result with
  | Some v => (Entry.pluginVersion cv =? v)
  | None => false
  end.

Definition dcCompatText (result : PluginResult.t) : string :=
  if (0 <? List.length (PluginResult.compatibleVersions result))%nat then
    match find (isRecommended result) (PluginResult.compatibleVersions result) with
    | Some recVer =>
        if truthy (Entry.compatibility recVer) then Entry.compatibility recVer
        else "DC " ++ Entry.compatibilityRange recVer
    | None => ""
    end
  else "".

(** The cells of a data row after the index, the name, the current version
    and the status: recommended version, version range, compatibility of the
    recommended version. *)
Definition recommendedCell (result : PluginResult.t) : string :=
  if truthyO (PluginResult.recommendedVersion result)
  then orEmpty (PluginResult.recommendedVersion result)
  else if isTrue (PluginResult.compatible result)
       then PluginResult.currentVersion result
       else "N/A".

Definition rangeCell (result : PluginResult.t) : string :=
  if truthyO (PluginResult.compatibleVersionRange result)
  then orEmpty (PluginResult.compatibleVersionRange result)
  else "N/A".

Definition dcCompatCell (result : PluginResult.t) : string :=
  if truthy (dcCompatText result) then dcCompatText result else "N/A".

(** The mark of the current version on the detail sheet:
    [cv.pluginVersion === result.currentVersion]. *)
Definition isCurrentVersion (result : PluginResult.t) (cv : Entry.t) : bool :=
  (Entry.pluginVersion cv =? PluginResult.currentVersion result).


(* ********************************************************************* *)
(** * Part II: definitions used to state the properties *)
(* ********************************************************************* *)

(** The sign of a [comparison], as the comparator returns it. *)
Definition sign (c : comparison) : Z :=
  match c with Lt => (-1)%Z | Eq => 0%Z | Gt => 1%Z end.

(** Segments ordered by number, then by remainder. *)
Definition segmentOrder (sa sb : Segment) : comparison :=
  match N.compare (num sa) (num sb) with
  | Eq => String.compare (alpha sa) (alpha sb)
  | c => c
  end.

(** The comparison of two parsed versions, as [compareVersions] runs it. *)
Definition compareParsed (sa sb : list Segment) : Z :=
  compareFrom sa sb 0 (Nat.max (List.length sa) (List.length sb)).

(** A string is comparable when [parseVersion] returns on it. *)
Definition comparable (s : string) : Prop :=
  exists l, parseVersion s = Ok l.

(** [a] is not after [b] under the comparator. *)
Definition versionLe (a b : string) : Prop :=
  exists c, compareVersions a b = Ok c /\ (c <= 0)%Z.

(** A string without line terminators. *)
Definition singleLine (s : string) : bool := negb (anyChar isLineTerminator s).

Definition singleLineO (o : option string) : bool :=
  match o with Some s => singleLine s | None => true end.

(** A raw record whose version and bounds have no line terminator. *)
Definition singleLineRaw (v : Raw.t) : bool :=
  singleLine (Raw.version v) && singleLineO (Raw.minVersion v)
  && singleLineO (Raw.maxVersion v).

Definition comparableO (o : option string) : Prop :=
  match o with Some s => comparable s | None => True end.

(** The characters a version token is made of: [0-9a-zA-Z] and the dot. *)
Definition isTokenChar (c : ascii) : bool := isAlnum c || (c =? ".")%char.

(** [x] is not after [y] under the comparator [cmp]. *)
Definition notAfter {A} (cmp : A -> A -> Result Z) (x y : A) : Prop :=
  exists c, cmp x y = Ok c /\ (c <= 0)%Z.

(** The record is kept: its bounds are resolved and the target lies within
    them. *)
Definition covers (target : option string) (v : Raw.t) : bool :=
  match resolveBounds v with
  | Ok (lo, hi) =>
      truthyO lo && truthyO hi &&
      match isVersionInRange target lo hi with Ok b => b | Throw _ => false end
  | Throw _ => false
  end.

(** The entry pushed for a kept record. *)
Definition entryOf (v : Raw.t) : Entry.t :=
  match resolveBounds v with
  | Ok (lo, hi) => toEntry v (orEmpty lo) (orEmpty hi)
  | Throw _ => toEntry v "" ""
  end.

(** The kept entries, in the order of the raw records. *)
Definition keptEntries (rawVersions : list Raw.t) (target : option string)
  : list Entry.t :=
  map entryOf (filter (covers target) rawVersions).

(** The client functions entered during a run, in order. *)
Definition callsOf (evs : list Event) : list Method :=
  flat_map (fun ev => match ev with Call m => [m] | _ => [] end) evs.

(** The requests sent to the network or the browser during a run. *)
Definition requestsOf (evs : list Event) : list Method :=
  flat_map (fun ev => match ev with Request m _ => [m] | _ => [] end) evs.

(** The entry the loop body pushes for a plugin. *)
Definition entryFor (pathname : string -> Result string)
    (targetDCVersion : option string) (up : Upstream) (plugin : Plugin.t)
  : PluginResult.t :=
  match outcome (fetchAllVersions pathname up plugin) with
  | Throw err => failedResult plugin targetDCVersion err
  | Ok (versions, method) =>
      match buildResult plugin versions targetDCVersion method with
      | Ok result => result
      | Throw err => failedResult plugin targetDCVersion err
      end
  end.

Fixpoint entriesFrom (pathname : string -> Result string)
    (upstreamAt : nat -> Upstream) (targetDCVersion : option string)
    (i : nat) (plugins : list Plugin.t) : list PluginResult.t :=
  match plugins with
  | [] => []
  | plugin :: rest =>
      entryFor pathname targetDCVersion (upstreamAt i) plugin
      :: entriesFrom pathname upstreamAt targetDCVersion (S i) rest
  end.

(* ===================================================================== *)
(** ** Concrete inputs *)
(* ===================================================================== *)

(** A stand-in for the URL class on plain [scheme://host/path?query#fragment]
    URLs, used to run the examples: the text from the first slash after the
    host up to the first [?] or [#]. *)
Fixpoint afterScheme (s : string) : option string :=
  match s with
  | EmptyString => None
  | String c s' => if prefix "://" s then Some (substring 3 (String.length s) s)
                   else afterScheme s'
  end.

Fixpoint fromSlash (s : string) : string :=
  match s with
  | EmptyString => "/"
  | String c s' => if (c =? "/")%char then s else fromSlash s'
  end.

Fixpoint untilQuery (s : string) : string :=
  match s with
  | EmptyString => EmptyString
  | String c s' => if (c =? "?")%char || (c =? "#")%char then EmptyString
                   else String c (untilQuery s')
  end.

Definition plainPathname (u : string) : Result string :=
  match afterScheme u with
  | Some rest => Ok (untilQuery (fromSlash rest))
  | None => Throw (TypeError "Invalid URL")
  end.

(** The three records of the example: versions 1.0, 2.0 and 3.0, of which
    only 2.0 and 3.0 cover the target 8.5. *)
Definition rawExample : list Raw.t :=
  [ Raw.mk "1.0" (Some "7.0 - 8.0") None None (Some "7.0") (Some "8.0");
    Raw.mk "2.0" (Some "8.0 - 9.0") None None (Some "8.0") (Some "9.0");
    Raw.mk "3.0" (Some "Data Center 8.5 - 9.2") None None None None ].

Definition pluginExample : Plugin.t :=
  Plugin.mk "Example" "https://marketplace.example.com/apps/1215215/example" "1.0".

(** A marketplace that answers nothing, and one whose page carries the
    given records. *)
Definition unreachable : Upstream :=
  mkUpstream (fun _ => Throw (Error "HTTP 503"))
             (fun _ => Throw (Error "HTTP 503"))
             (fun _ => Throw (Error "Navigation timeout of 60000 ms exceeded")).

Definition serving (versions : list Raw.t) : Upstream :=
  mkUpstream (fun _ => Ok versions)
             (fun _ => Throw (Error "HTTP 404"))
             (fun _ => Throw (Error "No rows found. DOM selector mismatch.")).

(** A plugin whose current version was stored with a line break in it. *)
Definition pluginTwoLines : Plugin.t :=
  Plugin.mk "Two lines"
    "https://marketplace.example.com/apps/1215215/example"
    ("1.0" ++ LF ++ "beta").

Definition pluginOffline : Plugin.t :=
  Plugin.mk "Offline" "https://marketplace.example.com/apps/42/offline" "1.0".

(** The string begins with white space. *)
Definition startsSpace (s : string) : bool :=
  match s with String c _ => isSpace c | EmptyString => false end.

(** The string is, as a whole, one match of [VERSION_TOKEN_RE]. *)
Definition isToken (t : string) : bool :=
  match matchToken t with Some u => (u =? t) | None => false end.

(** The string begins with a letter, a digit or a dot. *)
Definition startsTokenChar (s : string) : bool :=
  match s with String c _ => isTokenChar c | EmptyString => false end.

(** The launch and the close of the browser, among the events of a run. *)
Definition browserEvents (evs : list Event) : list Event :=
  filter (fun ev => match ev with Launch | Close => true | _ => false end) evs.

(** The pauses of a run, in milliseconds. *)
Definition sleepsOf (evs : list Event) : list nat :=
  flat_map (fun ev => match ev with Sleep ms => [ms] | _ => [] end) evs.

(** An event of a client: a progress line, the entry into a client or its
    request. *)
Definition isClientEvent (ev : Event) : bool :=
  match ev with Progress _ | Call _ | Request _ _ => true | _ => false end.

(** A record of the walk as the result builder expects it: the version
    begins like a version number and is shorter than 25 characters, both
    bounds are truthy, and the compatibility text is the two bounds, printed,
    around a dash. *)
Definition entryOk (e : StateEntry.t) : Prop :=
  startsMajorMinor (StateEntry.version e) = true /\
  String.length (StateEntry.version e) < 25 /\
  truthyJ (StateEntry.minVersion e) = true /\
  truthyJ (StateEntry.maxVersion e) = true /\
  exists lo hi,
    toStr (StateEntry.minVersion e) = Ok lo /\
    toStr (StateEntry.maxVersion e) = Ok hi /\
    StateEntry.compatibility e = rangeText lo hi.

(** The levels of arrays and objects of a document. *)
Fixpoint height (v : Json) : nat :=
  match v with
  | JArr items =>
      S ((fix most (l : list Json) : nat :=
            match l with
            | [] => 0
            | x :: rest => Nat.max (height x) (most rest)
            end) items)
  | JObj props =>
      S ((fix most (l : list (string * Json)) : nat :=
            match l with
            | [] => 0
            | (_, x) :: rest => Nat.max (height x) (most rest)
            end) props)
  | _ => 0
  end.

(** [v] inside [n] arrays of one element. *)
Fixpoint nest (n : nat) (v : Json) : Json :=
  match n with
  | O => v
  | S n' => JArr [nest n' v]
  end.

(** The URLs and page addresses requested during a run, in order. *)
Definition requestedUrls (evs : list Event) : list string :=
  flat_map (fun ev => match ev with Request _ arg => [arg] | _ => [] end) evs.

(** The round of the loop at page [j] asks for the next page. *)
Definition goesOn (httpGetJson : string -> Result Json) (resourceKey : string)
    (j : nat) : bool :=
  match outcome (OnJson.requestPage httpGetJson resourceKey (j * OnJson.LIMIT)) with
  | Ok (_, more) => more
  | Throw _ => false
  end.

(** The records of page [j]. *)
Definition pageEntries (httpGetJson : string -> Result Json)
    (resourceKey : string) (j : nat) : list StateEntry.t :=
  match outcome (OnJson.requestPage httpGetJson resourceKey (j * OnJson.LIMIT)) with
  | Ok (entries, _) => entries
  | Throw _ => []
  end.

(** Induction on a document: a property of the elements of an array, or of
    the values of an object, gives the property of the array or object. *)
Section JsonInduction.

Variable P : Json -> Prop.
Hypothesis Hnull : P JNull.
Hypothesis Hbool : forall b, P (JBool b).
Hypothesis Hnum : forall text, P (JNum text).
Hypothesis Hstr : forall s, P (JStr s).
Hypothesis Harr : forall items, Forall P items -> P (JArr items).
Hypothesis Hobj :
  forall props, Forall (fun kv => P (snd kv)) props -> P (JObj props).

Fixpoint Json_induction (v : Json) : P v :=
  match v with
  | JNull => Hnull
  | JBool b => Hbool b
  | JNum text => Hnum text
  | JStr s => Hstr s
  | JArr items =>
      Harr items
        ((fix all (l : list Json) : Forall P l :=
            match l with
            | [] => Forall_nil P
            | x :: rest => Forall_cons x (Json_induction x) (all rest)
            end) items)
  | JObj props =>
      Hobj props
        ((fix all (l : list (string * Json))
            : Forall (fun kv => P (snd kv)) l :=
            match l with
            | [] => Forall_nil _
            | (k, x) :: rest =>
                Forall_cons (k, x) (Json_induction x) (all rest)
            end) props)
  end.

End JsonInduction.
(** A document for the examples: an object that holds, under a key, an
    array with one version node. *)
Definition stateExample : Json :=
  JObj [("addon",
         JArr [JObj [("name", JStr "2.4.1");
                     ("releaseDate", JStr "2023-05-01");
                     ("compatibilities",
                      JArr [JObj [("hosting", JStr "cloud")];
                            JObj [("hosting", JStr "dataCenter");
                                  ("min", JStr "8.0");
                                  ("max", JNum "9")]])]])].

(** A version of the REST listing, and two listings: 51 versions served as
    a full page and a page of one, and a server that answers every request
    with the same full page. *)
Definition versionItem : Json :=
  JObj [("name", JStr "2.4.1");
        ("compatibilities",
         JArr [JObj [("hosting", JStr "datacenter");
                     ("min", JStr "8.0"); ("max", JStr "9.0")]])].

Definition twoPages (url : string) : Result Json :=
  if (url =? OnJson.apiUrl "1216863" 0)
  then Ok (JObj [("_embedded",
                  JObj [("versions", JArr (repeat versionItem 50))])])
  else Ok (JObj [("versions", JArr [versionItem])]).

Definition fullPages (url : string) : Result Json :=
  Ok (JObj [("versions", JArr (repeat versionItem 50))]).

(** A grid for the examples: a header row of two cells, a row without a
    version, and two version rows. *)
Definition gridExample : list (list Cell.t) :=
  [ [Cell.mk "Version" "Version"; Cell.mk "Compatibility" "Compatibility"];
    [Cell.mk "Latest" "Latest"; Cell.mk "" ""; Cell.mk "" ""];
    [Cell.mk "Version 2.4.1 " ""; Cell.mk " Jira Data Center 8.0 - 9.0.1" "";
     Cell.mk "2023-05-01" ""];
    [Cell.mk "" "2.3.0"; Cell.mk "Jira Data Center 8.0 - 8.20" "";
     Cell.mk "" "2022-11-12"] ].

(** What the sheet relies on in an entry of the batch. *)
Definition sheetEntry (r : PluginResult.t) : Prop :=
  match PluginResult.compatible r with
  | Some _ => PluginResult.error r = None
  | None =>
      truthyO (PluginResult.error r) = true /\
      PluginResult.compatibleVersions r = [] /\
      PluginResult.recommendedVersion r = None /\
      PluginResult.compatibleVersionRange r = None
  end.

(** The three cells of an entry, by its compatible versions. *)
Definition sheetCells (r : PluginResult.t) : Prop :=
  match PluginResult.compatibleVersions r with
  | [] =>
      recommendedCell r = "N/A" /\ rangeCell r = "N/A" /\ dcCompatCell r = "N/A"
  | top :: _ =>
      PluginResult.recommendedVersion r = Some (Entry.pluginVersion top) /\
      dcCompatText r = Entry.compatibility top /\
      dcCompatCell r = Entry.compatibility top /\
      Entry.compatibility top <> ""
  end.

(** A marketplace whose page, rendered in the browser, shows the given
    grid, and which answers nothing else. *)
Definition rendering (versionRows : list (list Cell.t)) : Upstream :=
  mkUpstream (fun _ => Throw (Error "HTTP 403"))
             (fun _ => Throw (Error "HTTP 404"))
             (fun _ => Ok (extractData versionRows)).

(** The blocks of a run, one after the other, with [sep] between two
    consecutive blocks: not before the first and not after the last. *)
Fixpoint joinWith {A} (sep : list A) (blocks : list (list A)) : list A :=
  match blocks with
  | [] => []
  | block :: rest =>
      match rest with
      | [] => block
      | _ :: _ => (block ++ sep ++ joinWith sep rest)%list
      end
  end.

(** What a page of the REST listing holds: its items and, for each item,
    the record read from it, if any.  An exception of the request, of the
    parsing or of the reading of an item is the exception of the page. *)
Definition readPage (httpGetJson : string -> Result Json) (url : string)
  : Result (list Json * list (option StateEntry.t)) :=
  data <- httpGetJson url ;;
  items <- OnJson.itemsOf data ;;
  found <- mapR OnJson.entryOfItem items ;;
  Ok (items, found).

(* ********************************************************************* *)
(** * Part III: properties *)
(* ********************************************************************* *)

(* ===================================================================== *)
(** ** The program on examples *)
(* ===================================================================== *)

Example ex_cmp1 : compareVersions "8" "8a" = Ok (-1)%Z.
Proof. reflexivity. Qed.
Example ex_cmp2 : compareVersions "8.1" "8.10" = Ok (-1)%Z.
Proof. reflexivity. Qed.
Example ex_cmp3 : compareVersions "2.0.0" "2.0" = Ok 0%Z.
Proof. reflexivity. Qed.

Example ex_tokens1 :
  extractVersionTokens "Confluence Data Center 8.0 - 9.0" = ["8.0"; "9.0"].
Proof. reflexivity. Qed.
Example ex_tokens2 :
  extractVersionTokens "v1.2.3-beta.4, jira7.x. and 10..2 or 3.a.b." =
  ["v1.2.3"; "beta.4"; "jira7.x"; "3.a.b"].
Proof. reflexivity. Qed.

Example ex_ids1 :
  extractAddonIdentifiers plainPathname
    "https://marketplace.example.com/apps/1215215/scriptrunner"
  = Identifiers.mk (Some "1215215") (Some "scriptrunner").
Proof. reflexivity. Qed.
Example ex_ids2 :
  extractAddonIdentifiers plainPathname
    "https://marketplace.example.com/vendors/1215215/scriptrunner"
  = Identifiers.mk None None.
Proof. reflexivity. Qed.
Example ex_ids3 :
  extractAddonIdentifiers plainPathname
    "https://marketplace.example.com/apps/1215215/version-history?x=1"
  = Identifiers.mk (Some "1215215") None.
Proof. reflexivity. Qed.
Example ex_url1 :
  normalizeVersionHistoryUrl "https://marketplace.example.com/apps/1/foo/"
  = "https://marketplace.example.com/apps/1/foo/version-history?versionHistoryHosting=dataCenter".
Proof. reflexivity. Qed.
Example ex_url2 :
  normalizeVersionHistoryUrl
    "https://marketplace.example.com/apps/1/foo/version-history?versionHistoryHosting=cloud"
  = "https://marketplace.example.com/apps/1/foo/version-history?versionHistoryHosting=dataCenter".
Proof. reflexivity. Qed.
Example ex_url3 :
  normalizeVersionHistoryUrl
    "https://marketplace.example.com/apps/1/foo?hosting=datacenter&tab=overview"
  = "https://marketplace.example.com/apps/1/foo?hosting=datacenter&tab=overview/version-history?versionHistoryHosting=dataCenter".
Proof. reflexivity. Qed.

Example ex_build :
  exists r, buildResult pluginExample rawExample (Some "8.5") "rest-api" = Ok r /\
    PluginResult.recommendedVersion r = Some "3.0" /\
    PluginResult.compatibleVersionRange r = Some "2.0 - 3.0" /\
    PluginResult.compatible r = Some false /\
    map Entry.pluginVersion (PluginResult.compatibleVersions r) = ["3.0"; "2.0"].
Proof. eexists. split; [reflexivity|]. repeat split. Qed.

(* ===================================================================== *)
(** ** The order on strings *)
(* ===================================================================== *)

Section StringOrder.

Lemma ascii_compare_refl (c : ascii) : Ascii.compare c c = Eq.
Proof. unfold Ascii.compare. apply N.compare_refl. Qed.

Lemma ascii_compare_lt_trans (a b c : ascii) :
  Ascii.compare a b = Lt -> Ascii.compare b c = Lt -> Ascii.compare a c = Lt.
Proof.
  unfold Ascii.compare. rewrite !N.compare_lt_iff. apply N.lt_trans.
Qed.

Lemma string_compare_refl (s : string) : String.compare s s = Eq.
Proof.
  induction s as [|c s IH]; simpl; [reflexivity|].
  now rewrite ascii_compare_refl.
Qed.

Lemma string_compare_eq (s t : string) : String.compare s t = Eq <-> s = t.
Proof.
  split; [apply String.compare_eq_iff|intros ->; apply string_compare_refl].
Qed.

Lemma string_compare_lt_trans (s t u : string) :
  String.compare s t = Lt -> String.compare t u = Lt ->
  String.compare s u = Lt.
Proof.
  revert t u; induction s as [|a s IH]; intros [|b t] [|c u]; simpl;
    try congruence.
  destruct (Ascii.compare a b) eqn:Eab; try discriminate;
    destruct (Ascii.compare b c) eqn:Ebc; try discriminate; intros H1 H2.
  - apply Ascii.compare_eq_iff in Eab, Ebc; subst.
    rewrite ascii_compare_refl. eauto.
  - apply Ascii.compare_eq_iff in Eab; subst. now rewrite Ebc.
  - apply Ascii.compare_eq_iff in Ebc; subst. now rewrite Eab.
  - now rewrite (ascii_compare_lt_trans a b c).
Qed.

Lemma string_compare_gt_lt (s t : string) :
  String.compare s t = Gt <-> String.compare t s = Lt.
Proof.
  rewrite (String.compare_antisym s t).
  destruct (String.compare t s); simpl; split; congruence.
Qed.

Lemma string_compare_empty (s : string) :
  s <> "" -> String.compare "" s = Lt.
Proof. destruct s; simpl; congruence. Qed.

End StringOrder.

(* ===================================================================== *)
(** ** The order on segments and on parsed versions *)
(* ===================================================================== *)

Section SegmentOrder.

Lemma compareSegments_sign (sa sb : Segment) :
  compareSegments sa sb = sign (segmentOrder sa sb).
Proof.
  unfold compareSegments, segmentOrder.
  destruct (N.eqb_spec (num sa) (num sb)) as [E|NE]; simpl.
  - rewrite E, N.compare_refl.
    destruct (String.eqb_spec (alpha sa) (alpha sb)) as [Ea|Na].
    + now rewrite Ea, string_compare_refl.
    + destruct (String.eqb_spec (alpha sa) "") as [E1|N1].
      * rewrite E1 in *. rewrite string_compare_empty; auto.
      * destruct (String.eqb_spec (alpha sb) "") as [E2|N2].
        -- rewrite E2 in *.
           assert (String.compare (alpha sa) "" = Gt) as ->; [|reflexivity].
           apply string_compare_gt_lt, string_compare_empty; auto.
        -- unfold String.ltb.
           destruct (String.compare (alpha sa) (alpha sb)) eqn:C;
             try reflexivity.
           apply string_compare_eq in C. contradiction.
  - destruct (N.ltb_spec (num sa) (num sb)) as [L|G].
    + apply N.compare_lt_iff in L. now rewrite L.
    + assert (num sb < num sa)%N as L by lia.
      apply N.compare_gt_iff in L. now rewrite L.
Qed.

Lemma segmentOrder_refl (s : Segment) : segmentOrder s s = Eq.
Proof.
  unfold segmentOrder. now rewrite N.compare_refl, string_compare_refl.
Qed.

Lemma segmentOrder_eq (sa sb : Segment) :
  segmentOrder sa sb = Eq <-> sa = sb.
Proof.
  split; [|intros ->; apply segmentOrder_refl].
  unfold segmentOrder. destruct sa as [n a], sb as [m b]; simpl.
  destruct (N.compare n m) eqn:C; try discriminate.
  apply N.compare_eq_iff in C. intros H%string_compare_eq. congruence.
Qed.

Lemma segmentOrder_antisym (sa sb : Segment) :
  segmentOrder sb sa = CompOpp (segmentOrder sa sb).
Proof.
  unfold segmentOrder. rewrite (N.compare_antisym (num sa) (num sb)).
  destruct (N.compare (num sa) (num sb)); simpl; auto.
  apply String.compare_antisym.
Qed.

Lemma segmentOrder_lt_trans (sa sb sc : Segment) :
  segmentOrder sa sb = Lt -> segmentOrder sb sc = Lt ->
  segmentOrder sa sc = Lt.
Proof.
  unfold segmentOrder.
  destruct (N.compare_spec (num sa) (num sb)) as [E1|L1|G1];
    try discriminate;
    destruct (N.compare_spec (num sb) (num sc)) as [E2|L2|G2];
    try discriminate; intros H1 H2.
  - rewrite E1, E2, N.compare_refl. eapply string_compare_lt_trans; eauto.
  - rewrite E1. apply N.compare_lt_iff in L2. now rewrite L2.
  - rewrite <- E2. apply N.compare_lt_iff in L1. now rewrite L1.
  - assert (num sa < num sc)%N as L by lia.
    apply N.compare_lt_iff in L. now rewrite L.
Qed.

Lemma sign_opp (c : comparison) : sign (CompOpp c) = (- sign c)%Z.
Proof. now destruct c. Qed.

Lemma sign_range (c : comparison) : (-1 <= sign c <= 1)%Z.
Proof. destruct c; simpl; lia. Qed.

End SegmentOrder.

Section ParsedOrder.

Lemma compareFrom_range sa sb i n : (-1 <= compareFrom sa sb i n <= 1)%Z.
Proof.
  revert i; induction n as [|n IH]; intros i; simpl; [lia|].
  destruct (Z.eqb_spec (compareSegments (nth i sa pad) (nth i sb pad)) 0);
    simpl; auto.
  rewrite compareSegments_sign. apply sign_range.
Qed.

Lemma compareFrom_antisym sa sb i n :
  compareFrom sb sa i n = (- compareFrom sa sb i n)%Z.
Proof.
  revert i; induction n as [|n IH]; intros i; simpl; [reflexivity|].
  rewrite (compareSegments_sign (nth i sb pad)), segmentOrder_antisym,
    sign_opp, <- compareSegments_sign.
  destruct (Z.eqb_spec (compareSegments (nth i sa pad) (nth i sb pad)) 0)
    as [E|NE].
  - rewrite E; simpl. apply IH.
  - destruct (Z.eqb_spec (- compareSegments (nth i sa pad) (nth i sb pad)) 0);
      simpl; [lia|reflexivity].
Qed.

Lemma compareFrom_refl sa i n : compareFrom sa sa i n = 0%Z.
Proof.
  revert i; induction n as [|n IH]; intros i; simpl; [reflexivity|].
  rewrite compareSegments_sign, segmentOrder_refl. simpl. apply IH.
Qed.

(** Iterations past the end of both versions compare pad with pad. *)
Lemma compareFrom_past sa sb i n :
  List.length sa <= i -> List.length sb <= i -> compareFrom sa sb i n = 0%Z.
Proof.
  revert i; induction n as [|n IH]; intros i Ha Hb; simpl; [reflexivity|].
  rewrite !nth_overflow by assumption. simpl. apply IH; lia.
Qed.

Lemma compareFrom_more sa sb i n k :
  List.length sa <= i + n -> List.length sb <= i + n ->
  compareFrom sa sb i (n + k) = compareFrom sa sb i n.
Proof.
  revert i; induction n as [|n IH]; intros i Ha Hb; simpl.
  - apply compareFrom_past; lia.
  - destruct (negb _); [reflexivity|]. apply IH; lia.
Qed.

Lemma compareParsed_upto sa sb n :
  List.length sa <= n -> List.length sb <= n ->
  compareParsed sa sb = compareFrom sa sb 0 n.
Proof.
  intros Ha Hb. unfold compareParsed.
  set (m := Nat.max (List.length sa) (List.length sb)).
  replace n with (m + (n - m)) by lia.
  symmetry. apply compareFrom_more; lia.
Qed.

Lemma compareFrom_trans sa sb sc i n :
  (compareFrom sa sb i n <= 0)%Z -> (compareFrom sb sc i n <= 0)%Z ->
  (compareFrom sa sc i n <= 0)%Z.
Proof.
  revert i; induction n as [|n IH]; intros i; simpl; [lia|].
  rewrite !compareSegments_sign.
  destruct (segmentOrder (nth i sa pad) (nth i sb pad)) eqn:Eab; simpl;
    try lia.
  - apply segmentOrder_eq in Eab. rewrite Eab.
    destruct (segmentOrder (nth i sb pad) (nth i sc pad)); simpl;
      auto; lia.
  - destruct (segmentOrder (nth i sb pad) (nth i sc pad)) eqn:Ebc; simpl;
      try lia; intros _ _.
    + apply segmentOrder_eq in Ebc. rewrite <- Ebc, Eab. simpl. lia.
    + rewrite (segmentOrder_lt_trans _ _ _ Eab Ebc). simpl. lia.
Qed.

Lemma compareParsed_range sa sb : (-1 <= compareParsed sa sb <= 1)%Z.
Proof. apply compareFrom_range. Qed.

Lemma compareParsed_antisym sa sb :
  compareParsed sb sa = (- compareParsed sa sb)%Z.
Proof.
  unfold compareParsed. rewrite (Nat.max_comm (List.length sb)).
  apply compareFrom_antisym.
Qed.

Lemma compareParsed_refl sa : compareParsed sa sa = 0%Z.
Proof. apply compareFrom_refl. Qed.

Lemma compareParsed_trans sa sb sc :
  (compareParsed sa sb <= 0)%Z -> (compareParsed sb sc <= 0)%Z ->
  (compareParsed sa sc <= 0)%Z.
Proof.
  set (n := Nat.max (List.length sa)
              (Nat.max (List.length sb) (List.length sc))).
  rewrite (compareParsed_upto sa sb n), (compareParsed_upto sb sc n),
    (compareParsed_upto sa sc n) by lia.
  apply compareFrom_trans.
Qed.

End ParsedOrder.

Section ComparatorOrder.

Lemma compareVersions_parsed a b sa sb :
  parseVersion a = Ok sa -> parseVersion b = Ok sb ->
  compareVersions a b = Ok (compareParsed sa sb).
Proof. unfold compareVersions. now intros -> ->. Qed.

Lemma compareVersions_Ok_inv a b z :
  compareVersions a b = Ok z ->
  exists sa sb, parseVersion a = Ok sa /\ parseVersion b = Ok sb /\
                z = compareParsed sa sb.
Proof.
  unfold compareVersions.
  destruct (parseVersion a) as [sa|]; simpl; [|discriminate].
  destruct (parseVersion b) as [sb|]; simpl; [|discriminate].
  intros [= <-]. eauto.
Qed.

(** The comparator returns exactly on pairs of comparable strings. *)
Lemma compareVersions_returns a b :
  (exists z, compareVersions a b = Ok z) <-> comparable a /\ comparable b.
Proof.
  split.
  - intros [z (sa & sb & Ha & Hb & _)%compareVersions_Ok_inv].
    split; eexists; eauto.
  - intros [[sa Ha] [sb Hb]]. eexists.
    eapply compareVersions_parsed; eauto.
Qed.

Lemma compareVersions_range a b z :
  compareVersions a b = Ok z -> z = (-1)%Z \/ z = 0%Z \/ z = 1%Z.
Proof.
  intros (sa & sb & _ & _ & ->)%compareVersions_Ok_inv.
  pose proof (compareParsed_range sa sb). lia.
Qed.

Lemma compareVersions_antisym a b z :
  compareVersions a b = Ok z -> compareVersions b a = Ok (- z)%Z.
Proof.
  intros (sa & sb & Ha & Hb & ->)%compareVersions_Ok_inv.
  rewrite (compareVersions_parsed b a sb sa Hb Ha).
  now rewrite compareParsed_antisym.
Qed.

Lemma compareVersions_refl a : comparable a -> compareVersions a a = Ok 0%Z.
Proof.
  intros [sa Ha]. rewrite (compareVersions_parsed a a sa sa Ha Ha).
  now rewrite compareParsed_refl.
Qed.

Lemma compareVersions_trans a b c x y :
  compareVersions a b = Ok x -> compareVersions b c = Ok y ->
  (x <= 0)%Z -> (y <= 0)%Z ->
  exists z, compareVersions a c = Ok z /\ (z <= 0)%Z.
Proof.
  intros (sa & sb & Ha & Hb & ->)%compareVersions_Ok_inv
         (sb' & sc & Hb' & Hc & ->)%compareVersions_Ok_inv Hx Hy.
  rewrite Hb in Hb'. injection Hb' as <-.
  exists (compareParsed sa sc). split.
  - now apply compareVersions_parsed.
  - eapply compareParsed_trans; eauto.
Qed.

End ComparatorOrder.

(* ===================================================================== *)
(** ** Which strings are comparable *)
(* ===================================================================== *)

Section Comparable.

Variable p : ascii -> bool.

Lemma anyChar_trimStart s : anyChar p s = false -> anyChar p (trimStart s) = false.
Proof.
  induction s as [|c s IH]; simpl; [auto|].
  intros [Hc Hs]%orb_false_iff. destruct (isSpace c); simpl; auto.
  now rewrite Hc.
Qed.

Lemma anyChar_trimEnd s : anyChar p s = false -> anyChar p (trimEnd s) = false.
Proof.
  induction s as [|c s IH]; simpl; [auto|].
  intros [Hc Hs]%orb_false_iff.
  destruct (isSpace c && (trimEnd s =? "")); simpl; auto.
  rewrite Hc; simpl; auto.
Qed.

Lemma anyChar_trim s : anyChar p s = false -> anyChar p (trim s) = false.
Proof. intros H. now apply anyChar_trimEnd, anyChar_trimStart. Qed.

Lemma anyChar_split sep s :
  anyChar p s = false ->
  Forall (fun piece => anyChar p piece = false) (split sep s).
Proof.
  induction s as [|c s IH]; simpl; [repeat constructor|].
  intros [Hc Hs]%orb_false_iff. specialize (IH Hs).
  destruct (c =? sep)%char; [constructor; auto|].
  destruct (split sep s) as [|piece rest].
  - repeat constructor. simpl. now rewrite Hc.
  - inversion IH; subst. constructor; auto. simpl. now rewrite Hc.
Qed.

Lemma anyChar_spanDigits s :
  anyChar p s = false -> anyChar p (snd (spanDigits s)) = false.
Proof.
  induction s as [|c s IH]; simpl; [auto|].
  intros [Hc Hs]%orb_false_iff. destruct (isDigit c).
  - destruct (spanDigits s); simpl in *; auto.
  - simpl. now rewrite Hc.
Qed.

End Comparable.

Lemma lowerChar_lineTerminator c :
  isLineTerminator (lowerChar c) = isLineTerminator c.
Proof.
  destruct c as [[] [] [] [] [] [] [] []]; reflexivity.
Qed.

Lemma anyChar_toLowerCase s :
  anyChar isLineTerminator (toLowerCase s) = anyChar isLineTerminator s.
Proof.
  induction s as [|c s IH]; simpl; [reflexivity|].
  now rewrite lowerChar_lineTerminator, IH.
Qed.

Lemma parseSegment_singleLine seg :
  anyChar isLineTerminator seg = false -> exists sg, parseSegment seg = Ok sg.
Proof.
  intros H. unfold parseSegment.
  pose proof (anyChar_spanDigits isLineTerminator (toLowerCase (trim seg))) as R.
  rewrite anyChar_toLowerCase in R.
  specialize (R (anyChar_trim _ _ H)).
  destruct (spanDigits (toLowerCase (trim seg))) as [d r]; simpl in R.
  rewrite R. eauto.
Qed.

Lemma mapR_Forall {A B} (f : A -> Result B) l :
  Forall (fun x => exists y, f x = Ok y) l -> exists ys, mapR f l = Ok ys.
Proof.
  induction 1 as [|x l [y Hy] _ [ys IH]]; simpl; [eauto|].
  rewrite Hy; simpl. rewrite IH; simpl. eauto.
Qed.

(** Every string without line terminators is comparable. *)
Lemma singleLine_comparable s : singleLine s = true -> comparable s.
Proof.
  unfold singleLine, comparable, parseVersion. intros H%negb_true_iff.
  destruct (truthy s); simpl; [|eauto].
  apply mapR_Forall.
  eapply Forall_impl; [|apply anyChar_split, anyChar_trim, H].
  intros seg. apply parseSegment_singleLine.
Qed.

(** A string of letters, digits and dots has no line terminator. *)
Lemma tokenChars_singleLine s :
  allChars isTokenChar s = true -> singleLine s = true.
Proof.
  unfold singleLine. induction s as [|c s IH]; simpl; [reflexivity|].
  intros [Hc Hs]%andb_true_iff. specialize (IH Hs).
  apply negb_true_iff in IH. rewrite IH, orb_false_r.
  apply negb_true_iff. revert Hc. clear.
  destruct c as [[] [] [] [] [] [] [] []]; vm_compute; congruence.
Qed.

(* ===================================================================== *)
(** ** The tokens of a compatibility string *)
(* ===================================================================== *)

Section Tokens.

Lemma tokenTail_chars dotted s tok :
  tokenTail dotted s = Some tok -> allChars isTokenChar tok = true.
Proof.
  revert dotted tok; induction s as [|c s IH]; intros dotted tok; simpl.
  - destruct dotted; [intros [= <-]; reflexivity|discriminate].
  - destruct (isAlnum c) eqn:Ec.
    + destruct (tokenTail dotted s) as [u|] eqn:Eu; simpl; [|discriminate].
      intros [= <-]. simpl. unfold isTokenChar at 1. rewrite Ec. simpl. eauto.
    + destruct (Ascii.eqb_spec c "."%char) as [->|]; simpl.
      * destruct (startsAlnum s).
        -- destruct (tokenTail true s) as [u|] eqn:Eu; simpl; [|discriminate].
           intros [= <-]. simpl. eauto.
        -- destruct dotted; [intros [= <-]; reflexivity|discriminate].
      * destruct dotted; [intros [= <-]; reflexivity|discriminate].
Qed.

Lemma matchToken_chars s tok :
  matchToken s = Some tok -> allChars isTokenChar tok = true.
Proof.
  destruct s as [|c s]; simpl; [discriminate|].
  assert (forall u, isAlnum c = true ->
            option_map (String c) (tokenTail false s) = Some u ->
            allChars isTokenChar u = true) as K.
  { intros u Hc. destruct (tokenTail false s) as [v|] eqn:Ev; simpl;
      [|discriminate].
    intros [= <-]. simpl. unfold isTokenChar at 1. rewrite Hc. simpl.
    eapply tokenTail_chars; eauto. }
  unfold isAlnum in K.
  destruct (isDigit c); [apply K; reflexivity|].
  destruct (isLetter c); [apply K; reflexivity|discriminate].
Qed.

Lemma matchAll_chars skip s :
  Forall (fun tok => allChars isTokenChar tok = true) (matchAll skip s).
Proof.
  revert skip; induction s as [|c s IH]; intros skip; cbn [matchAll];
    [constructor|].
  destruct skip; [|apply IH].
  destruct (matchToken (String c s)) as [tok|] eqn:E; [|apply IH].
  constructor; [eapply matchToken_chars; eauto|apply IH].
Qed.

Lemma extractVersionTokens_chars text :
  Forall (fun tok => allChars isTokenChar tok = true)
         (extractVersionTokens text).
Proof.
  unfold extractVersionTokens. destruct (truthy text); simpl; [|constructor].
  apply Forall_forall. intros tok [Hin _]%filter_In.
  pose proof (matchAll_chars 0 text) as H.
  rewrite Forall_forall in H. auto.
Qed.

(** Every token is comparable. *)
Lemma extractVersionTokens_comparable text tok :
  In tok (extractVersionTokens text) -> comparable tok.
Proof.
  intros Hin. apply singleLine_comparable, tokenChars_singleLine.
  pose proof (extractVersionTokens_chars text) as H.
  rewrite Forall_forall in H. auto.
Qed.

End Tokens.

(* ===================================================================== *)
(** ** Sorting with a comparator that can throw *)
(* ===================================================================== *)

Section SortBy.

Context {A : Type}.
Variable cmp : A -> A -> Result Z.

Lemma insertBy_perm x l r : insertBy cmp x l = Ok r -> Permutation (x :: l) r.
Proof.
  revert r; induction l as [|y l IH]; intros r; simpl.
  - intros [= <-]. apply Permutation_refl.
  - destruct (cmp x y) as [c|]; simpl; [|discriminate].
    destruct (c <=? 0)%Z; [intros [= <-]; apply Permutation_refl|].
    destruct (insertBy cmp x l) as [r'|]; simpl; [|discriminate].
    intros [= <-]. rewrite perm_swap. constructor. now apply IH.
Qed.

Lemma sortBy_perm l r : sortBy cmp l = Ok r -> Permutation l r.
Proof.
  revert r; induction l as [|x l IH]; intros r; simpl.
  - intros [= <-]. constructor.
  - destruct (sortBy cmp l) as [s|]; simpl; [|discriminate].
    intros H%insertBy_perm. rewrite <- H. constructor. now apply IH.
Qed.

Lemma sortBy_length l r : sortBy cmp l = Ok r -> List.length r = List.length l.
Proof. intros H%sortBy_perm. symmetry. now apply Permutation_length. Qed.

(** A sort of two or more elements has compared each of them. *)
Lemma insertBy_compared x l r :
  insertBy cmp x l = Ok r -> l <> [] -> exists y c, cmp x y = Ok c.
Proof.
  destruct l as [|y l]; [congruence|]. simpl.
  destruct (cmp x y) as [c|] eqn:E; simpl; [|discriminate].
  intros _ _. now exists y, c.
Qed.

Lemma last_In (l : list A) d : l <> [] -> In (last l d) l.
Proof.
  induction l as [|x l IH]; [congruence|]. intros _.
  destruct l as [|y l]; [left; reflexivity|].
  right. apply IH. congruence.
Qed.

Hypothesis cmp_antisym :
  forall x y c, cmp x y = Ok c -> cmp y x = Ok (- c)%Z.
Hypothesis cmp_trans :
  forall x y z c1 c2, cmp x y = Ok c1 -> cmp y z = Ok c2 ->
    (c1 <= 0)%Z -> (c2 <= 0)%Z -> (notAfter cmp) x z.

Lemma insertBy_sorted x l r :
  StronglySorted (notAfter cmp) l -> insertBy cmp x l = Ok r ->
  StronglySorted (notAfter cmp) r.
Proof.
  intros Hs; revert r; induction Hs as [|y l Hs IH Hy]; intros r; simpl.
  - intros [= <-]. repeat constructor.
  - destruct (cmp x y) as [c|] eqn:Exy; simpl; [|discriminate].
    destruct (Z.leb_spec c 0) as [Hc|Hc].
    + intros [= <-]. constructor; [constructor; auto|].
      constructor; [exists c; auto|].
      rewrite Forall_forall in *. intros z Hz.
      destruct (Hy z Hz) as (c2 & E2 & H2). eauto.
    + destruct (insertBy cmp x l) as [r'|] eqn:Er; simpl; [|discriminate].
      intros [= <-]. constructor; [eauto|].
      apply insertBy_perm in Er.
      rewrite Forall_forall in *. intros z Hz.
      eapply Permutation_in in Hz; [|symmetry; exact Er].
      destruct Hz as [<-|Hz]; [|auto].
      exists (- c)%Z. split; [auto|lia].
Qed.

Lemma sortBy_sorted l r : sortBy cmp l = Ok r -> StronglySorted (notAfter cmp) r.
Proof.
  revert r; induction l as [|x l IH]; intros r; simpl.
  - intros [= <-]. constructor.
  - destruct (sortBy cmp l) as [s|]; simpl; [|discriminate].
    apply insertBy_sorted. auto.
Qed.

(** In a sorted list the first element is not after any later one, and no
    earlier element is after the last. *)
Lemma sorted_first x l y :
  StronglySorted (notAfter cmp) (x :: l) -> In y l -> (notAfter cmp) x y.
Proof.
  intros H Hin. inversion H as [|? ? _ Hall]; subst.
  rewrite Forall_forall in Hall. auto.
Qed.

Lemma sorted_last l d y :
  StronglySorted (notAfter cmp) l -> In y (removelast l) -> (notAfter cmp) y (last l d).
Proof.
  induction 1 as [|x l Hs IH Hx]; simpl; [tauto|].
  destruct l as [|z l]; [simpl; tauto|].
  intros [<-|Hin].
  - rewrite Forall_forall in Hx. apply Hx.
    apply (last_In (z :: l)). congruence.
  - apply IH, Hin.
Qed.

End SortBy.

(* ===================================================================== *)
(** ** Properties of the compatibility-string parser *)
(* ===================================================================== *)

Section ParserProperties.

Lemma comparable_pair a b :
  comparable a -> comparable b -> exists c, compareVersions a b = Ok c.
Proof. intros Ha Hb. apply compareVersions_returns. auto. Qed.

Lemma versionLe_refl a : comparable a -> versionLe a a.
Proof.
  intros H. exists 0%Z. split; [now apply compareVersions_refl|lia].
Qed.

Lemma versionLe_trans a b c : versionLe a b -> versionLe b c -> versionLe a c.
Proof.
  intros (x & Hx & Lx) (y & Hy & Ly).
  eapply compareVersions_trans; eauto.
Qed.

Lemma versionLe_comparable a b : versionLe a b -> comparable a /\ comparable b.
Proof. intros (c & H & _). apply compareVersions_returns. eauto. Qed.

(** The parser returns on every text, and the bounds it returns are
    ordered. *)
Lemma parseCompatibilityString_returns text :
  exists r, parseCompatibilityString text = Ok r /\
    match Parsed.minVersion r, Parsed.maxVersion r with
    | Some lo, Some hi => versionLe lo hi
    | None, None => True
    | _, _ => False
    end.
Proof.
  unfold parseCompatibilityString.
  destruct (truthy (trim (orEmpty text))); simpl; [|eexists; split; eauto; exact I].
  pose proof (extractVersionTokens_comparable (trim (orEmpty text))) as Hc.
  destruct (extractVersionTokens (trim (orEmpty text))) as [|t0 [|t1 rest]].
  - eexists; split; eauto. exact I.
  - eexists; split; eauto. simpl. apply versionLe_refl, Hc. now left.
  - set (tokens := t0 :: t1 :: rest) in *.
    assert (comparable t0) as H0 by (apply Hc; now left).
    assert (comparable (last tokens "")) as H1.
    { apply Hc. apply last_In. discriminate. }
    destruct (comparable_pair _ _ H0 H1) as [c Ec]. rewrite Ec. simpl.
    destruct (Z.gtb_spec c 0) as [G|L]; eexists; (split; [reflexivity|]); simpl.
    + exists (- c)%Z. split; [now apply compareVersions_antisym|lia].
    + exists c. auto.
Qed.

End ParserProperties.

(* ===================================================================== *)
(** ** Properties of the result builder *)
(* ===================================================================== *)

Section BuilderProperties.

Lemma someR_true_iff {A} (f : A -> Result bool) l b :
  someR f l = Ok b -> (b = true <-> exists x, In x l /\ f x = Ok true).
Proof.
  revert b; induction l as [|x l IH]; intros b; simpl.
  - intros [= <-]. split; [discriminate|intros (? & [] & _)].
  - destruct (f x) as [[|]|] eqn:E; simpl; try discriminate.
    + intros [= <-]. split; eauto.
    + intros H. rewrite (IH b H). split.
      * intros (y & Hy & Ey). eauto.
      * intros (y & [<-|Hy] & Ey); [congruence|eauto].
Qed.

Lemma keepCompatible_filter target rawVersions kept :
  keepCompatible target rawVersions = Ok kept ->
  kept = map entryOf (filter (covers target) rawVersions).
Proof.
  revert kept; induction rawVersions as [|v rest IH]; intros kept;
    cbn [keepCompatible filter].
  - now intros [= <-].
  - destruct (resolveBounds v) as [[lo hi]|e] eqn:Eb; cbn [bind];
      [|intros H; discriminate H].
    assert (covers target v =
              truthyO lo && truthyO hi &&
              match isVersionInRange target lo hi with
              | Ok b => b | Throw _ => false end) as Hc
      by (unfold covers; now rewrite Eb).
    assert (entryOf v = toEntry v (orEmpty lo) (orEmpty hi)) as He
      by (unfold entryOf; now rewrite Eb).
    rewrite Hc.
    destruct (truthyO lo), (truthyO hi); simpl; auto.
    destruct (isVersionInRange target lo hi) as [inRange|]; simpl;
      [|intros H; discriminate H].
    destruct (keepCompatible target rest) as [k|]; simpl;
      [|intros H; discriminate H].
    intros [= <-]. rewrite (IH k eq_refl).
    destruct inRange; simpl; now rewrite ?He.
Qed.

Lemma descending_antisym x y c :
  descending x y = Ok c -> descending y x = Ok (- c)%Z.
Proof. apply compareVersions_antisym. Qed.

Lemma descending_trans x y z c1 c2 :
  descending x y = Ok c1 -> descending y z = Ok c2 ->
  (c1 <= 0)%Z -> (c2 <= 0)%Z -> notAfter descending x z.
Proof.
  unfold descending, notAfter. intros H1 H2 L1 L2.
  eapply compareVersions_trans; eauto.
Qed.

Lemma ascending_antisym x y c :
  ascending x y = Ok c -> ascending y x = Ok (- c)%Z.
Proof. apply compareVersions_antisym. Qed.

Lemma ascending_trans x y z c1 c2 :
  ascending x y = Ok c1 -> ascending y z = Ok c2 ->
  (c1 <= 0)%Z -> (c2 <= 0)%Z -> notAfter ascending x z.
Proof.
  unfold ascending, notAfter. intros H1 H2 L1 L2.
  eapply compareVersions_trans; eauto.
Qed.

(** A sort of two or more entries that returns has parsed every version. *)
Lemma sortBy_descending_comparable l r :
  sortBy descending l = Ok r -> 2 <= List.length l ->
  Forall (fun cv => comparable (Entry.pluginVersion cv)) l.
Proof.
  revert r; induction l as [|x l IH]; intros r; simpl; [lia|].
  destruct (sortBy descending l) as [s|] eqn:Es; simpl; [|discriminate].
  intros Hins Hlen.
  assert (s <> []) as Hs.
  { intros ->. apply sortBy_length in Es. simpl in Es. lia. }
  destruct (insertBy_compared _ _ _ _ Hins Hs) as (y & c & Exy).
  assert (exists z, compareVersions (Entry.pluginVersion y) (Entry.pluginVersion x) = Ok z)
    as [Hy Hx]%compareVersions_returns by eauto.
  constructor; [assumption|].
  destruct l as [|z [|z' l']].
  - simpl in Hlen; lia.
  - simpl in Es. injection Es as <-. simpl in Hins.
    unfold descending at 1 in Hins.
    destruct (compareVersions (Entry.pluginVersion z) (Entry.pluginVersion x))
      as [c'|] eqn:E'; [|discriminate].
    assert (exists z0, compareVersions (Entry.pluginVersion z) (Entry.pluginVersion x) = Ok z0)
      as [Hz _]%compareVersions_returns by eauto.
    repeat constructor. assumption.
  - eapply IH; eauto. simpl. lia.
Qed.

Lemma lastVersion_last l d :
  l <> [] -> lastVersion l = Entry.pluginVersion (last l d).
Proof.
  unfold lastVersion. induction l as [|x l IH]; [congruence|]. intros _.
  destruct l as [|y l]; [reflexivity|].
  change (last (map Entry.pluginVersion (x :: y :: l)) "")
    with (last (map Entry.pluginVersion (y :: l)) "").
  change (last (x :: y :: l) d) with (last (y :: l) d).
  apply IH. discriminate.
Qed.

Lemma in_removelast_or_last {A} (l : list A) d y :
  In y l -> In y (removelast l) \/ y = last l d.
Proof.
  induction l as [|x l IH]; [intros []|].
  destruct l as [|z l]; [intros [<-|[]]; now right|].
  intros [<-|Hin]; [left; now left|].
  destruct (IH Hin) as [H|H]; [left; now right|now right].
Qed.

End BuilderProperties.

Section BuilderSpec.

Variables (plugin : Plugin.t) (rawVersions : list Raw.t)
          (target : option string) (fetchMethod : string).

(** When [buildResult] returns, every kept version has been parsed. *)
Lemma kept_comparable pushed b cvs :
  someR (sameAsCurrent (Plugin.currentVersion plugin)) pushed = Ok b ->
  sortBy descending pushed = Ok cvs ->
  Forall (fun cv => comparable (Entry.pluginVersion cv)) pushed.
Proof.
  intros Hsome Hsort.
  destruct pushed as [|e [|e' l]].
  - constructor.
  - simpl in Hsome. unfold sameAsCurrent at 1 in Hsome.
    destruct (compareVersions (Entry.pluginVersion e)
                (Plugin.currentVersion plugin)) as [c|] eqn:E;
      [|discriminate].
    assert (exists z, compareVersions (Entry.pluginVersion e)
                        (Plugin.currentVersion plugin) = Ok z)
      as [He _]%compareVersions_returns by eauto.
    repeat constructor. assumption.
  - eapply sortBy_descending_comparable; eauto. simpl. lia.
Qed.

Lemma buildResult_spec r :
  buildResult plugin rawVersions target fetchMethod = Ok r ->
  Permutation (keptEntries rawVersions target) (PluginResult.compatibleVersions r) /\
  (exists b, PluginResult.compatible r = Some b /\
     (b = true <->
      exists cv, In cv (PluginResult.compatibleVersions r) /\
        compareVersions (Entry.pluginVersion cv)
          (Plugin.currentVersion plugin) = Ok 0%Z)) /\
  match (keptEntries rawVersions target) with
  | [] => PluginResult.recommendedVersion r = None /\
          PluginResult.compatibleVersionRange r = None
  | _ :: _ =>
      exists top lo hi,
        In top (keptEntries rawVersions target) /\ In lo (keptEntries rawVersions target) /\ In hi (keptEntries rawVersions target) /\
        (forall cv, In cv (keptEntries rawVersions target) ->
           versionLe (Entry.pluginVersion cv) (Entry.pluginVersion top) /\
           versionLe (Entry.pluginVersion lo) (Entry.pluginVersion cv) /\
           versionLe (Entry.pluginVersion cv) (Entry.pluginVersion hi)) /\
        PluginResult.recommendedVersion r = Some (Entry.pluginVersion top) /\
        PluginResult.compatibleVersionRange r =
          Some (if (Entry.pluginVersion lo =? Entry.pluginVersion hi)
                then Entry.pluginVersion lo
                else rangeText (Entry.pluginVersion lo) (Entry.pluginVersion hi))
  end.
Proof.
  unfold buildResult.
  destruct (keepCompatible target rawVersions) as [pushed|] eqn:Ek;
    cbn [bind]; [|intros H; discriminate H].
  apply keepCompatible_filter in Ek. fold (keptEntries rawVersions target) in Ek. subst pushed.
  destruct (someR _ (keptEntries rawVersions target)) as [b|] eqn:Es; cbn [bind];
    [|intros H; discriminate H].
  assert (forall cvs, Permutation (keptEntries rawVersions target) cvs ->
            (b = true <->
             exists cv, In cv cvs /\
               compareVersions (Entry.pluginVersion cv)
                 (Plugin.currentVersion plugin) = Ok 0%Z)) as Hcompat.
  { intros cvs Hp. rewrite (someR_true_iff _ _ _ Es).
    split; intros (cv & Hin & E); exists cv.
    - split; [eapply Permutation_in; eauto|].
      unfold sameAsCurrent in E.
      destruct (compareVersions _ _) as [c|]; simpl in E; [|discriminate].
      injection E as E. apply Z.eqb_eq in E. now subst.
    - split; [eapply Permutation_in; [symmetry|]; eauto|].
      unfold sameAsCurrent. now rewrite E. }
  destruct (keptEntries rawVersions target) as [|e l] eqn:Ekept.
  - simpl. intros [= <-]. simpl. split; [constructor|].
    split; [|split; reflexivity].
    exists b. split; [reflexivity|]. apply (Hcompat []). constructor.
  - change (0 <? List.length (e :: l))%nat with true. cbv iota.
    destruct (sortBy descending (e :: l)) as [cvs|] eqn:Ed; cbn [bind];
      [|intros H; discriminate H].
    pose proof (sortBy_perm _ _ _ Ed) as Pd.
    pose proof (sortBy_sorted _ descending_antisym descending_trans _ _ Ed)
      as Sd.
    pose proof (kept_comparable _ _ _ Es Ed) as Hcmp.
    rewrite Forall_forall in Hcmp.
    destruct cvs as [|top cvs'];
      [apply Permutation_length in Pd; discriminate Pd|].
    change (0 <? List.length (top :: cvs'))%nat with true. cbv iota.
    destruct (sortBy ascending (top :: cvs')) as [sorted|] eqn:Ea; cbn [bind];
      [|intros H; discriminate H].
    pose proof (sortBy_perm _ _ _ Ea) as Pa.
    pose proof (sortBy_sorted _ ascending_antisym ascending_trans _ _ Ea)
      as Sa.
    destruct sorted as [|lo sorted'];
      [apply Permutation_length in Pa; discriminate Pa|].
    intros [= <-]. cbn [PluginResult.compatibleVersions
                         PluginResult.compatible
                         PluginResult.recommendedVersion
                         PluginResult.compatibleVersionRange].
    split; [exact Pd|]. split; [exists b; split; [reflexivity|auto]|].
    set (hi := last (lo :: sorted') lo).
    assert (Permutation (e :: l) (lo :: sorted')) as Pall
      by (etransitivity; eauto).
    exists top, lo, hi. repeat split.
    + eapply Permutation_in; [symmetry; exact Pd|now left].
    + eapply Permutation_in; [symmetry; exact Pall|now left].
    + eapply Permutation_in; [symmetry; exact Pall|].
      apply last_In. discriminate.
    + eapply Permutation_in in H; [|exact Pd].
      destruct H as [<-|Hin].
      * apply versionLe_refl, Hcmp.
        eapply Permutation_in; [symmetry; exact Pd|now left].
      * exact (sorted_first descending _ _ _ Sd Hin).
    + eapply Permutation_in in H; [|exact Pall].
      destruct H as [<-|Hin].
      * apply versionLe_refl, Hcmp.
        eapply Permutation_in; [symmetry; exact Pall|now left].
      * exact (sorted_first ascending _ _ _ Sa Hin).
    + eapply Permutation_in in H; [|exact Pall].
      destruct (in_removelast_or_last _ lo _ H) as [Hin| ->].
      * exact (sorted_last ascending _ lo _ Sa Hin).
      * apply versionLe_refl, Hcmp.
        eapply Permutation_in; [symmetry; exact Pall|].
        apply last_In. discriminate.
    + rewrite (lastVersion_last (lo :: sorted') lo) by discriminate.
      reflexivity.
Qed.

End BuilderSpec.

(* ===================================================================== *)
(** ** When the result builder returns *)
(* ===================================================================== *)

Section BuilderReturns.

Lemma singleLineO_comparable o : singleLineO o = true -> comparableO o.
Proof. destruct o; simpl; [apply singleLine_comparable|trivial]. Qed.

Lemma resolveBounds_returns v :
  singleLineRaw v = true ->
  exists lo hi, resolveBounds v = Ok (lo, hi) /\
                comparableO lo /\ comparableO hi.
Proof.
  unfold singleLineRaw, resolveBounds.
  intros [[_ Hlo]%andb_true_iff Hhi]%andb_true_iff.
  destruct (negb (truthyO (Raw.minVersion v)) ||
            negb (truthyO (Raw.maxVersion v))).
  - destruct (parseCompatibilityString_returns (Raw.compatibility v))
      as (r & -> & Hr). simpl. do 2 eexists. split; [reflexivity|].
    destruct (Parsed.minVersion r), (Parsed.maxVersion r); simpl;
      try tauto.
    now apply versionLe_comparable.
  - do 2 eexists. split; [reflexivity|].
    split; now apply singleLineO_comparable.
Qed.

Lemma isVersionInRange_returns t lo hi :
  comparableO t -> comparableO lo -> comparableO hi ->
  exists b, isVersionInRange t lo hi = Ok b.
Proof.
  destruct t as [t|], lo as [lo|], hi as [hi|]; simpl; eauto.
  intros Ht Hlo Hhi.
  destruct (negb (truthy t) || negb (truthy lo) || negb (truthy hi)); eauto.
  destruct (comparable_pair _ _ Ht Hlo) as [c1 ->]. simpl.
  destruct (c1 >=? 0)%Z; eauto.
  destruct (comparable_pair _ _ Ht Hhi) as [c2 ->]. simpl. eauto.
Qed.

Lemma keepCompatible_returns target rawVersions :
  comparableO target -> forallb singleLineRaw rawVersions = true ->
  exists kept, keepCompatible target rawVersions = Ok kept.
Proof.
  intros Ht. induction rawVersions as [|v rest IH]; simpl; [eauto|].
  intros [Hv Hrest]%andb_true_iff.
  destruct (resolveBounds_returns v Hv) as (lo & hi & -> & Hlo & Hhi).
  destruct (IH Hrest) as [kept Hk]. simpl.
  destruct (negb (truthyO lo) || negb (truthyO hi)); [eauto|].
  destruct (isVersionInRange_returns target lo hi Ht Hlo Hhi) as [b ->].
  simpl. rewrite Hk. simpl. eauto.
Qed.

Lemma entryOf_version v : Entry.pluginVersion (entryOf v) = Raw.version v.
Proof. unfold entryOf. now destruct (resolveBounds v) as [[? ?]|]. Qed.

Lemma someR_returns {A} (f : A -> Result bool) l :
  Forall (fun x => exists b, f x = Ok b) l -> exists b, someR f l = Ok b.
Proof.
  induction 1 as [|x l [b Hb] _ [b' IH]]; simpl; [eauto|].
  rewrite Hb. simpl. destruct b; eauto.
Qed.

Lemma insertBy_returns {A} (cmp : A -> A -> Result Z) x l :
  Forall (fun y => exists c, cmp x y = Ok c) l ->
  exists r, insertBy cmp x l = Ok r.
Proof.
  induction 1 as [|y l [c Hc] _ [r IH]]; simpl; [eauto|].
  rewrite Hc. simpl. destruct (c <=? 0)%Z; [eauto|].
  rewrite IH. simpl. eauto.
Qed.

Lemma sortBy_returns {A} (cmp : A -> A -> Result Z) l :
  (forall x y, In x l -> In y l -> exists c, cmp x y = Ok c) ->
  exists r, sortBy cmp l = Ok r.
Proof.
  induction l as [|x l IH]; simpl; [eauto|]. intros H.
  destruct IH as [s Hs]; [intros; apply H; auto|].
  rewrite Hs. simpl. apply insertBy_returns.
  apply Forall_forall. intros y Hy. apply H; [now left|right].
  eapply Permutation_in; [symmetry; eapply sortBy_perm; eauto|exact Hy].
Qed.

(** [buildResult] returns whenever no version string it compares has a
    line terminator. *)
Lemma buildResult_returns plugin rawVersions target fetchMethod :
  singleLine (Plugin.currentVersion plugin) = true ->
  singleLineO target = true ->
  forallb singleLineRaw rawVersions = true ->
  exists r, buildResult plugin rawVersions target fetchMethod = Ok r.
Proof.
  intros Hcur%singleLine_comparable Ht%singleLineO_comparable Hraw.
  unfold buildResult.
  destruct (keepCompatible_returns target rawVersions Ht Hraw) as [kept Hk].
  rewrite Hk. cbn [bind].
  assert (forall cv, In cv kept -> comparable (Entry.pluginVersion cv)) as Hc.
  { apply keepCompatible_filter in Hk. subst kept.
    intros cv (v & <- & [Hv _]%filter_In)%in_map_iff.
    rewrite entryOf_version. rewrite forallb_forall in Hraw.
    specialize (Hraw v Hv). unfold singleLineRaw in Hraw.
    apply andb_true_iff in Hraw as [[H _]%andb_true_iff _].
    now apply singleLine_comparable. }
  destruct (someR_returns (sameAsCurrent (Plugin.currentVersion plugin)) kept)
    as [b ->].
  { apply Forall_forall. intros cv Hin. unfold sameAsCurrent.
    destruct (comparable_pair _ _ (Hc cv Hin) Hcur) as [c ->]. simpl. eauto. }
  cbn [bind].
  assert (exists cvs, sortBy descending kept = Ok cvs) as [cvs Ed].
  { apply sortBy_returns. intros x y Hx Hy. apply comparable_pair; auto. }
  assert (exists sorted, sortBy ascending cvs = Ok sorted) as [sorted Ea].
  { apply sortBy_returns. intros x y Hx Hy.
    apply sortBy_perm in Ed.
    apply comparable_pair; apply Hc;
      (eapply Permutation_in; [symmetry; exact Ed|assumption]). }
  destruct (0 <? List.length kept)%nat eqn:Elen.
  - rewrite Ed. cbn [bind]. rewrite Ea. cbn [bind].
    destruct (0 <? List.length cvs)%nat; cbn [bind]; eauto.
  - cbn [bind]. destruct kept; [simpl; eauto|discriminate Elen].
Qed.

End BuilderReturns.

(* ===================================================================== *)
(** ** Theorems: the version comparator *)
(* ===================================================================== *)

Section Padding.




End Padding.


(** C4, at the input that breaks it.  The comparator throws on a version
    with a line terminator inside a segment, in either position and against
    itself: such a string is comparable with nothing. *)
Theorem compareVersions_throws_on_line_terminator :
  compareVersions ("1" ++ LF ++ "2") "1" = Throw nullMatch /\
  compareVersions "1" ("1" ++ LF ++ "2") = Throw nullMatch /\
  compareVersions ("1" ++ LF ++ "2") ("1" ++ LF ++ "2") = Throw nullMatch.
Proof. repeat split. Qed.

(** On comparable strings the comparator is a total preorder with results
    in -1, 0, 1: it is defined, anti-symmetric in sign, zero on equal
    arguments and transitive.  Every string without a line terminator is
    comparable. *)
Lemma compareVersions_total_preorder :
  (forall a b, comparable a -> comparable b ->
     exists c, compareVersions a b = Ok c /\
               (c = (-1)%Z \/ c = 0%Z \/ c = 1%Z) /\
               compareVersions b a = Ok (- c)%Z) /\
  (forall a, comparable a -> compareVersions a a = Ok 0%Z) /\
  (forall a b c, versionLe a b -> versionLe b c -> versionLe a c) /\
  (forall a, singleLine a = true -> comparable a).
Proof.
  split; [|split; [|split]].
  - intros a b Ha Hb.
    destruct (comparable_pair a b Ha Hb) as [c Hc]. exists c.
    split; [assumption|]. split.
    + eapply compareVersions_range; eauto.
    + now apply compareVersions_antisym.
  - apply compareVersions_refl.
  - apply versionLe_trans.
  - apply singleLine_comparable.
Qed.

(* ===================================================================== *)
(** ** Theorems: the compatibility-string parser *)
(* ===================================================================== *)

(** Trimming the text does not change its tokens. *)
Section TrimTokens.

Lemma isSpace_not_token c :
  isSpace c = true ->
  isDigit c = false /\ isLetter c = false /\ (c =? ".")%char = false.
Proof.
  destruct c as [[] [] [] [] [] [] [] []]; vm_compute; intros H;
    repeat split; congruence.
Qed.

Lemma matchToken_space c s : isSpace c = true -> matchToken (String c s) = None.
Proof.
  intros (Hd & Hl & _)%isSpace_not_token. simpl. now rewrite Hd, Hl.
Qed.

Lemma matchAll_trimStart s : matchAll 0 (trimStart s) = matchAll 0 s.
Proof.
  induction s as [|c s IH]; [reflexivity|].
  cbn [trimStart]. destruct (isSpace c) eqn:Ec; [|reflexivity].
  cbn [matchAll]. now rewrite (matchToken_space c s Ec).
Qed.

(** The two shapes of [trimEnd] on a non-empty string. *)
Lemma trimEnd_cases c s :
  (isSpace c = true /\ trimEnd s = "" /\ trimEnd (String c s) = "") \/
  trimEnd (String c s) = String c (trimEnd s).
Proof.
  cbn [trimEnd]. destruct (isSpace c) eqn:Ec; [|now right].
  destruct (String.eqb_spec (trimEnd s) "") as [E|NE]; [left|right]; auto.
Qed.

Lemma startsAlnum_trimEnd s : startsAlnum (trimEnd s) = startsAlnum s.
Proof.
  destruct s as [|c s]; [reflexivity|].
  destruct (trimEnd_cases c s) as [(Ec & _ & ->)| ->]; [|reflexivity].
  apply isSpace_not_token in Ec as (Hd & Hl & _).
  simpl. unfold isAlnum. now rewrite Hd, Hl.
Qed.

Lemma tokenTail_trimEnd dotted s :
  tokenTail dotted (trimEnd s) = tokenTail dotted s.
Proof.
  revert dotted; induction s as [|c s IH]; intros dotted; [reflexivity|].
  destruct (trimEnd_cases c s) as [(Ec & _ & ->)| ->].
  - apply isSpace_not_token in Ec as (Hd & Hl & Hdot).
    simpl. unfold isAlnum. now rewrite Hd, Hl, Hdot.
  - cbn [tokenTail]. now rewrite startsAlnum_trimEnd, !IH.
Qed.

Lemma matchToken_trimEnd s : matchToken (trimEnd s) = matchToken s.
Proof.
  destruct s as [|c s]; [reflexivity|].
  destruct (trimEnd_cases c s) as [(Ec & _ & ->)| ->].
  - now rewrite matchToken_space.
  - cbn [matchToken]. now rewrite tokenTail_trimEnd.
Qed.

Lemma matchAll_trimEnd skip s : matchAll skip (trimEnd s) = matchAll skip s.
Proof.
  revert skip; induction s as [|c s IH]; intros skip; [reflexivity|].
  destruct (trimEnd_cases c s) as [(Ec & Es & E)|E].
  - rewrite E. cbn [matchAll]. destruct skip as [|k].
    + now rewrite (matchToken_space c s Ec), <- IH, Es.
    + now rewrite <- IH, Es.
  - rewrite E. cbn [matchAll]. destruct skip as [|k]; [|apply IH].
    rewrite <- E, matchToken_trimEnd.
    destruct (matchToken (String c s)); now rewrite IH.
Qed.

Lemma extractVersionTokens_trim s :
  extractVersionTokens (trim s) = extractVersionTokens s.
Proof.
  unfold extractVersionTokens, trim.
  assert (matchAll 0 (trimEnd (trimStart s)) = matchAll 0 s) as E
    by now rewrite matchAll_trimEnd, matchAll_trimStart.
  rewrite E.
  destruct (String.eqb_spec (trimEnd (trimStart s)) "") as [E0|N0];
    unfold truthy.
  - rewrite E0 in *. simpl in E. rewrite <- E. now destruct (negb (s =? "")).
  - destruct (String.eqb_spec (trimEnd (trimStart s)) ""); [contradiction|].
    destruct (String.eqb_spec s "") as [->|]; [now elim N0|reflexivity].
Qed.

End TrimTokens.

(** C6.  On every text the parser returns.  With no version token in the
    text both bounds are null; with one token both bounds are that token;
    with two or more the bounds are the first and the last token, exchanged
    when the first compares greater than the last.  The two bounds are both
    null or both present, and present bounds are ordered under the
    comparator.  The three example texts give 8.0 and 9.0, the same ordered
    pair for the reversed text, and nulls. *)
Theorem parseCompatibilityString_ordered :
  (forall text : option string,
     exists r, parseCompatibilityString text = Ok r /\
       match extractVersionTokens (orEmpty text) with
       | [] => Parsed.minVersion r = None /\ Parsed.maxVersion r = None
       | [only] =>
           Parsed.minVersion r = Some only /\ Parsed.maxVersion r = Some only
       | (first :: _ :: _) as tokens =>
           exists c, compareVersions first (last tokens "") = Ok c /\
             (Parsed.minVersion r, Parsed.maxVersion r) =
             (if (c >? 0)%Z then (Some (last tokens ""), Some first)
              else (Some first, Some (last tokens "")))
       end /\
       match Parsed.minVersion r, Parsed.maxVersion r with
       | Some lo, Some hi => versionLe lo hi
       | None, None => True
       | _, _ => False
       end) /\
  parseCompatibilityString (Some "Confluence Data Center 8.0 - 9.0") =
    Ok (Parsed.mk (Some "8.0") (Some "9.0") "Confluence Data Center 8.0 - 9.0") /\
  parseCompatibilityString (Some "9.0 - 8.0") =
    Ok (Parsed.mk (Some "8.0") (Some "9.0") "9.0 - 8.0") /\
  parseCompatibilityString (Some "no version info") =
    Ok (Parsed.mk None None "no version info").
Proof.
  split; [|repeat split].
  intros text.
  destruct (parseCompatibilityString_returns text) as (r & Hr & Hord).
  exists r. split; [assumption|]. split; [|assumption].
  clear Hord. revert Hr. unfold parseCompatibilityString.
  rewrite <- (extractVersionTokens_trim (orEmpty text)).
  destruct (truthy (trim (orEmpty text))) eqn:Et; cbn [negb].
  - destruct (extractVersionTokens (trim (orEmpty text))) as [|t0 [|t1 rest]].
    + now intros [= <-].
    + now intros [= <-].
    + destruct (compareVersions t0 (last (t0 :: t1 :: rest) "")) as [c|] eqn:Ec;
        cbn [bind]; [|intros H; discriminate H].
      intros H. exists c. split; [reflexivity|].
      destruct (c >? 0)%Z; now injection H as <-.
  - intros [= <-]. unfold truthy in Et. apply negb_false_iff in Et.
    apply String.eqb_eq in Et. rewrite Et. simpl. auto.
Qed.

(* ===================================================================== *)
(** ** Theorems: the URL helpers *)
(* ===================================================================== *)

(** C10.  Whatever the URL class makes of the input, an id that is returned
    is a non-empty string of decimal digits, and without an id no slug is
    returned; a URL whose segment after [apps] is not numeric yields neither,
    although a plausible slug follows. *)
Theorem extractAddonIdentifiers_slug_needs_id :
  (forall (pathname : string -> Result string) (marketplaceUrl : string),
     match Identifiers.id (extractAddonIdentifiers pathname marketplaceUrl) with
     | Some id => id <> "" /\ allChars isDigit id = true
     | None =>
         Identifiers.slug (extractAddonIdentifiers pathname marketplaceUrl) = None
     end) /\
  extractAddonIdentifiers plainPathname
    "https://marketplace.example.com/apps/scriptrunner/groovy-console"
  = Identifiers.mk None None.
Proof.
  split; [|reflexivity].
  intros pathname marketplaceUrl. unfold extractAddonIdentifiers.
  destruct (pathname marketplaceUrl) as [path|]; [|reflexivity].
  destruct (indexOf "apps" (filter truthy (split "/" path))) as [appsIdx|];
    [|reflexivity].
  destruct (nth_error (filter truthy (split "/" path)) (appsIdx + 1))
    as [id|]; [|reflexivity].
  cbn [truthyO orEmpty].
  destruct (truthy id) eqn:Et; [|reflexivity].
  destruct (allChars isDigit id) eqn:Ed; [|reflexivity].
  cbn [andb Identifiers.id]. split; [|exact Ed].
  intros ->. discriminate Et.
Qed.

Section NormalizedUrl.

Lemma split_head_clean sep s :
  anyChar (Ascii.eqb sep) (hd "" (split sep s)) = false.
Proof.
  induction s as [|c s IH]; [reflexivity|]. cbn [split].
  destruct (Ascii.eqb_spec c sep) as [->|NE]; [reflexivity|].
  destruct (split sep s) as [|piece rest]; simpl in *.
  - rewrite orb_false_r. apply Ascii.eqb_neq. congruence.
  - rewrite IH, orb_false_r. apply Ascii.eqb_neq. congruence.
Qed.

(** What the function does on each branch: a URL that already contains
    the segment loses everything from its first question mark; any other
    URL loses one trailing slash and keeps the rest, query string
    included. *)
Lemma normalizeVersionHistoryUrl_branches rawUrl :
  exists base,
    normalizeVersionHistoryUrl rawUrl
      = base ++ "?versionHistoryHosting=dataCenter" /\
    if includes (trim rawUrl) "/version-history"
    then base = hd "" (split "?" (trim rawUrl)) /\
         anyChar (Ascii.eqb "?") base = false
    else base = dropTrailingSlash (trim rawUrl) ++ "/version-history".
Proof.
  unfold normalizeVersionHistoryUrl.
  destruct (includes (trim rawUrl) "/version-history");
    eexists; (split; [reflexivity|]); auto using split_head_clean.
Qed.

End NormalizedUrl.

(** C9, at the inputs that break it.  A marketplace URL with a query string
    and without the version-history segment keeps its query string, and the
    segment is appended behind it; a URL whose query string mentions the
    segment loses the query string and gets no segment at all. *)
Theorem normalizeVersionHistoryUrl_keeps_query :
  normalizeVersionHistoryUrl
    "https://marketplace.atlassian.com/apps/1215215/scriptrunner?hosting=datacenter&tab=overview"
  = "https://marketplace.atlassian.com/apps/1215215/scriptrunner?hosting=datacenter&tab=overview/version-history?versionHistoryHosting=dataCenter"
  /\
  normalizeVersionHistoryUrl
    "https://marketplace.atlassian.com/apps/1215215/scriptrunner?from=/version-history"
  = "https://marketplace.atlassian.com/apps/1215215/scriptrunner?versionHistoryHosting=dataCenter".
Proof. split; reflexivity. Qed.

(* ===================================================================== *)
(** ** Theorems: the fetch orchestrator *)
(* ===================================================================== *)

Section ClientFacts.

Variable up : Upstream.

Lemma callsOf_app a b : callsOf (a ++ b) = (callsOf a ++ callsOf b)%list.
Proof. apply flat_map_app. Qed.

Lemma mapR_length {A B} (f : A -> Result B) l r :
  mapR f l = Ok r -> List.length r = List.length l.
Proof.
  revert r; induction l as [|x l IH]; intros r; simpl.
  - now intros [= <-].
  - destruct (f x); simpl; [|discriminate].
    destruct (mapR f l); simpl; [|discriminate].
    intros [= <-]. simpl. f_equal. now apply IH.
Qed.

Lemma fetchFromInitialState_facts pageUrl :
  callsOf (events (fetchFromInitialState up pageUrl)) = [InitialState] /\
  forall versions,
    outcome (fetchFromInitialState up pageUrl) = Ok versions ->
    versions <> [].
Proof.
  unfold fetchFromInitialState.
  destruct (initialState up pageUrl) as [[|v l]|e]; cbn;
    (split; [reflexivity|intros versions H; inversion H; discriminate]).
Qed.

Lemma fetchFromAPI_facts identifiers :
  callsOf (events (fetchFromAPI up identifiers)) = [RestApi] /\
  forall versions,
    outcome (fetchFromAPI up identifiers) = Ok versions -> versions <> [].
Proof.
  unfold fetchFromAPI.
  destruct (negb (truthy _)); cbn;
    [split; [reflexivity|intros versions H; discriminate H]|].
  destruct (restApi up _) as [[|v l]|e]; cbn;
    (split; [reflexivity|intros versions H; inversion H; discriminate]).
Qed.

Lemma fetchFromPuppeteer_facts pageUrl pluginName :
  callsOf (events (fetchFromPuppeteer up pageUrl pluginName)) = [Puppeteer] /\
  forall versions,
    outcome (fetchFromPuppeteer up pageUrl pluginName) = Ok versions ->
    versions <> [].
Proof.
  unfold fetchFromPuppeteer.
  destruct (renderedRows up pageUrl) as [[|v l]|e]; cbn [bindM emit liftR
    progressCallback throw ret events outcome isEmpty app callsOf flat_map];
    (split; [reflexivity|intros versions H; try discriminate H]).
  apply mapR_length in H. intros ->. discriminate H.
Qed.

End ClientFacts.

(** C3.  The orchestrator enters the clients in the order initial state,
    REST API, browser.  The first client that returns ends the run with its
    records, of which there is at least one, and no later client is entered;
    the REST client is not entered when neither an id nor a slug was
    resolved; when every client entered has thrown, the run throws one error
    whose message is the heading "All methods failed:" and then, each on a
    line of its own behind a bullet, the message of every client entered,
    tagged with its method, in the order of the attempts. *)
Theorem fetchAllVersions_ordered_fallback :
  forall (pathname : string -> Result string) (up : Upstream)
         (plugin : Plugin.t),
    let pageUrl := normalizeVersionHistoryUrl (Plugin.marketplaceUrl plugin) in
    let identifiers :=
      extractAddonIdentifiers pathname (Plugin.marketplaceUrl plugin) in
    let hasKey := truthyO (Identifiers.id identifiers)
                  || truthyO (Identifiers.slug identifiers) in
    let run := fetchAllVersions pathname up plugin in
    match outcome (fetchFromInitialState up pageUrl) with
    | Ok versions =>
        outcome run = Ok (versions, "initial-state") /\ versions <> [] /\
        callsOf (events run) = [InitialState]
    | Throw e1 =>
        if hasKey then
          match outcome (fetchFromAPI up identifiers) with
          | Ok versions =>
              outcome run = Ok (versions, "rest-api") /\ versions <> [] /\
              callsOf (events run) = [InitialState; RestApi]
          | Throw e2 =>
              callsOf (events run) = [InitialState; RestApi; Puppeteer] /\
              match outcome (fetchFromPuppeteer up pageUrl (Plugin.name plugin)) with
              | Ok versions =>
                  outcome run = Ok (versions, "puppeteer") /\ versions <> []
              | Throw e3 =>
                  outcome run =
                  Throw (Error
                           ("All methods failed:"
                            ++ LF ++ " • " ++ ("initial-state: " ++ message e1)
                            ++ LF ++ " • " ++ ("rest-api: " ++ message e2)
                            ++ LF ++ " • " ++ ("puppeteer: " ++ message e3)))
              end
          end
        else
          callsOf (events run) = [InitialState; Puppeteer] /\
          match outcome (fetchFromPuppeteer up pageUrl (Plugin.name plugin)) with
          | Ok versions =>
              outcome run = Ok (versions, "puppeteer") /\ versions <> []
          | Throw e3 =>
              outcome run =
              Throw (Error
                       ("All methods failed:"
                        ++ LF ++ " • " ++ ("initial-state: " ++ message e1)
                        ++ LF ++ " • " ++ ("puppeteer: " ++ message e3)))
          end
    end.
Proof.
  intros pathname up plugin pageUrl identifiers hasKey run.
  destruct (fetchFromInitialState_facts up pageUrl) as [C1 N1].
  destruct (fetchFromAPI_facts up identifiers) as [C2 N2].
  destruct (fetchFromPuppeteer_facts up pageUrl (Plugin.name plugin))
    as [C3 N3].
  subst run. unfold fetchAllVersions, tryPuppeteer.
  fold pageUrl identifiers hasKey.
  set (m1 := fetchFromInitialState up pageUrl) in *.
  set (m2 := fetchFromAPI up identifiers) in *.
  set (m3 := fetchFromPuppeteer up pageUrl (Plugin.name plugin)) in *.
  clearbody m1 m2 m3.
  destruct m1 as [ev1 [v1|e1]], m2 as [ev2 [v2|e2]], m3 as [ev3 [v3|e3]];
    destruct hasKey; cbn [events outcome] in *;
    cbn [tryCatch bindM ret throw events outcome];
    rewrite ?app_nil_r, ?callsOf_app, ?C1, ?C2, ?C3; cbn [app]; auto.
Qed.

(* ===================================================================== *)
(** ** Properties of the batch runner *)
(* ===================================================================== *)

Section BatchProperties.

Variable pathname : string -> Result string.
Variable upstreamAt : nat -> Upstream.
Variable targetDCVersion : option string.

Lemma processPlugin_outcome up plugin :
  outcome (processPlugin pathname up plugin targetDCVersion)
  = Ok ((entryFor pathname targetDCVersion) up plugin).
Proof.
  unfold processPlugin, entryFor.
  destruct (fetchAllVersions pathname up plugin) as [evs [[versions method]|err]];
    cbn [tryCatch bindM events outcome liftR fst snd]; [|reflexivity].
  destruct (buildResult plugin versions targetDCVersion method);
    reflexivity.
Qed.

Lemma processFrom_outcome total i plugins :
  outcome (processFrom pathname upstreamAt total i plugins targetDCVersion)
  = Ok ((entriesFrom pathname upstreamAt targetDCVersion) i plugins).
Proof.
  revert i; induction plugins as [|plugin rest IH]; intros i; [reflexivity|].
  cbn [processFrom entriesFrom].
  unfold bindM at 1. cbn [progressCallback emit outcome events].
  unfold bindM at 1. rewrite processPlugin_outcome. cbn [outcome events].
  unfold bindM at 1.
  assert (outcome (if (i <? total - 1)%nat then emit (Sleep 2000) else ret tt)
          = Ok tt) as -> by (destruct (i <? total - 1)%nat; reflexivity).
  cbn [outcome events]. unfold bindM at 1. rewrite IH. reflexivity.
Qed.

Lemma checkCompatibility_outcome plugins :
  outcome (checkCompatibility pathname upstreamAt plugins targetDCVersion)
  = Ok ((entriesFrom pathname upstreamAt targetDCVersion) 0 plugins).
Proof.
  unfold checkCompatibility.
  unfold bindM at 1. cbn [progressCallback emit outcome events].
  unfold bindM at 1. cbn [emit outcome events].
  unfold bindM at 1. rewrite processFrom_outcome. reflexivity.
Qed.

Lemma entriesFrom_length i plugins :
  List.length ((entriesFrom pathname upstreamAt targetDCVersion) i plugins) = List.length plugins.
Proof.
  revert i; induction plugins as [|p rest IH]; intros i; simpl; auto.
Qed.

Lemma entriesFrom_nth i plugins k plugin :
  nth_error plugins k = Some plugin ->
  nth_error ((entriesFrom pathname upstreamAt targetDCVersion) i plugins) k
  = Some ((entryFor pathname targetDCVersion) (upstreamAt (i + k)) plugin).
Proof.
  revert i k; induction plugins as [|p rest IH]; intros i [|k]; simpl;
    try discriminate.
  - intros [= ->]. now rewrite Nat.add_0_r.
  - intros H. rewrite (IH (S i) k H). do 3 f_equal. lia.
Qed.

(** The entry carries the plugin's name, URL and current version, whatever
    happened to the plugin. *)
Lemma entryFor_identity up plugin :
  PluginResult.pluginName ((entryFor pathname targetDCVersion) up plugin) = Plugin.name plugin /\
  PluginResult.pluginUrl ((entryFor pathname targetDCVersion) up plugin) = Plugin.marketplaceUrl plugin /\
  PluginResult.currentVersion ((entryFor pathname targetDCVersion) up plugin)
  = Plugin.currentVersion plugin.
Proof.
  unfold entryFor.
  destruct (outcome (fetchAllVersions pathname up plugin))
    as [[versions method]|err]; [|now repeat split].
  destruct (buildResult plugin versions targetDCVersion method) as [r|err] eqn:E;
    [|now repeat split].
  unfold buildResult in E.
  repeat match type of E with
         | bind ?r _ = Ok _ => destruct r; cbn [bind] in E; [|discriminate E]
         end.
  injection E as <-. now repeat split.
Qed.

(** A plugin for which every client entered has thrown gets the record of a
    failed plugin. *)
Lemma entryFor_exhausted up plugin err :
  outcome (fetchAllVersions pathname up plugin) = Throw err ->
  (entryFor pathname targetDCVersion) up plugin = failedResult plugin targetDCVersion err.
Proof. unfold entryFor. now intros ->. Qed.

(** [compatible] is null in exactly two cases: the fetch has thrown, or the
    fetch has returned and [buildResult] has thrown. *)
Lemma entryFor_null up plugin :
  PluginResult.compatible ((entryFor pathname targetDCVersion) up plugin) = None <->
  (exists err, outcome (fetchAllVersions pathname up plugin) = Throw err) \/
  (exists versions method err,
      outcome (fetchAllVersions pathname up plugin) = Ok (versions, method) /\
      buildResult plugin versions targetDCVersion method = Throw err).
Proof.
  unfold entryFor.
  destruct (outcome (fetchAllVersions pathname up plugin))
    as [[versions method]|err].
  - destruct (buildResult plugin versions targetDCVersion method) as [r|e] eqn:E.
    + split.
      * intros H. exfalso. unfold buildResult in E.
        repeat match type of E with
               | bind ?r _ = Ok _ => destruct r; cbn [bind] in E; [|discriminate E]
               end.
        injection E as <-. discriminate H.
      * intros [[e H]|(vs & m & e & H1 & H2)]; [discriminate H|].
        injection H1 as <- <-. rewrite E in H2. discriminate H2.
    + split; [|reflexivity]. intros _. right. eauto 6.
  - split; [|reflexivity]. intros _. left. eauto.
Qed.

End BatchProperties.

(** The batch returns one entry per plugin, in the order of the plugins; the
    entry of a plugin whose fetch has thrown has a null [compatible], no
    compatible version and the message of the error. *)
Lemma checkCompatibility_one_entry_per_plugin
    (pathname : string -> Result string) (upstreamAt : nat -> Upstream)
    (plugins : list Plugin.t) (targetDCVersion : option string) :
  exists results,
    outcome (checkCompatibility pathname upstreamAt plugins targetDCVersion)
    = Ok results /\
    List.length results = List.length plugins /\
    forall i plugin, nth_error plugins i = Some plugin ->
      exists r, nth_error results i = Some r /\
        PluginResult.pluginName r = Plugin.name plugin /\
        PluginResult.pluginUrl r = Plugin.marketplaceUrl plugin /\
        PluginResult.currentVersion r = Plugin.currentVersion plugin /\
        forall err,
          outcome (fetchAllVersions pathname (upstreamAt i) plugin) = Throw err ->
          PluginResult.compatible r = None /\
          PluginResult.compatibleVersions r = [] /\
          PluginResult.error r = Some (message err).
Proof.
  exists (entriesFrom pathname upstreamAt targetDCVersion 0 plugins).
  split; [apply checkCompatibility_outcome|].
  split; [apply entriesFrom_length|].
  intros i plugin Hi.
  exists (entryFor pathname targetDCVersion (upstreamAt i) plugin).
  split; [exact (entriesFrom_nth _ _ _ 0 _ _ _ Hi)|].
  destruct (entryFor_identity pathname targetDCVersion (upstreamAt i) plugin)
    as (H1 & H2 & H3).
  split; [assumption|]. split; [assumption|]. split; [assumption|].
  intros err Herr.
  rewrite (entryFor_exhausted _ _ _ _ _ Herr). now repeat split.
Qed.

(** When no version string involved has a line terminator, [compatible] is
    null exactly for the plugins whose fetch has thrown, and otherwise tells
    whether a compatible version compares equal to the current one. *)
Lemma entryFor_compatible
    (pathname : string -> Result string) (targetDCVersion : option string)
    (up : Upstream) (plugin : Plugin.t) :
  singleLine (Plugin.currentVersion plugin) = true ->
  singleLineO targetDCVersion = true ->
  (forall versions method,
      outcome (fetchAllVersions pathname up plugin) = Ok (versions, method) ->
      forallb singleLineRaw versions = true) ->
  let r := entryFor pathname targetDCVersion up plugin in
  match outcome (fetchAllVersions pathname up plugin) with
  | Throw err => PluginResult.compatible r = None
  | Ok _ =>
      exists b, PluginResult.compatible r = Some b /\
        (b = true <->
         exists cv, In cv (PluginResult.compatibleVersions r) /\
           compareVersions (Entry.pluginVersion cv)
             (Plugin.currentVersion plugin) = Ok 0%Z)
  end.
Proof.
  intros Hcur Ht Hraw r. subst r. unfold entryFor.
  destruct (outcome (fetchAllVersions pathname up plugin))
    as [[versions method]|err]; [|reflexivity].
  destruct (buildResult_returns plugin versions targetDCVersion method
              Hcur Ht (Hraw _ _ eq_refl)) as [r Hr].
  rewrite Hr. now apply (buildResult_spec _ _ _ _ _ Hr).
Qed.

(* ===================================================================== *)
(** ** Theorems: the result builder and the batch runner *)
(* ===================================================================== *)

(** C2, on the example and at the input that breaks it.  For the three
    records of the example and the current version 1.0, the result recommends
    3.0, spans 2.0 - 3.0 and is not compatible.  With the same records, of
    which 2.0 and 3.0 are kept, and a current version that has a line break,
    [buildResult] throws instead of returning a result. *)
Theorem buildResult_throws_on_line_terminator :
  (exists r,
     buildResult pluginExample rawExample (Some "8.5") "rest-api" = Ok r /\
     PluginResult.recommendedVersion r = Some "3.0" /\
     PluginResult.compatibleVersionRange r = Some "2.0 - 3.0" /\
     PluginResult.compatible r = Some false) /\
  map Entry.pluginVersion (keptEntries rawExample (Some "8.5")) = ["2.0"; "3.0"] /\
  buildResult pluginTwoLines rawExample (Some "8.5") "rest-api"
  = Throw nullMatch.
Proof.
  split; [|split; reflexivity].
  eexists. split; [reflexivity|]. repeat split.
Qed.

(** C1, at the input that breaks it.  The page of the plugin carries the
    records of the example, so the first client returns and the fetch
    succeeds; the current version has a line break; the entry of the plugin
    has a null [compatible] and the message of the type error. *)
Theorem compatible_null_after_successful_fetch :
  outcome (fetchAllVersions plainPathname (serving rawExample) pluginTwoLines)
  = Ok (rawExample, "initial-state") /\
  exists r,
    outcome (checkCompatibility plainPathname (fun _ => serving rawExample)
               [pluginTwoLines] (Some "8.5")) = Ok [r] /\
    PluginResult.compatible r = None /\
    PluginResult.fetchMethod r = "failed" /\
    PluginResult.error r = Some (message nullMatch).
Proof.
  split; [reflexivity|]. eexists. split; [reflexivity|]. repeat split.
Qed.

(** C7, at the input that breaks it.  Of two plugins the first exhausts the
    three clients and the second is fetched by the first client; the second
    has a current version with a line break.  The batch returns two entries
    in the order of the plugins, and both have a null [compatible]. *)
Theorem two_null_entries_one_exhausted_plugin :
  let upstreamAt := fun i => match i with 0 => unreachable
                                        | _ => serving rawExample end in
  (exists err,
     outcome (fetchAllVersions plainPathname (upstreamAt 0) pluginOffline)
     = Throw err) /\
  outcome (fetchAllVersions plainPathname (upstreamAt 1) pluginTwoLines)
  = Ok (rawExample, "initial-state") /\
  exists r0 r1,
    outcome (checkCompatibility plainPathname upstreamAt
               [pluginOffline; pluginTwoLines] (Some "8.5")) = Ok [r0; r1] /\
    PluginResult.pluginName r0 = "Offline" /\
    PluginResult.pluginName r1 = "Two lines" /\
    PluginResult.compatible r0 = None /\
    PluginResult.compatible r1 = None.
Proof.
  intros upstreamAt. split; [eexists; reflexivity|]. split; [reflexivity|].
  do 2 eexists. split; [reflexivity|]. repeat split.
Qed.

(** C8, as stated, fails: with no target version and no plugin the batch
    runner is not rejected; it launches the browser, closes it, and returns
    an empty list.  With no target version and one plugin it sends the
    requests of all three clients. *)
Lemma checkCompatibility_accepts_invalid_input :
  checkCompatibility plainPathname (fun _ => unreachable) [] None
  = mkM [Progress "Launching browser (used only as final fallback)...";
         Launch; Close]
        (Ok []) /\
  requestsOf (events (checkCompatibility plainPathname (fun _ => unreachable)
                        [pluginOffline] None))
  = [InitialState; RestApi; Puppeteer].
Proof. split; reflexivity. Qed.

(** C8, amended.  The route rejects a missing or empty target version with
    status 400, and an empty plugin list with an error event, and in both
    cases nothing is launched or requested.  The batch runner itself rejects
    nothing: on every plugin list and target it first reports and performs
    the launch of the browser, and it returns one entry per plugin. *)
Theorem input_validation_is_in_the_route :
  (forall pathname upstreamAt type found,
     checkCompatibilityRoute pathname upstreamAt type None found
     = (Status400 "type and targetDCVersion are required.", []) /\
     checkCompatibilityRoute pathname upstreamAt type (Some "") found
     = (Status400 "type and targetDCVersion are required.", [])) /\
  (forall pathname upstreamAt type targetDCVersion,
     checkCompatibilityRoute pathname upstreamAt type targetDCVersion (Ok [])
     = (if negb (truthyO type) || negb (truthyO targetDCVersion)
        then Status400 "type and targetDCVersion are required."
        else EventStream [SseError "No plugins found for this product type."],
        [])) /\
  (forall pathname upstreamAt plugins targetDCVersion,
     exists results rest,
       outcome (checkCompatibility pathname upstreamAt plugins targetDCVersion)
       = Ok results /\
       List.length results = List.length plugins /\
       events (checkCompatibility pathname upstreamAt plugins targetDCVersion)
       = Progress "Launching browser (used only as final fallback)..."
         :: Launch :: rest).
Proof.
  split; [|split].
  - intros pathname upstreamAt type found. unfold checkCompatibilityRoute.
    cbn [truthyO truthy String.eqb negb]. rewrite !orb_true_r. auto.
  - intros pathname upstreamAt type targetDCVersion.
    unfold checkCompatibilityRoute.
    now destruct (negb (truthyO type) || negb (truthyO targetDCVersion)).
  - intros pathname upstreamAt plugins targetDCVersion.
    destruct (checkCompatibility_one_entry_per_plugin pathname upstreamAt
                plugins targetDCVersion) as (results & Hout & Hlen & _).
    exists results. eexists. split; [exact Hout|]. split; [exact Hlen|].
    unfold checkCompatibility.
    unfold bindM at 1. cbn [progressCallback emit outcome events].
    unfold bindM at 1. cbn [emit outcome events app]. reflexivity.
Qed.

(* ********************************************************************* *)
(** * Part IV: further properties of the program *)
(* ********************************************************************* *)

(* ===================================================================== *)
(** ** The comparator on its domain *)
(* ===================================================================== *)

(** X1.  On strings without a line terminator the comparator returns, its
    result is -1, 0 or 1, exchanging the arguments negates the result, a
    string compares equal to itself, and the order is transitive. *)
Theorem compareVersions_orders_single_lines (a b c : string) :
  singleLine a = true -> singleLine b = true -> singleLine c = true ->
  exists ab bc ac,
    compareVersions a b = Ok ab /\ compareVersions b c = Ok bc /\
    compareVersions a c = Ok ac /\
    (ab = (-1)%Z \/ ab = 0%Z \/ ab = 1%Z) /\
    compareVersions b a = Ok (- ab)%Z /\
    compareVersions a a = Ok 0%Z /\
    ((ab <= 0)%Z -> (bc <= 0)%Z -> (ac <= 0)%Z).
Proof.
  intros Ha%singleLine_comparable Hb%singleLine_comparable
         Hc%singleLine_comparable.
  destruct (comparable_pair a b Ha Hb) as [ab Eab].
  destruct (comparable_pair b c Hb Hc) as [bc Ebc].
  destruct (comparable_pair a c Ha Hc) as [ac Eac].
  exists ab, bc, ac. repeat split; try assumption.
  - eapply compareVersions_range; eauto.
  - now apply compareVersions_antisym.
  - now apply compareVersions_refl.
  - intros Lab Lbc.
    destruct (compareVersions_trans a b c ab bc Eab Ebc Lab Lbc)
      as (z & Ez & Lz).
    rewrite Eac in Ez. now injection Ez as ->.
Qed.

Lemma compareVersions_orders_single_lines_witness :
  exists ab bc ac,
    compareVersions "8.1" "8.10" = Ok ab /\ compareVersions "8.10" "9" = Ok bc /\
    compareVersions "8.1" "9" = Ok ac /\
    (ab = (-1)%Z \/ ab = 0%Z \/ ab = 1%Z) /\
    compareVersions "8.10" "8.1" = Ok (- ab)%Z /\
    compareVersions "8.1" "8.1" = Ok 0%Z /\
    ((ab <= 0)%Z -> (bc <= 0)%Z -> (ac <= 0)%Z).
Proof.
  apply (compareVersions_orders_single_lines "8.1" "8.10" "9"); reflexivity.
Defined.

(* ===================================================================== *)
(** ** Case and surrounding white space *)
(* ===================================================================== *)

Section Normalisation.

Lemma lowerChar_facts c :
  isSpace (lowerChar c) = isSpace c /\
  isDigit (lowerChar c) = isDigit c /\
  ((lowerChar c =? ".")%char = (c =? ".")%char) /\
  lowerChar (lowerChar c) = lowerChar c.
Proof. destruct c as [[] [] [] [] [] [] [] []]; repeat split. Qed.

Lemma toLowerCase_empty s : (toLowerCase s =? "") = (s =? "").
Proof. now destruct s. Qed.

Lemma toLowerCase_idem s : toLowerCase (toLowerCase s) = toLowerCase s.
Proof.
  induction s as [|c s IH]; simpl; [reflexivity|].
  destruct (lowerChar_facts c) as (_ & _ & _ & ->). now rewrite IH.
Qed.

Lemma toLowerCase_trimStart s :
  trimStart (toLowerCase s) = toLowerCase (trimStart s).
Proof.
  induction s as [|c s IH]; simpl; [reflexivity|].
  destruct (lowerChar_facts c) as (-> & _). now destruct (isSpace c).
Qed.

Lemma toLowerCase_trimEnd s : trimEnd (toLowerCase s) = toLowerCase (trimEnd s).
Proof.
  induction s as [|c s IH]; simpl; [reflexivity|].
  destruct (lowerChar_facts c) as (-> & _).
  rewrite IH, toLowerCase_empty.
  now destruct (isSpace c && (trimEnd s =? "")).
Qed.

Lemma toLowerCase_trim s : trim (toLowerCase s) = toLowerCase (trim s).
Proof. unfold trim. now rewrite toLowerCase_trimStart, toLowerCase_trimEnd. Qed.

Lemma toLowerCase_split s :
  split "." (toLowerCase s) = map toLowerCase (split "." s).
Proof.
  induction s as [|c s IH]; simpl; [reflexivity|].
  destruct (lowerChar_facts c) as (_ & _ & -> & _). rewrite IH.
  destruct (c =? ".")%char; [reflexivity|].
  now destruct (split "." s).
Qed.

Lemma parseSegment_toLowerCase seg :
  parseSegment (toLowerCase seg) = parseSegment seg.
Proof.
  unfold parseSegment. now rewrite toLowerCase_trim, toLowerCase_idem.
Qed.

Lemma mapR_map {A B C} (f : B -> Result C) (g : A -> B) l :
  mapR f (map g l) = mapR (fun x => f (g x)) l.
Proof. induction l as [|x l IH]; simpl; [reflexivity|]. now rewrite IH. Qed.

Lemma mapR_ext {A B} (f g : A -> Result B) l :
  (forall x, f x = g x) -> mapR f l = mapR g l.
Proof.
  intros H. induction l as [|x l IH]; simpl; [reflexivity|].
  now rewrite H, IH.
Qed.

Lemma parseVersion_toLowerCase s : parseVersion (toLowerCase s) = parseVersion s.
Proof.
  unfold parseVersion, truthy. rewrite toLowerCase_empty.
  destruct (negb (negb (s =? ""))); [reflexivity|].
  rewrite toLowerCase_trim, toLowerCase_split, mapR_map.
  apply mapR_ext, parseSegment_toLowerCase.
Qed.

Lemma trimStart_startsSpace s : startsSpace (trimStart s) = false.
Proof.
  induction s as [|c s IH]; simpl; [reflexivity|].
  destruct (isSpace c) eqn:E; [exact IH|]. simpl. exact E.
Qed.

Lemma trimStart_fixed s : startsSpace s = false -> trimStart s = s.
Proof. destruct s as [|c s]; simpl; [reflexivity|]. now intros ->. Qed.

Lemma trimEnd_startsSpace s : startsSpace s = false -> startsSpace (trimEnd s) = false.
Proof.
  destruct s as [|c s]; simpl; [reflexivity|]. intros E. rewrite E. simpl.
  exact E.
Qed.

Lemma trimEnd_idem s : trimEnd (trimEnd s) = trimEnd s.
Proof.
  induction s as [|c s IH]; simpl; [reflexivity|].
  destruct (isSpace c && (trimEnd s =? "")) eqn:E; [reflexivity|].
  simpl. now rewrite IH, E.
Qed.

Lemma trim_idem s : trim (trim s) = trim s.
Proof.
  unfold trim.
  rewrite (trimStart_fixed (trimEnd (trimStart s))).
  - apply trimEnd_idem.
  - apply trimEnd_startsSpace, trimStart_startsSpace.
Qed.

Lemma parseVersion_trim s : parseVersion (trim s) = parseVersion s.
Proof.
  unfold parseVersion, truthy. rewrite trim_idem.
  destruct (String.eqb_spec (trim s) "") as [E|NE].
  - rewrite E. simpl. now destruct (negb (negb (s =? ""))).
  - destruct (String.eqb_spec s "") as [->|]; [now elim NE|reflexivity].
Qed.

End Normalisation.

(** X2.  The comparator ignores the case of letters and the white space
    around a version: lower-casing or trimming either argument does not
    change what it returns, an exception included. *)
Theorem compareVersions_ignores_case_and_margins (a b : string) :
  compareVersions (toLowerCase a) b = compareVersions a b /\
  compareVersions a (toLowerCase b) = compareVersions a b /\
  compareVersions (trim a) b = compareVersions a b /\
  compareVersions a (trim b) = compareVersions a b.
Proof.
  unfold compareVersions.
  now rewrite !parseVersion_toLowerCase, !parseVersion_trim.
Qed.

(* ===================================================================== *)
(** ** The range test *)
(* ===================================================================== *)

Lemma isVersionInRange_iff (target minVer maxVer : option string) :
  isVersionInRange target minVer maxVer = Ok true <->
  truthyO target = true /\ truthyO minVer = true /\ truthyO maxVer = true /\
  versionLe (orEmpty minVer) (orEmpty target) /\
  versionLe (orEmpty target) (orEmpty maxVer).
Proof.
  destruct target as [t|], minVer as [lo|], maxVer as [hi|]; simpl;
    try (split; [discriminate|intros (? & ? & ? & _); discriminate]).
  destruct (truthy t) eqn:Et, (truthy lo) eqn:El, (truthy hi) eqn:Eh; simpl;
    try (split; [discriminate|intros (? & ? & ? & _); discriminate]).
  split.
  - destruct (compareVersions t lo) as [c1|] eqn:E1; simpl; [|discriminate].
    destruct (Z.geb_spec c1 0) as [G|L]; [|discriminate].
    destruct (compareVersions t hi) as [c2|] eqn:E2; simpl; [|discriminate].
    intros [= H]. apply Z.leb_le in H. repeat split.
    + exists (- c1)%Z. split; [now apply compareVersions_antisym|lia].
    + exists c2. auto.
  - intros (_ & _ & _ & (c & Ec & Lc) & (c2 & E2 & L2)).
    apply compareVersions_antisym in Ec. rewrite Ec. simpl.
    destruct (Z.geb_spec (- c) 0) as [G|L]; [|lia].
    rewrite E2. simpl. f_equal. now apply Z.leb_le.
Qed.

(** X3.  [isVersionInRange] answers true exactly when the three arguments
    are present and non-empty, the lower bound is not after the target, and
    the target is not after the upper bound.  When an argument is absent or
    empty it answers false and compares nothing, whatever the others are. *)
Theorem isVersionInRange_true_iff (target minVer maxVer : option string) :
  (isVersionInRange target minVer maxVer = Ok true <->
   truthyO target = true /\ truthyO minVer = true /\ truthyO maxVer = true /\
   versionLe (orEmpty minVer) (orEmpty target) /\
   versionLe (orEmpty target) (orEmpty maxVer)) /\
  (if truthyO target && truthyO minVer && truthyO maxVer then True
   else isVersionInRange target minVer maxVer = Ok false).
Proof.
  split; [apply isVersionInRange_iff|].
  destruct target as [t|], minVer as [lo|], maxVer as [hi|]; simpl;
    rewrite ?andb_false_r; try reflexivity.
  now destruct (truthy t), (truthy lo), (truthy hi).
Qed.

(** X4.  A target within a range proves the range ordered, and stays within
    every wider range: lowering the lower bound or raising the upper bound
    under the comparator keeps the answer true. *)
Theorem isVersionInRange_widens (t lo hi lo' hi' : string) :
  isVersionInRange (Some t) (Some lo) (Some hi) = Ok true ->
  truthy lo' = true -> truthy hi' = true ->
  versionLe lo' lo -> versionLe hi hi' ->
  versionLe lo hi /\
  isVersionInRange (Some t) (Some lo') (Some hi') = Ok true.
Proof.
  intros H Tl Th Hlo Hhi.
  apply isVersionInRange_iff in H as (Tt & _ & _ & L1 & L2).
  simpl in Tt, L1, L2. split; [eapply versionLe_trans; eauto|].
  apply (proj2 (isVersionInRange_iff (Some t) (Some lo') (Some hi'))).
  simpl. repeat split; try assumption.
  - eapply versionLe_trans; eauto.
  - eapply versionLe_trans; eauto.
Qed.

Lemma isVersionInRange_widens_witness :
  versionLe "8.0" "9.0" /\
  isVersionInRange (Some "8.5") (Some "7.9") (Some "9.0.1") = Ok true.
Proof.
  apply (isVersionInRange_widens "8.5" "8.0" "9.0" "7.9" "9.0.1");
    try reflexivity.
  - exists (-1)%Z. split; [reflexivity|lia].
  - exists (-1)%Z. split; [reflexivity|lia].
Defined.

(* ===================================================================== *)
(** ** The shape of the tokens *)
(* ===================================================================== *)

Section TokenShape.

Lemma tokenTail_starts dotted s u :
  startsAlnum s = true -> tokenTail dotted s = Some u -> startsAlnum u = true.
Proof.
  destruct s as [|c s]; simpl; [discriminate|]. intros Hc. rewrite Hc.
  destruct (tokenTail dotted s); simpl; [|discriminate].
  intros [= <-]. exact Hc.
Qed.

Lemma tokenTail_fixed dotted s u :
  tokenTail dotted s = Some u -> tokenTail dotted u = Some u.
Proof.
  revert dotted u; induction s as [|c s IH]; intros dotted u; simpl.
  - destruct dotted; [intros [= <-]; reflexivity|discriminate].
  - destruct (isAlnum c) eqn:Ec.
    + destruct (tokenTail dotted s) as [v|] eqn:Ev; simpl; [|discriminate].
      intros [= <-]. simpl. rewrite Ec, (IH _ _ Ev). reflexivity.
    + destruct (Ascii.eqb_spec c "."%char) as [->|NE]; simpl.
      * destruct (startsAlnum s) eqn:Es.
        -- destruct (tokenTail true s) as [v|] eqn:Ev; simpl; [|discriminate].
           intros [= <-]. simpl.
           rewrite (tokenTail_starts _ _ _ Es Ev), (IH _ _ Ev). reflexivity.
        -- destruct dotted; [intros [= <-]; reflexivity|discriminate].
      * destruct dotted; [intros [= <-]; reflexivity|discriminate].
Qed.

Lemma tokenTail_dotted dotted s u :
  tokenTail dotted s = Some u ->
  dotted = true \/ anyChar (Ascii.eqb ".") u = true.
Proof.
  revert dotted u; induction s as [|c s IH]; intros dotted u; simpl.
  - destruct dotted; [auto|discriminate].
  - destruct (isAlnum c) eqn:Ec.
    + destruct (tokenTail dotted s) as [v|] eqn:Ev; simpl; [|discriminate].
      intros [= <-]. destruct (IH _ _ Ev) as [H|H]; [auto|].
      right. simpl. rewrite H. apply orb_true_r.
    + destruct (Ascii.eqb_spec c "."%char) as [->|NE]; simpl.
      * destruct (startsAlnum s).
        -- destruct (tokenTail true s) as [v|]; simpl; [|discriminate].
           intros [= <-]. right. reflexivity.
        -- destruct dotted; [auto|discriminate].
      * destruct dotted; [auto|discriminate].
Qed.

Lemma matchToken_inv s t :
  matchToken s = Some t ->
  exists c s' t', s = String c s' /\ t = String c t' /\ isAlnum c = true /\
                  tokenTail false s' = Some t'.
Proof.
  destruct s as [|c s]; simpl; [discriminate|].
  unfold isAlnum.
  destruct (isDigit c) eqn:Ed; [|destruct (isLetter c) eqn:El; [|discriminate]];
    (destruct (tokenTail false s) as [t'|] eqn:Et; simpl; [|discriminate]);
    intros [= <-]; exists c, s, t'; rewrite ?Ed, ?El; auto.
Qed.

Lemma matchToken_of_tail c t' :
  isAlnum c = true -> tokenTail false t' = Some t' ->
  matchToken (String c t') = Some (String c t').
Proof.
  unfold isAlnum. intros Hc Ht. simpl. rewrite Ht.
  destruct (isDigit c); [reflexivity|]. simpl in Hc. now rewrite Hc.
Qed.

Lemma matchToken_fixed s t : matchToken s = Some t -> matchToken t = Some t.
Proof.
  intros (c & s' & t' & -> & -> & Hc & Ht)%matchToken_inv.
  apply matchToken_of_tail; [assumption|]. eapply tokenTail_fixed; eauto.
Qed.

Lemma includes_dot s : includes s "." = anyChar (Ascii.eqb ".") s.
Proof.
  induction s as [|c s IH]; [reflexivity|].
  cbn [includes anyChar]. rewrite IH. f_equal.
  change (prefix "." (String c s))
    with (if ascii_dec "." c then prefix "" s else false).
  destruct (ascii_dec "." c) as [<-|NE].
  - now destruct s.
  - symmetry. now apply Ascii.eqb_neq.
Qed.

Lemma matchToken_dot s t : matchToken s = Some t -> includes t "." = true.
Proof.
  intros (c & s' & t' & -> & -> & Hc & Ht)%matchToken_inv.
  rewrite includes_dot. simpl.
  destruct (tokenTail_dotted _ _ _ Ht) as [H|H]; [discriminate|].
  rewrite H. apply orb_true_r.
Qed.

Lemma matchAll_matches skip s :
  Forall (fun tok => exists s', matchToken s' = Some tok) (matchAll skip s).
Proof.
  revert skip; induction s as [|c s IH]; intros skip; cbn [matchAll];
    [constructor|].
  destruct skip; [|apply IH].
  destruct (matchToken (String c s)) as [tok|] eqn:E; [|apply IH].
  constructor; [eauto|apply IH].
Qed.

Lemma filter_all {A} (p : A -> bool) l :
  Forall (fun x => p x = true) l -> filter p l = l.
Proof.
  induction 1 as [|x l Hx _ IH]; simpl; [reflexivity|]. now rewrite Hx, IH.
Qed.

Lemma extractVersionTokens_matchAll text :
  extractVersionTokens text = matchAll 0 text.
Proof.
  unfold extractVersionTokens, truthy.
  destruct (String.eqb_spec text "") as [->|NE]; [reflexivity|]. simpl.
  apply filter_all.
  eapply Forall_impl; [|apply matchAll_matches].
  intros tok [s' Hs]. eapply matchToken_dot; eauto.
Qed.

End TokenShape.

Lemma extractVersionTokens_tokens (text : string) :
  extractVersionTokens text = matchAll 0 text /\
  Forall (fun tok => isToken tok = true /\ startsAlnum tok = true /\
                     includes tok "." = true /\
                     allChars isTokenChar tok = true /\ comparable tok)
         (extractVersionTokens text).
Proof.
  split; [apply extractVersionTokens_matchAll|].
  rewrite extractVersionTokens_matchAll.
  eapply Forall_impl; [|apply matchAll_matches].
  intros tok [s' Hs].
  pose proof (matchToken_fixed _ _ Hs) as Hf.
  pose proof (matchToken_chars _ _ Hs) as Hc.
  repeat split.
  - unfold isToken. rewrite Hf. apply String.eqb_refl.
  - apply matchToken_inv in Hs as (c & ? & ? & _ & -> & Ha & _). exact Ha.
  - eapply matchToken_dot; eauto.
  - exact Hc.
  - now apply singleLine_comparable, tokenChars_singleLine.
Qed.

(** X5.  Every token found in a text is, as a whole, a match of the token
    pattern: it begins with a letter or a digit, is made of letters, digits
    and dots, contains a dot, and is comparable.  So the filter on the dot
    that follows the search never removes a match. *)
Theorem extractVersionTokens_shape (text : string) :
  extractVersionTokens text = matchAll 0 text /\
  Forall (fun tok => isToken tok = true /\ startsAlnum tok = true /\
                     includes tok "." = true /\
                     allChars isTokenChar tok = true /\ comparable tok)
         (extractVersionTokens text).
Proof. apply extractVersionTokens_tokens. Qed.

(* ===================================================================== *)
(** ** Writing a range and parsing it back *)
(* ===================================================================== *)

Section RangeRoundTrip.

Lemma startsAlnum_app s r : startsAlnum s = true -> startsAlnum (s ++ r) = true.
Proof. destruct s; simpl; [discriminate|auto]. Qed.

Lemma tokenTail_app dotted u r :
  tokenTail dotted u = Some u -> startsTokenChar r = false ->
  tokenTail dotted (u ++ r) = Some u.
Proof.
  intros Hu Hr. revert dotted Hu; induction u as [|c u IH]; intros dotted;
    simpl.
  - destruct dotted; [intros _|discriminate].
    destruct r as [|c r]; [reflexivity|]. simpl in *.
    unfold isTokenChar in Hr. apply orb_false_iff in Hr as [-> ->].
    reflexivity.
  - destruct (isAlnum c) eqn:Ec.
    + destruct (tokenTail dotted u) as [v|] eqn:Ev; simpl; [|discriminate].
      intros [= ->]. now rewrite (IH _ Ev).
    + destruct (Ascii.eqb_spec c "."%char) as [->|NE]; simpl.
      * destruct (startsAlnum u) eqn:Es.
        -- destruct (tokenTail true u) as [v|] eqn:Ev; simpl; [|discriminate].
           intros [= ->]. now rewrite (startsAlnum_app _ _ Es), (IH _ Ev).
        -- destruct dotted; [intros [= E]; discriminate E|discriminate].
      * destruct dotted; [intros [= E]; discriminate E|discriminate].
Qed.

Lemma isToken_inv t :
  isToken t = true ->
  exists c t', t = String c t' /\ isAlnum c = true /\
               tokenTail false t' = Some t' /\
               allChars isTokenChar t = true.
Proof.
  unfold isToken. destruct (matchToken t) as [u|] eqn:E; [|discriminate].
  intros ->%String.eqb_eq.
  pose proof (matchToken_chars _ _ E) as Hc.
  apply matchToken_inv in E as (c & s' & t' & -> & [= <-] & Ha & Ht).
  exists c, s'. auto.
Qed.

Lemma matchAll_skip x r : matchAll (String.length x) (x ++ r) = matchAll 0 r.
Proof. induction x as [|c x IH]; [reflexivity|exact IH]. Qed.

(** A token followed by something that cannot continue it is found first. *)
Lemma matchAll_token t r :
  isToken t = true -> startsTokenChar r = false ->
  matchAll 0 (t ++ r) = t :: matchAll 0 r.
Proof.
  intros (c & t' & -> & Hc & Ht & _)%isToken_inv Hr.
  change (String c t' ++ r) with (String c (t' ++ r)). cbn [matchAll].
  assert (matchToken (String c (t' ++ r)) = Some (String c t')) as ->.
  { unfold isAlnum in Hc. simpl. rewrite (tokenTail_app _ _ _ Ht Hr).
    destruct (isDigit c); [reflexivity|]. simpl in Hc. now rewrite Hc. }
  f_equal. simpl. rewrite Nat.sub_0_r. apply matchAll_skip.
Qed.

Lemma tokenChar_not_space c : isTokenChar c = true -> isSpace c = false.
Proof.
  destruct (isSpace c) eqn:E; [|reflexivity].
  apply isSpace_not_token in E as (Hd & Hl & Hdot).
  unfold isTokenChar, isAlnum. now rewrite Hd, Hl, Hdot.
Qed.

Lemma tokenChars_no_space s :
  allChars isTokenChar s = true -> anyChar isSpace s = false.
Proof.
  induction s as [|c s IH]; simpl; [reflexivity|].
  intros [Hc Hs]%andb_true_iff.
  now rewrite (tokenChar_not_space _ Hc), IH.
Qed.

Lemma trimEnd_no_space s : anyChar isSpace s = false -> trimEnd s = s.
Proof.
  induction s as [|c s IH]; simpl; [reflexivity|].
  intros [-> Hs]%orb_false_iff. simpl. now rewrite IH.
Qed.

Lemma trimEnd_app a b :
  anyChar isSpace b = false -> b <> "" -> trimEnd (a ++ b) = a ++ b.
Proof.
  intros Hb Nb. induction a as [|c a IH]; simpl.
  - now apply trimEnd_no_space.
  - rewrite IH.
    destruct (String.eqb_spec (a ++ b) "") as [E|_];
      [|now rewrite andb_false_r].
    destruct a; simpl in E; [contradiction|discriminate].
Qed.

Lemma append_assoc_r (a b c : string) : a ++ (b ++ c) = (a ++ b) ++ c.
Proof. induction a as [|x a IH]; simpl; [reflexivity|]. now rewrite IH. Qed.

Lemma append_empty_r (a : string) : a ++ "" = a.
Proof. induction a as [|x a IH]; simpl; [reflexivity|]. now rewrite IH. Qed.

Lemma rangeText_trim lo hi :
  isToken lo = true -> isToken hi = true ->
  trim (rangeText lo hi) = rangeText lo hi.
Proof.
  intros (c & lo' & -> & Hc & _ & Hlo)%isToken_inv
         (d & hi' & -> & _ & _ & Hhi)%isToken_inv.
  unfold trim, rangeText.
  rewrite trimStart_fixed.
  - rewrite (append_assoc_r (String c lo') " - " (String d hi')).
    apply trimEnd_app; [now apply tokenChars_no_space|discriminate].
  - simpl. apply tokenChar_not_space. unfold isTokenChar. now rewrite Hc.
Qed.

Lemma rangeText_tokens lo hi :
  isToken lo = true -> isToken hi = true ->
  extractVersionTokens (rangeText lo hi) = [lo; hi].
Proof.
  intros Hlo Hhi. rewrite extractVersionTokens_matchAll. unfold rangeText.
  rewrite (matchAll_token lo (" - " ++ hi) Hlo eq_refl).
  change (matchAll 0 (" - " ++ hi)) with (matchAll 0 hi).
  rewrite <- (append_empty_r hi) at 1.
  now rewrite (matchAll_token hi "" Hhi eq_refl).
Qed.

End RangeRoundTrip.

(** X6.  The range text that the result builder and the embedded-state
    client write, the lower bound, a dash between two spaces, the upper
    bound, parses back to its two bounds: for two tokens in order the parser
    finds exactly these two tokens and returns them as minimum and
    maximum, with the text unchanged as raw text. *)
Theorem parseCompatibilityString_rangeText (lo hi : string) :
  isToken lo = true -> isToken hi = true -> versionLe lo hi ->
  extractVersionTokens (rangeText lo hi) = [lo; hi] /\
  parseCompatibilityString (Some (rangeText lo hi))
  = Ok (Parsed.mk (Some lo) (Some hi) (rangeText lo hi)).
Proof.
  intros Hlo Hhi (c & Ec & Lc).
  split; [now apply rangeText_tokens|].
  unfold parseCompatibilityString. cbn [orEmpty].
  rewrite (rangeText_trim _ _ Hlo Hhi), (rangeText_tokens _ _ Hlo Hhi).
  assert (truthy (rangeText lo hi) = true) as ->.
  { apply isToken_inv in Hlo as (? & ? & -> & _). reflexivity. }
  cbn [negb last]. rewrite Ec. cbn [bind].
  destruct (Z.gtb_spec c 0); [lia|reflexivity].
Qed.

Lemma parseCompatibilityString_rangeText_witness :
  extractVersionTokens (rangeText "8.0" "9.0.1") = ["8.0"; "9.0.1"] /\
  parseCompatibilityString (Some (rangeText "8.0" "9.0.1"))
  = Ok (Parsed.mk (Some "8.0") (Some "9.0.1") (rangeText "8.0" "9.0.1")).
Proof.
  apply (parseCompatibilityString_rangeText "8.0" "9.0.1");
    [reflexivity|reflexivity|].
  exists (-1)%Z. split; [reflexivity|lia].
Defined.

(* ===================================================================== *)
(** ** Normalising a URL twice *)
(* ===================================================================== *)

Section NormaliseTwice.

Lemma prefix_app t a b : prefix t a = true -> prefix t (a ++ b) = true.
Proof.
  revert a; induction t as [|c t IH]; intros a;
    [intros _; now destruct (a ++ b)|].
  destruct a as [|d a]; [discriminate|].
  change (String d a ++ b) with (String d (a ++ b)).
  cbn [prefix]. destruct (ascii_dec c d); [apply IH|discriminate].
Qed.

Lemma includes_app_l a b t : includes a t = true -> includes (a ++ b) t = true.
Proof.
  induction a as [|c a IH].
  - destruct t; [intros _; now destruct b|discriminate].
  - change (String c a ++ b) with (String c (a ++ b)). cbn [includes].
    intros [H|H]%orb_true_iff.
    + pose proof (prefix_app _ _ b H) as H'.
      change (String c a ++ b) with (String c (a ++ b)) in H'.
      now rewrite H'.
    + rewrite (IH H). apply orb_true_r.
Qed.

Lemma includes_app_r a b t : includes b t = true -> includes (a ++ b) t = true.
Proof.
  intros H. induction a as [|c a IH]; [exact H|].
  change (String c a ++ b) with (String c (a ++ b)). cbn [includes].
  rewrite IH. apply orb_true_r.
Qed.

Lemma split_no_sep sep s :
  anyChar (Ascii.eqb sep) s = false -> split sep s = [s].
Proof.
  induction s as [|c s IH]; simpl; [reflexivity|].
  intros [Hc Hs]%orb_false_iff. rewrite Ascii.eqb_sym, Hc, (IH Hs). reflexivity.
Qed.

Lemma split_head_app sep base rest :
  anyChar (Ascii.eqb sep) base = false ->
  hd "" (split sep (base ++ String sep rest)) = base.
Proof.
  induction base as [|c base IH]; simpl.
  - intros _. now rewrite Ascii.eqb_refl.
  - intros [Hc Hs]%orb_false_iff. rewrite Ascii.eqb_sym, Hc.
    specialize (IH Hs).
    destruct (split sep (base ++ String sep rest)); simpl in *; now subst.
Qed.

Lemma anyChar_dropTrailingSlash p s :
  anyChar p s = false -> anyChar p (dropTrailingSlash s) = false.
Proof.
  induction s as [|c s IH]; simpl; [reflexivity|].
  intros [Hc Hs]%orb_false_iff.
  destruct ((c =? "/")%char && (s =? "")); simpl; [reflexivity|].
  now rewrite Hc, IH.
Qed.

Lemma anyChar_app p a b :
  anyChar p (a ++ b) = anyChar p a || anyChar p b.
Proof.
  induction a as [|c a IH]; simpl; [reflexivity|].
  now rewrite IH, orb_assoc.
Qed.

Lemma startsSpace_dropTrailingSlash s :
  startsSpace s = false -> startsSpace (dropTrailingSlash s) = false.
Proof.
  destruct s as [|c s]; simpl; [reflexivity|].
  now destruct ((c =? "/")%char && (s =? "")).
Qed.

Lemma startsSpace_app a b :
  startsSpace a = false -> startsSpace b = false -> startsSpace (a ++ b) = false.
Proof. now destruct a. Qed.

Lemma trim_fixed a b :
  startsSpace a = false -> startsSpace b = false ->
  anyChar isSpace b = false -> b <> "" -> trim (a ++ b) = a ++ b.
Proof.
  intros Ha Hb Hs Nb. unfold trim.
  rewrite (trimStart_fixed _ (startsSpace_app _ _ Ha Hb)).
  now apply trimEnd_app.
Qed.

Lemma trim_startsSpace s : startsSpace (trim s) = false.
Proof. apply trimEnd_startsSpace, trimStart_startsSpace. Qed.

End NormaliseTwice.

(** X7.  For a URL without a question mark the result of the normalisation
    contains the version-history segment, has the stable parameter as its
    only query string, and is left unchanged by a second normalisation. *)
Theorem normalizeVersionHistoryUrl_idempotent (rawUrl : string) :
  anyChar (Ascii.eqb "?") rawUrl = false ->
  exists base,
    normalizeVersionHistoryUrl rawUrl
    = base ++ "?versionHistoryHosting=dataCenter" /\
    anyChar (Ascii.eqb "?") base = false /\
    includes base "/version-history" = true /\
    normalizeVersionHistoryUrl (normalizeVersionHistoryUrl rawUrl)
    = normalizeVersionHistoryUrl rawUrl.
Proof.
  intros Hq%(anyChar_trim (Ascii.eqb "?")).
  assert (forall base,
            anyChar (Ascii.eqb "?") base = false ->
            includes base "/version-history" = true ->
            startsSpace base = false ->
            normalizeVersionHistoryUrl
              (base ++ "?versionHistoryHosting=dataCenter")
            = base ++ "?versionHistoryHosting=dataCenter") as Again.
  { intros base Hb Hi Hs. unfold normalizeVersionHistoryUrl.
    rewrite (trim_fixed base "?versionHistoryHosting=dataCenter" Hs eq_refl
               eq_refl) by discriminate.
    rewrite (includes_app_l _ _ _ Hi).
    now rewrite (split_head_app "?" base _ Hb). }
  destruct (includes (trim rawUrl) "/version-history") eqn:Ei.
  - assert (normalizeVersionHistoryUrl rawUrl
            = trim rawUrl ++ "?versionHistoryHosting=dataCenter") as E.
    { unfold normalizeVersionHistoryUrl.
      now rewrite Ei, (split_no_sep "?" _ Hq). }
    rewrite E. exists (trim rawUrl). repeat split; try assumption.
    apply Again; try assumption. apply trim_startsSpace.
  - assert (normalizeVersionHistoryUrl rawUrl
            = (dropTrailingSlash (trim rawUrl) ++ "/version-history")
              ++ "?versionHistoryHosting=dataCenter") as E.
    { unfold normalizeVersionHistoryUrl. now rewrite Ei. }
    rewrite E.
    exists (dropTrailingSlash (trim rawUrl) ++ "/version-history").
    assert (anyChar (Ascii.eqb "?")
              (dropTrailingSlash (trim rawUrl) ++ "/version-history") = false)
      as Hb.
    { rewrite anyChar_app, (anyChar_dropTrailingSlash _ _ Hq). reflexivity. }
    assert (includes (dropTrailingSlash (trim rawUrl) ++ "/version-history")
              "/version-history" = true) as Hi
      by (apply includes_app_r; reflexivity).
    repeat split; try assumption.
    apply Again; try assumption.
    apply startsSpace_app; [|reflexivity].
    apply startsSpace_dropTrailingSlash, trim_startsSpace.
Qed.

Lemma normalizeVersionHistoryUrl_idempotent_witness :
  exists base,
    normalizeVersionHistoryUrl
      "https://marketplace.atlassian.com/apps/1215215/scriptrunner/"
    = base ++ "?versionHistoryHosting=dataCenter" /\
    anyChar (Ascii.eqb "?") base = false /\
    includes base "/version-history" = true /\
    normalizeVersionHistoryUrl
      (normalizeVersionHistoryUrl
         "https://marketplace.atlassian.com/apps/1215215/scriptrunner/")
    = normalizeVersionHistoryUrl
        "https://marketplace.atlassian.com/apps/1215215/scriptrunner/".
Proof.
  apply (normalizeVersionHistoryUrl_idempotent
           "https://marketplace.atlassian.com/apps/1215215/scriptrunner/").
  reflexivity.
Defined.

(* ===================================================================== *)
(** ** The slug *)
(* ===================================================================== *)

Section Slug.

Lemma split_pieces_clean sep s :
  Forall (fun piece => anyChar (Ascii.eqb sep) piece = false) (split sep s).
Proof.
  induction s as [|c s IH]; simpl; [repeat constructor|].
  destruct (Ascii.eqb_spec c sep) as [->|NE].
  - constructor; [reflexivity|exact IH].
  - assert (Ascii.eqb sep c = false) as Hc by (apply Ascii.eqb_neq; congruence).
    destruct (split sep s) as [|piece rest].
    + repeat constructor. simpl. now rewrite Hc.
    + inversion IH; subst. constructor; [|assumption]. simpl.
      now rewrite Hc.
Qed.

End Slug.

(** X8.  A slug that is returned comes with an id, is a non-empty path
    segment without a slash, and is neither of the two page names
    version-history and overview. *)
Theorem extractAddonIdentifiers_slug (pathname : string -> Result string)
    (marketplaceUrl : string) :
  match Identifiers.slug (extractAddonIdentifiers pathname marketplaceUrl) with
  | Some slug =>
      slug <> "" /\ slug <> "version-history" /\ slug <> "overview" /\
      anyChar (Ascii.eqb "/") slug = false /\
      Identifiers.id (extractAddonIdentifiers pathname marketplaceUrl) <> None
  | None => True
  end.
Proof.
  unfold extractAddonIdentifiers.
  destruct (pathname marketplaceUrl) as [path|]; [|exact I].
  destruct (indexOf "apps" (filter truthy (split "/" path))) as [appsIdx|];
    [|exact I].
  destruct (truthyO _ && allChars isDigit _) eqn:Eid; [|exact I].
  cbn [Identifiers.slug Identifiers.id].
  destruct (nth_error (filter truthy (split "/" path)) (appsIdx + 2))
    as [slug|] eqn:Es; [|exact I].
  cbn [truthyO orEmpty].
  destruct (truthy slug && _) eqn:E; [|exact I].
  apply andb_true_iff in E as [Et Ek]. apply negb_true_iff in Ek.
  simpl in Ek. rewrite orb_false_r in Ek.
  apply orb_false_iff in Ek as [K1 K2].
  apply String.eqb_neq in K1, K2.
  repeat split; try assumption.
  - intros ->. discriminate Et.
  - apply nth_error_In in Es. apply filter_In in Es as [Hin _].
    pose proof (split_pieces_clean "/" path) as H.
    rewrite Forall_forall in H. auto.
  - destruct (nth_error (filter truthy (split "/" path)) (appsIdx + 1));
      [discriminate|discriminate Eid].
Qed.

(* ===================================================================== *)
(** ** What the result builder returns *)
(* ===================================================================== *)

Section BuilderResult.

Lemma buildResult_sorted plugin rawVersions target fetchMethod r :
  buildResult plugin rawVersions target fetchMethod = Ok r ->
  StronglySorted (notAfter descending) (PluginResult.compatibleVersions r) /\
  PluginResult.totalVersionsChecked r = Some (List.length rawVersions) /\
  PluginResult.error r = None /\
  PluginResult.fetchMethod r = fetchMethod.
Proof.
  unfold buildResult.
  destruct (keepCompatible target rawVersions) as [pushed|]; cbn [bind];
    [|intros H; discriminate H].
  destruct (someR _ pushed) as [b|]; cbn [bind]; [|intros H; discriminate H].
  destruct (if (0 <? List.length pushed)%nat then sortBy descending pushed
            else Ok pushed) as [cvs|] eqn:Ed; cbn [bind];
    [|intros H; discriminate H].
  match goal with
  | |- bind ?x _ = _ -> _ => destruct x; cbn [bind]; [|intros H; discriminate H]
  end.
  intros [= <-]. cbn. repeat split.
  destruct pushed as [|e l].
  - injection Ed as <-. constructor.
  - change (0 <? List.length (e :: l))%nat with true in Ed. cbv iota in Ed.
    exact (sortBy_sorted _ descending_antisym descending_trans _ _ Ed).
Qed.

Lemma keepCompatible_no_target target rawVersions :
  truthyO target = false -> keepCompatible target rawVersions = Ok [].
Proof.
  intros Ht. induction rawVersions as [|v rest IH]; [reflexivity|].
  cbn [keepCompatible].
  assert (exists b, resolveBounds v = Ok b) as [[lo hi] ->].
  { unfold resolveBounds. destruct (_ || _); [|eauto].
    destruct (parseCompatibilityString_returns (Raw.compatibility v))
      as (r & -> & _). simpl. eauto. }
  cbn [bind]. destruct (_ || _); [exact IH|].
  assert (isVersionInRange target lo hi = Ok false) as ->.
  { destruct target as [t|]; [|reflexivity]. simpl in Ht.
    destruct lo, hi; simpl; try reflexivity. now rewrite Ht. }
  cbn [bind]. now rewrite IH.
Qed.

End BuilderResult.

(** X9.  Whenever [buildResult] returns, its [compatibleVersions] are the
    entries of exactly the records that cover the target, in descending
    order of version; [compatible] tells whether one of them compares equal
    to the current version; [recommendedVersion] is the version of a
    greatest entry, and [compatibleVersionRange] is built from a least and a
    greatest one; the result counts all raw records, names the fetch method
    it was given and carries no error. *)
Theorem buildResult_returns_sorted_cover (plugin : Plugin.t)
    (rawVersions : list Raw.t) (target : option string) (fetchMethod : string)
    (r : PluginResult.t) :
  buildResult plugin rawVersions target fetchMethod = Ok r ->
  Permutation (keptEntries rawVersions target)
              (PluginResult.compatibleVersions r) /\
  StronglySorted
    (fun a b => versionLe (Entry.pluginVersion b) (Entry.pluginVersion a))
    (PluginResult.compatibleVersions r) /\
  (exists b, PluginResult.compatible r = Some b /\
     (b = true <->
      exists cv, In cv (PluginResult.compatibleVersions r) /\
        compareVersions (Entry.pluginVersion cv)
          (Plugin.currentVersion plugin) = Ok 0%Z)) /\
  match keptEntries rawVersions target with
  | [] => PluginResult.recommendedVersion r = None /\
          PluginResult.compatibleVersionRange r = None
  | _ :: _ =>
      exists top lo hi,
        In top (keptEntries rawVersions target) /\
        In lo (keptEntries rawVersions target) /\
        In hi (keptEntries rawVersions target) /\
        (forall cv, In cv (keptEntries rawVersions target) ->
           versionLe (Entry.pluginVersion cv) (Entry.pluginVersion top) /\
           versionLe (Entry.pluginVersion lo) (Entry.pluginVersion cv) /\
           versionLe (Entry.pluginVersion cv) (Entry.pluginVersion hi)) /\
        PluginResult.recommendedVersion r = Some (Entry.pluginVersion top) /\
        PluginResult.compatibleVersionRange r =
          Some (if (Entry.pluginVersion lo =? Entry.pluginVersion hi)
                then Entry.pluginVersion lo
                else rangeText (Entry.pluginVersion lo) (Entry.pluginVersion hi))
  end /\
  PluginResult.totalVersionsChecked r = Some (List.length rawVersions) /\
  PluginResult.fetchMethod r = fetchMethod /\
  PluginResult.error r = None.
Proof.
  intros H.
  destruct (buildResult_spec _ _ _ _ _ H) as (P & C & R).
  destruct (buildResult_sorted _ _ _ _ _ H) as (S & T & E & F).
  repeat split; assumption.
Qed.

Lemma buildResult_returns_sorted_cover_witness :
  exists r,
    buildResult pluginExample rawExample (Some "8.5") "rest-api" = Ok r /\
    Permutation (keptEntries rawExample (Some "8.5"))
                (PluginResult.compatibleVersions r) /\
    StronglySorted
      (fun a b => versionLe (Entry.pluginVersion b) (Entry.pluginVersion a))
      (PluginResult.compatibleVersions r) /\
    PluginResult.totalVersionsChecked r = Some 3.
Proof.
  destruct (buildResult pluginExample rawExample (Some "8.5") "rest-api")
    as [r|e] eqn:E; [|discriminate E].
  exists r. split; [reflexivity|].
  destruct (buildResult_returns_sorted_cover _ _ _ _ _ E)
    as (P & S & _ & _ & T & _).
  repeat split; assumption.
Defined.

(** X10.  [buildResult] returns whenever the current version, the target
    and the versions and bounds of the raw records have no line terminator;
    the compatibility texts may be anything. *)
Theorem buildResult_total_on_single_lines (plugin : Plugin.t)
    (rawVersions : list Raw.t) (target : option string) (fetchMethod : string) :
  singleLine (Plugin.currentVersion plugin) = true ->
  singleLineO target = true ->
  forallb singleLineRaw rawVersions = true ->
  exists r, buildResult plugin rawVersions target fetchMethod = Ok r /\
            PluginResult.compatible r <> None.
Proof.
  intros Hc Ht Hr.
  destruct (buildResult_returns plugin rawVersions target fetchMethod Hc Ht Hr)
    as [r E].
  exists r. split; [exact E|].
  destruct (buildResult_spec _ _ _ _ _ E) as (_ & (b & -> & _) & _).
  discriminate.
Qed.

Lemma buildResult_total_on_single_lines_witness :
  exists r, buildResult pluginExample rawExample (Some "8.5") "puppeteer" = Ok r /\
            PluginResult.compatible r <> None.
Proof.
  apply (buildResult_total_on_single_lines pluginExample rawExample
           (Some "8.5") "puppeteer"); reflexivity.
Defined.

(** X11.  Without a target version, absent or empty, [buildResult] compares
    nothing and returns on every list of raw records: no version is
    compatible, nothing is recommended, and [compatible] is false. *)
Theorem buildResult_without_target (plugin : Plugin.t)
    (rawVersions : list Raw.t) (target : option string) (fetchMethod : string) :
  truthyO target = false ->
  exists r, buildResult plugin rawVersions target fetchMethod = Ok r /\
    PluginResult.compatible r = Some false /\
    PluginResult.compatibleVersions r = [] /\
    PluginResult.recommendedVersion r = None /\
    PluginResult.compatibleVersionRange r = None /\
    PluginResult.totalVersionsChecked r = Some (List.length rawVersions).
Proof.
  intros Ht. unfold buildResult.
  rewrite (keepCompatible_no_target _ rawVersions Ht). cbn.
  eexists. split; [reflexivity|]. repeat split.
Qed.

Lemma buildResult_without_target_witness :
  exists r, buildResult pluginTwoLines rawExample None "rest-api" = Ok r /\
    PluginResult.compatible r = Some false /\
    PluginResult.compatibleVersions r = [] /\
    PluginResult.recommendedVersion r = None /\
    PluginResult.compatibleVersionRange r = None /\
    PluginResult.totalVersionsChecked r = Some (List.length rawExample).
Proof.
  apply (buildResult_without_target pluginTwoLines rawExample None "rest-api").
  reflexivity.
Defined.

(* ===================================================================== *)
(** ** The browser tier *)
(* ===================================================================== *)

Section BrowserTier.

Lemma rowToRaw_returns row :
  exists raw, rowToRaw row = Ok raw /\
    Raw.version raw = Row.version row /\
    Raw.compatibility raw = Some (Row.compatibility row) /\
    match Raw.minVersion raw, Raw.maxVersion raw with
    | Some lo, Some hi => versionLe lo hi /\ lo <> "" /\ hi <> ""
    | None, None => True
    | _, _ => False
    end /\
    resolveBounds raw = Ok (Raw.minVersion raw, Raw.maxVersion raw).
Proof.
  unfold rowToRaw.
  destruct (parseCompatibilityString_returns (Some (Row.compatibility row)))
    as (p & Ep & Hp).
  rewrite Ep. cbn [bind]. eexists. split; [reflexivity|].
  cbn [Raw.version Raw.compatibility Raw.minVersion Raw.maxVersion].
  split; [reflexivity|]. split; [reflexivity|].
  unfold resolveBounds.
  cbn [Raw.version Raw.compatibility Raw.minVersion Raw.maxVersion].
  destruct (Parsed.minVersion p) as [lo|] eqn:El,
           (Parsed.maxVersion p) as [hi|] eqn:Eh; try contradiction.
  - assert (lo <> "" /\ hi <> "") as [Nl Nh].
    { revert Ep. unfold parseCompatibilityString.
      pose proof (extractVersionTokens_tokens
                    (trim (orEmpty (Some (Row.compatibility row)))))
        as [_ Hs].
      rewrite Forall_forall in Hs.
      assert (forall t, In t (extractVersionTokens
                                (trim (orEmpty (Some (Row.compatibility row)))))
                        -> t <> "") as Hne.
      { intros t Ht ->. destruct (Hs _ Ht) as (_ & H & _). discriminate H. }
      destruct (negb _); [intros [= <-]; discriminate El|].
      destruct (extractVersionTokens _) as [|t0 [|t1 rest]] eqn:Et.
      - intros [= <-]; discriminate El.
      - intros [= <-]. simpl in El, Eh. injection El as <-. injection Eh as <-.
        split; apply Hne; now left.
      - assert (In (last (t0 :: t1 :: rest) "") (t0 :: t1 :: rest)) as Hl
          by (apply last_In; discriminate).
        destruct (compareVersions t0 _); cbn [bind]; [|discriminate].
        destruct (_ >? _)%Z; intros [= <-]; simpl in El, Eh;
          injection El as <-; injection Eh as <-;
          split; apply Hne; auto; now left. }
    split; [auto|].
    apply String.eqb_neq in Nl, Nh. cbn [truthyO]. unfold truthy.
    now rewrite Nl, Nh.
  - split; [exact I|]. cbn [truthyO negb orb]. rewrite Ep. cbn [bind].
    now rewrite El, Eh.
Qed.

Lemma mapR_rowToRaw rows :
  exists versions, mapR rowToRaw rows = Ok versions /\
    Forall2 (fun row raw => rowToRaw row = Ok raw) rows versions.
Proof.
  induction rows as [|row rows (vs & E & F)]; simpl; [eauto|].
  destruct (rowToRaw_returns row) as (raw & Er & _).
  rewrite Er, E. cbn [bind]. eauto.
Qed.

End BrowserTier.

(** X12.  The browser client throws what the browser work has thrown, and
    throws on an empty list of rows.  Otherwise it returns one record per
    row, in order, with the version and the compatibility text of the row;
    the bounds of a record are both absent, or both present, non-empty and
    in order; and resolving the bounds again, as the result builder does,
    gives the bounds the record already has. *)
Theorem fetchFromPuppeteer_records (up : Upstream) (pageUrl pluginName : string) :
  match renderedRows up pageUrl with
  | Throw e => outcome (fetchFromPuppeteer up pageUrl pluginName) = Throw e
  | Ok [] =>
      outcome (fetchFromPuppeteer up pageUrl pluginName)
      = Throw (Error "No rows found. DOM selector mismatch.")
  | Ok rows =>
      exists versions,
        outcome (fetchFromPuppeteer up pageUrl pluginName) = Ok versions /\
        Forall2
          (fun row raw =>
             Raw.version raw = Row.version row /\
             Raw.compatibility raw = Some (Row.compatibility row) /\
             match Raw.minVersion raw, Raw.maxVersion raw with
             | Some lo, Some hi => versionLe lo hi /\ lo <> "" /\ hi <> ""
             | None, None => True
             | _, _ => False
             end /\
             resolveBounds raw = Ok (Raw.minVersion raw, Raw.maxVersion raw))
          rows versions
  end.
Proof.
  unfold fetchFromPuppeteer.
  destruct (renderedRows up pageUrl) as [[|row rows]|e]; [reflexivity| |reflexivity].
  destruct (mapR_rowToRaw (row :: rows)) as (versions & E & F).
  exists versions. split.
  - cbn [bindM emit liftR progressCallback outcome events isEmpty].
    now rewrite E.
  - revert F. apply Forall2_impl.
    intros r v Hv. destruct (rowToRaw_returns r) as (raw & Er & H).
    rewrite Er in Hv. injection Hv as <-. exact H.
Qed.

(* ===================================================================== *)
(** ** The entries and the events of a batch *)
(* ===================================================================== *)

Section BatchEntries.

Variable pathname : string -> Result string.

Lemma fetchAllVersions_method up plugin versions method :
  outcome (fetchAllVersions pathname up plugin) = Ok (versions, method) ->
  method = "initial-state" \/ method = "rest-api" \/ method = "puppeteer".
Proof.
  unfold fetchAllVersions, tryPuppeteer.
  set (m1 := fetchFromInitialState up _).
  set (m2 := fetchFromAPI up _).
  set (m3 := fetchFromPuppeteer up _ _).
  clearbody m1 m2 m3.
  destruct m1 as [ev1 [v1|e1]], m2 as [ev2 [v2|e2]], m3 as [ev3 [v3|e3]];
    destruct (truthyO _ || truthyO _);
    cbn [tryCatch bindM ret throw events outcome];
    intros H; try discriminate H; injection H as <- <-; auto.
Qed.

Lemma entryFor_error targetDCVersion up plugin :
  let r := entryFor pathname targetDCVersion up plugin in
  PluginResult.targetDCVersion r = targetDCVersion /\
  (PluginResult.compatible r = None <-> PluginResult.error r <> None) /\
  (PluginResult.compatible r = None <-> PluginResult.fetchMethod r = "failed") /\
  (PluginResult.compatible r = None ->
   PluginResult.compatibleVersions r = [] /\
   PluginResult.recommendedVersion r = None /\
   PluginResult.compatibleVersionRange r = None).
Proof.
  unfold entryFor.
  assert (forall err,
            let r := failedResult plugin targetDCVersion err in
            PluginResult.targetDCVersion r = targetDCVersion /\
            (PluginResult.compatible r = None <-> PluginResult.error r <> None) /\
            (PluginResult.compatible r = None <->
             PluginResult.fetchMethod r = "failed") /\
            (PluginResult.compatible r = None ->
             PluginResult.compatibleVersions r = [] /\
             PluginResult.recommendedVersion r = None /\
             PluginResult.compatibleVersionRange r = None)) as Failed.
  { intros err. cbn. repeat split; auto; discriminate. }
  destruct (outcome (fetchAllVersions pathname up plugin))
    as [[versions method]|err] eqn:Ef; [|apply Failed].
  destruct (buildResult plugin versions targetDCVersion method) as [r|err] eqn:E;
    [|apply Failed].
  destruct (buildResult_sorted _ _ _ _ _ E) as (_ & _ & Herr & Hm).
  destruct (buildResult_spec _ _ _ _ _ E) as (_ & (b & Hb & _) & _).
  cbn zeta. rewrite Hb, Herr, Hm.
  assert (PluginResult.targetDCVersion r = targetDCVersion) as Ht.
  { unfold buildResult in E.
    repeat match type of E with
           | bind ?x _ = Ok _ => destruct x; cbn [bind] in E; [|discriminate E]
           end.
    now injection E as <-. }
  split; [exact Ht|].
  split; [split; [discriminate|congruence]|].
  split; [|discriminate].
  split; [discriminate|]. intros ->.
  destruct (fetchAllVersions_method _ _ _ _ Ef) as [H|[H|H]]; discriminate H.
Qed.

End BatchEntries.

(** X13.  Once the browser is launched the batch never throws, whatever
    the clients and the result builder throw.  It returns one entry per
    plugin, in the order of the plugins; an entry carries the name, the URL
    and the current version of its plugin and the target version of the
    batch.  In an entry
    [compatible] is null exactly when an error message is set, and exactly
    when the fetch method is "failed"; such an entry has no compatible
    version, no recommendation and no range. *)
Theorem checkCompatibility_entries (pathname : string -> Result string)
    (upstreamAt : nat -> Upstream) (plugins : list Plugin.t)
    (targetDCVersion : option string) :
  exists results,
    outcome (checkCompatibility pathname upstreamAt plugins targetDCVersion)
    = Ok results /\
    Forall2
      (fun plugin r =>
         PluginResult.pluginName r = Plugin.name plugin /\
         PluginResult.pluginUrl r = Plugin.marketplaceUrl plugin /\
         PluginResult.currentVersion r = Plugin.currentVersion plugin /\
         PluginResult.targetDCVersion r = targetDCVersion /\
         (PluginResult.compatible r = None <-> PluginResult.error r <> None) /\
         (PluginResult.compatible r = None <->
          PluginResult.fetchMethod r = "failed") /\
         (PluginResult.compatible r = None ->
          PluginResult.compatibleVersions r = [] /\
          PluginResult.recommendedVersion r = None /\
          PluginResult.compatibleVersionRange r = None))
      plugins results.
Proof.
  exists (entriesFrom pathname upstreamAt targetDCVersion 0 plugins).
  split; [apply checkCompatibility_outcome|].
  generalize 0. induction plugins as [|plugin rest IH]; intros i;
    cbn [entriesFrom]; constructor; [|apply IH].
  destruct (entryFor_identity pathname targetDCVersion (upstreamAt i) plugin)
    as (H1 & H2 & H3).
  destruct (entryFor_error pathname targetDCVersion (upstreamAt i) plugin)
    as (H4 & H5 & H6 & H7).
  repeat split; try assumption; try apply H5; try apply H6; apply H7;
    assumption.
Qed.

Section BatchEvents.

Variable P : Event -> Prop.

Lemma events_bindM {A B} (m : M A) (k : A -> M B) :
  Forall P (events m) -> (forall a, Forall P (events (k a))) ->
  Forall P (events (bindM m k)).
Proof.
  intros Hm Hk. unfold bindM. destruct (outcome m); cbn [events]; [|exact Hm].
  apply Forall_app. auto.
Qed.

Lemma events_tryCatch {A} (m : M A) (h : exn -> M A) :
  Forall P (events m) -> (forall e, Forall P (events (h e))) ->
  Forall P (events (tryCatch m h)).
Proof.
  intros Hm Hh. unfold tryCatch. destruct (outcome m); cbn [events]; [exact Hm|].
  apply Forall_app. auto.
Qed.

Lemma events_pure {A} (r : Result A) : Forall P (events (liftR r)).
Proof. constructor. Qed.

Lemma events_emit ev : P ev -> Forall P (events (emit ev)).
Proof. intros H. repeat constructor. exact H. Qed.

End BatchEvents.

Ltac client_events :=
  repeat first
    [ apply events_bindM; [|intros ?]
    | apply events_tryCatch; [|intros ?]
    | apply events_pure
    | apply events_emit; reflexivity
    | match goal with
      | |- Forall _ (events (if ?b then _ else _)) => destruct b
      | |- Forall _ (events (ret _)) => constructor
      | |- Forall _ (events (throw _)) => constructor
      end ].

Section BatchEvents2.

Variable pathname : string -> Result string.
Variable upstreamAt : nat -> Upstream.
Variable targetDCVersion : option string.

Lemma fetchAllVersions_events up plugin :
  Forall (fun ev => isClientEvent ev = true)
         (events (fetchAllVersions pathname up plugin)).
Proof.
  unfold fetchAllVersions, tryPuppeteer, fetchFromInitialState, fetchFromAPI,
    fetchFromPuppeteer, progressCallback.
  client_events.
Qed.

Lemma processPlugin_events up plugin :
  Forall (fun ev => isClientEvent ev = true)
         (events (processPlugin pathname up plugin targetDCVersion)).
Proof.
  unfold processPlugin, progressCallback.
  apply events_tryCatch; [|intros ?; client_events].
  apply events_bindM; [apply fetchAllVersions_events|intros ?].
  client_events.
Qed.

Lemma client_events_quiet evs :
  Forall (fun ev => isClientEvent ev = true) evs ->
  browserEvents evs = [] /\ sleepsOf evs = [].
Proof.
  induction 1 as [|ev evs Hev _ [IH1 IH2]]; [split; reflexivity|].
  destruct ev; try discriminate Hev; simpl; auto.
Qed.

Lemma browserEvents_app a b :
  browserEvents (a ++ b) = (browserEvents a ++ browserEvents b)%list.
Proof. apply filter_app. Qed.

Lemma sleepsOf_app a b : sleepsOf (a ++ b) = (sleepsOf a ++ sleepsOf b)%list.
Proof. apply flat_map_app. Qed.

Lemma client_event_cons ev evs :
  isClientEvent ev = true ->
  browserEvents (ev :: evs) = browserEvents evs /\
  sleepsOf (ev :: evs) = sleepsOf evs.
Proof. destruct ev; try discriminate; split; reflexivity. Qed.

Lemma sleep_cons ms evs :
  browserEvents (Sleep ms :: evs) = browserEvents evs /\
  sleepsOf (Sleep ms :: evs) = ms :: sleepsOf evs.
Proof. split; reflexivity. Qed.

Lemma processFrom_events total i plugins :
  i + List.length plugins = total ->
  browserEvents
    (events (processFrom pathname upstreamAt total i plugins targetDCVersion))
  = [] /\
  sleepsOf
    (events (processFrom pathname upstreamAt total i plugins targetDCVersion))
  = repeat 2000 (List.length plugins - 1).
Proof.
  revert i; induction plugins as [|plugin rest IH]; intros i Hi;
    [split; reflexivity|].
  cbn [processFrom].
  pose proof (processPlugin_events (upstreamAt i) plugin) as Hp.
  pose proof (processPlugin_outcome pathname targetDCVersion (upstreamAt i)
                plugin) as Ho.
  destruct (processPlugin pathname (upstreamAt i) plugin targetDCVersion)
    as [evp op]. cbn [outcome events] in Hp, Ho. subst op.
  apply client_events_quiet in Hp as [Hb Hs].
  specialize (IH (S i)). cbn [List.length] in Hi.
  destruct IH as [IHb IHs]; [lia|].
  pose proof (processFrom_outcome pathname upstreamAt targetDCVersion total
                (S i) rest) as Hr.
  destruct (processFrom pathname upstreamAt total (S i) rest targetDCVersion)
    as [evr or]. cbn [outcome events] in IHb, IHs, Hr. subst or.
  unfold progressCallback.
  destruct rest as [|p' rest'].
  - assert ((i <? total - 1)%nat = false) as -> by (apply Nat.ltb_ge; simpl in Hi; lia).
    cbn [bindM emit ret outcome events app]. rewrite app_nil_r.
    rewrite (proj1 (client_event_cons (Progress _) _ eq_refl)),
      (proj2 (client_event_cons (Progress _) _ eq_refl)).
    rewrite !browserEvents_app, !sleepsOf_app, Hb, Hs, IHb, IHs.
    split; reflexivity.
  - assert ((i <? total - 1)%nat = true) as ->
      by (apply Nat.ltb_lt; simpl in Hi; lia).
    cbn [bindM emit ret outcome events app]. rewrite app_nil_r.
    rewrite (proj1 (client_event_cons (Progress _) _ eq_refl)),
      (proj2 (client_event_cons (Progress _) _ eq_refl)).
    rewrite !browserEvents_app, !sleepsOf_app.
    rewrite (proj1 (sleep_cons _ _)), (proj2 (sleep_cons _ _)).
    rewrite Hb, Hs, IHb, IHs.
    cbn [List.length Nat.sub repeat app]. rewrite Nat.sub_0_r.
    split; reflexivity.
Qed.

End BatchEvents2.

Section BatchBlocks.

Variable pathname : string -> Result string.
Variable upstreamAt : nat -> Upstream.
Variable targetDCVersion : option string.

Lemma joinWith_cons {A} (sep : list A) block blocks :
  blocks <> [] ->
  joinWith sep (block :: blocks) = (block ++ sep ++ joinWith sep blocks)%list.
Proof. destruct blocks; [congruence|reflexivity]. Qed.

Lemma processFrom_blocks total i plugins :
  i + List.length plugins = total ->
  exists blocks,
    events (processFrom pathname upstreamAt total i plugins targetDCVersion)
    = joinWith [Sleep 2000] blocks /\
    Forall2
      (fun ip block =>
         exists rest,
           block = Progress ("[" ++ show (fst ip + 1) ++ "/" ++ show total
                             ++ "] Processing: " ++ Plugin.name (snd ip))
                   :: rest /\
           browserEvents rest = [] /\ sleepsOf rest = [])
      (combine (seq i (List.length plugins)) plugins) blocks.
Proof.
  revert i; induction plugins as [|plugin rest IH]; intros i Hi.
  - exists []. split; [reflexivity|constructor].
  - cbn [processFrom].
    pose proof (processPlugin_events pathname targetDCVersion
                  (upstreamAt i) plugin) as Hp.
    pose proof (processPlugin_outcome pathname targetDCVersion (upstreamAt i)
                  plugin) as Ho.
    destruct (processPlugin pathname (upstreamAt i) plugin targetDCVersion)
      as [evp op]. cbn [outcome events] in Hp, Ho. subst op.
    apply client_events_quiet in Hp as [Hb Hs].
    cbn [List.length] in Hi.
    destruct (IH (S i)) as (blocks & Eb & Fb); [lia|].
    pose proof (processFrom_outcome pathname upstreamAt targetDCVersion total
                  (S i) rest) as Hr.
    destruct (processFrom pathname upstreamAt total (S i) rest targetDCVersion)
      as [evr or]. cbn [outcome events] in Eb, Hr. subst or evr.
    unfold progressCallback.
    exists ((Progress ("[" ++ show (i + 1) ++ "/" ++ show total
                       ++ "] Processing: " ++ Plugin.name plugin) :: evp)
            :: blocks).
    split.
    + destruct rest as [|p' rest'].
      * assert ((i <? total - 1)%nat = false) as ->
          by (apply Nat.ltb_ge; simpl in Hi; lia).
        inversion Fb; subst.
        cbn [bindM emit ret outcome events app joinWith].
        now rewrite !app_nil_r.
      * assert ((i <? total - 1)%nat = true) as ->
          by (apply Nat.ltb_lt; simpl in Hi; lia).
        rewrite joinWith_cons
          by (intros ->; cbn in Fb; inversion Fb).
        cbn [bindM emit ret outcome events app].
        now rewrite !app_nil_r.
    + cbn [List.length seq combine]. constructor; [|exact Fb].
      exists evp. cbn [fst snd]. auto.
Qed.

End BatchBlocks.

(** X14.  Every run of the batch first reports that it launches the browser
    and launches it, launches it once, and closes it once, as its last
    event, whatever happened to the plugins.  In between, the run is one
    block of events per plugin, in the order of the plugins, with a pause of
    2000 ms between two consecutive blocks and nowhere else: not before the
    first block and not after the last.  The block of a plugin begins with
    its numbered progress line and holds no pause and no browser event.  So
    the loop pauses once less than there are plugins.  (The waits inside a
    client belong to the request of that client, which an [Upstream]
    answers as a whole.) *)
Theorem checkCompatibility_browser_and_pauses
    (pathname : string -> Result string) (upstreamAt : nat -> Upstream)
    (plugins : list Plugin.t) (targetDCVersion : option string) :
  exists blocks,
    events (checkCompatibility pathname upstreamAt plugins targetDCVersion)
    = (Progress "Launching browser (used only as final fallback)..."
       :: Launch :: joinWith [Sleep 2000] blocks ++ [Close])%list /\
    Forall2
      (fun ip block =>
         exists rest,
           block = Progress ("[" ++ show (fst ip + 1) ++ "/"
                             ++ show (List.length plugins)
                             ++ "] Processing: " ++ Plugin.name (snd ip))
                   :: rest /\
           browserEvents rest = [] /\ sleepsOf rest = [])
      (combine (seq 0 (List.length plugins)) plugins) blocks /\
    browserEvents (joinWith [Sleep 2000] blocks) = [] /\
    sleepsOf (joinWith [Sleep 2000] blocks)
    = repeat 2000 (List.length plugins - 1).
Proof.
  unfold checkCompatibility, progressCallback.
  destruct (processFrom_events pathname upstreamAt targetDCVersion
              (List.length plugins) 0 plugins eq_refl) as [Hb Hs].
  destruct (processFrom_blocks pathname upstreamAt targetDCVersion
              (List.length plugins) 0 plugins eq_refl) as (blocks & Eb & Fb).
  pose proof (processFrom_outcome pathname upstreamAt targetDCVersion
                (List.length plugins) 0 plugins) as Ho.
  destruct (processFrom pathname upstreamAt (List.length plugins) 0 plugins
              targetDCVersion) as [evs o].
  cbn [outcome events] in Hb, Hs, Eb, Ho. subst o evs.
  exists blocks. cbn [bindM emit ret outcome events app]. auto.
Qed.

(* ===================================================================== *)
(** ** The walk of the initial state *)
(* ===================================================================== *)

Section StateWalk.

Lemma extractVersionFromStateNode_entry node versionStr e :
  extractVersionFromStateNode node versionStr = Ok (Some e) ->
  toStr versionStr = Ok (StateEntry.version e) /\
  truthyJ (StateEntry.minVersion e) = true /\
  truthyJ (StateEntry.maxVersion e) = true /\
  exists lo hi,
    toStr (StateEntry.minVersion e) = Ok lo /\
    toStr (StateEntry.maxVersion e) = Ok hi /\
    StateEntry.compatibility e = rangeText lo hi.
Proof.
  unfold extractVersionFromStateNode.
  destruct (get node "_embedded") as [embedded|]; cbn [bind];
    [|intros H; discriminate H].
  destruct (findR isDataCenter _) as [[dc|]|]; cbn [bind];
    try (intros H; discriminate H).
  set (min := orJ (orV (orV (prop "min" dc) _) _) _).
  set (max := orJ (orV (orV (prop "max" dc) _) _) _).
  destruct (truthyJ min) eqn:Tmin; cbn [negb orb];
    [|intros H; discriminate H].
  destruct (truthyJ max) eqn:Tmax; cbn [negb orb];
    [|intros H; discriminate H].
  destruct (toStr versionStr) as [version|]; cbn [bind];
    [|intros H; discriminate H].
  destruct (toStr min) as [lo|] eqn:Elo; cbn [bind];
    [|intros H; discriminate H].
  destruct (toStr max) as [hi|] eqn:Ehi; cbn [bind];
    [|intros H; discriminate H].
  intros H. injection H as <-. cbn.
  repeat split; try assumption. exists lo, hi. auto.
Qed.

Lemma versionNode_entry node e :
  versionNode node = Ok (Some e) -> entryOk e.
Proof.
  unfold versionNode.
  set (versionStr := orJ _ _).
  destruct (truthyJ versionStr); [|intros H; discriminate H].
  destruct (toStr versionStr) as [s|] eqn:Es; cbn [bind];
    [|intros H; discriminate H].
  destruct (startsMajorMinor s) eqn:Em; cbn [andb];
    [|intros H; discriminate H].
  destruct (String.length s <? 25)%nat eqn:El; [|intros H; discriminate H].
  intros H. apply extractVersionFromStateNode_entry in H.
  destruct H as (Hv & Hrest). rewrite Es in Hv. injection Hv as Hv.
  unfold entryOk. rewrite <- Hv.
  split; [exact Em|]. split; [now apply Nat.ltb_lt|]. exact Hrest.
Qed.

End StateWalk.

(** X15.  Every record that the walk collects, from any document and at any
    depth, has a version that starts with digits, a dot and a digit and is
    shorter than 25 characters, has two truthy bounds, and has as its
    compatibility text the two bounds around a dash. *)
Theorem walkInitialState_collects_version_records
    (node : Json) (depth : nat) (entries : list StateEntry.t) :
  walkInitialState node depth = Ok entries -> Forall entryOk entries.
Proof.
  revert depth entries.
  induction node using Json_induction; intros depth entries;
    try (cbn; intros E; injection E as <-; constructor).
  - cbn [walkInitialState].
    destruct (15 <? depth)%nat; [intros E; injection E as <-; constructor|].
    revert entries. induction H as [|item rest Hitem _ IH]; intros entries.
    + intros E; injection E as <-; constructor.
    + destruct (walkInitialState item (S depth)) as [a|] eqn:Ea; cbn [bind];
        [|intros E; discriminate E].
      match goal with
      | |- context [bind ?r _] => destruct r as [b|] eqn:Eb
      end; cbn [bind]; [|intros E; discriminate E].
      intros E; injection E as <-. apply Forall_app. split.
      * exact (Hitem _ _ Ea).
      * exact (IH _ eq_refl).
  - cbn [walkInitialState].
    destruct (15 <? depth)%nat; [intros E; injection E as <-; constructor|].
    destruct (versionNode (JObj props)) as [[e|]|] eqn:Ev; cbn [bind];
      [| |intros E; discriminate E].
    + intros E; injection E as <-. constructor; [|constructor].
      exact (versionNode_entry _ _ Ev).
    + clear Ev. revert entries.
      induction H as [|[key value] rest Hvalue _ IH]; intros entries.
      * intros E; injection E as <-; constructor.
      * cbn [snd] in Hvalue.
        destruct (walkInitialState value (S depth)) as [a|] eqn:Ea; cbn [bind];
          [|intros E; discriminate E].
        match goal with
        | |- context [bind ?r _] => destruct r as [b|] eqn:Eb
        end; cbn [bind]; [|intros E; discriminate E].
        intros E; injection E as <-. apply Forall_app. split.
        -- exact (Hvalue _ _ Ea).
        -- exact (IH _ eq_refl).
Qed.

Lemma walkInitialState_collects_version_records_witness :
  exists e, walkInitialState stateExample 0 = Ok [e] /\
            StateEntry.compatibility e = "8.0 - 9" /\
            Forall entryOk [e].
Proof.
  eexists. split; [reflexivity|]. split; [reflexivity|].
  apply (walkInitialState_collects_version_records stateExample 0).
  reflexivity.
Defined.
Section WalkDepth.

Lemma walkInitialState_cut node depth :
  15 < depth -> walkInitialState node depth = Ok [].
Proof.
  intros H. apply Nat.ltb_lt in H.
  destruct node; cbn [walkInitialState]; try reflexivity; now rewrite H.
Qed.

Lemma walkInitialState_fits node :
  forall d d', d + height node <= 16 -> d' + height node <= 16 ->
               walkInitialState node d = walkInitialState node d'.
Proof.
  induction node using Json_induction; intros d d' Hd Hd'; try reflexivity.
  - cbn [walkInitialState height] in *.
    assert ((15 <? d)%nat = false) as -> by (apply Nat.ltb_ge; lia).
    assert ((15 <? d')%nat = false) as -> by (apply Nat.ltb_ge; lia).
    revert Hd Hd'. induction H as [|item rest Hitem _ IH]; intros Hd Hd';
      [reflexivity|].
    rewrite (Hitem (S d) (S d')) by lia.
    rewrite IH by lia. reflexivity.
  - cbn [walkInitialState height] in *.
    assert ((15 <? d)%nat = false) as -> by (apply Nat.ltb_ge; lia).
    assert ((15 <? d')%nat = false) as -> by (apply Nat.ltb_ge; lia).
    destruct (versionNode (JObj props)) as [[e|]|]; cbn [bind]; try reflexivity.
    revert Hd Hd'. induction H as [|[key value] rest Hvalue _ IH];
      intros Hd Hd'; [reflexivity|].
    cbn [snd] in Hvalue.
    rewrite (Hvalue (S d) (S d')) by lia.
    rewrite IH by lia. reflexivity.
Qed.

Lemma bind_app_nil {A} (r : Result (list A)) :
  (a <- r ;; b <- Ok [] ;; Ok (a ++ b)%list) = r.
Proof. destruct r; cbn [bind]; [now rewrite app_nil_r|reflexivity]. Qed.

Lemma walkInitialState_nest n node :
  forall d,
    walkInitialState (nest n node) d
    = if (d + n <=? 15)%nat then walkInitialState node (d + n) else Ok [].
Proof.
  induction n as [|n IH]; intros d.
  - cbn [nest]. rewrite Nat.add_0_r.
    destruct (d <=? 15)%nat eqn:E; [reflexivity|].
    apply walkInitialState_cut. apply Nat.leb_gt in E. lia.
  - cbn [nest walkInitialState].
    destruct (15 <? d)%nat eqn:E.
    + apply Nat.ltb_lt in E.
      assert ((d + S n <=? 15)%nat = false) as -> by (apply Nat.leb_gt; lia).
      reflexivity.
    + rewrite bind_app_nil, IH.
      replace (S d + n) with (d + S n) by lia. reflexivity.
Qed.

End WalkDepth.

(** X16.  The depth at which the walk starts makes no difference to a
    document that fits: when the levels of arrays and objects of the
    document, counted from the starting depth, do not exceed 16, the walk
    collects what it collects from depth 0. *)
Theorem walkInitialState_depth_of_fitting_document (node : Json) (depth : nat) :
  depth + height node <= 16 ->
  walkInitialState node depth = walkInitialState node 0.
Proof.
  intros H. apply walkInitialState_fits; [exact H|]. cbn. lia.
Qed.

Lemma walkInitialState_depth_of_fitting_document_witness :
  height stateExample = 5 /\
  walkInitialState stateExample 11 = walkInitialState stateExample 0.
Proof.
  split; [reflexivity|].
  apply (walkInitialState_depth_of_fitting_document stateExample 11).
  cbn. lia.
Defined.

(** X17.  The walk looks at a node that lies under [n] arrays when [n] is at
    most 15, as it would look at it from depth [n]; under 16 arrays or more
    it collects nothing, whatever the node holds. *)
Theorem walkInitialState_stops_below_level_15 (n : nat) (node : Json) :
  walkInitialState (nest n node) 0
  = if (n <=? 15)%nat then walkInitialState node n else Ok [].
Proof. apply (walkInitialState_nest n node 0). Qed.

(** X18.  A [null] at the head of the embedded compatibilities of a
    version-like object makes the walk throw the [TypeError] of reading
    [hosting] of [null], at any depth the walk reaches.  When the object is
    the state of the page, the exception leaves [fetchFromInitialState]:
    nothing is collected from the document. *)
Theorem walkInitialState_null_candidate
    (props emb : list (string * Json)) (rest : list Json) (v : string)
    (depth : nat) :
  depth <= 15 ->
  assoc "name" props = Some (JStr v) ->
  startsMajorMinor v = true ->
  String.length v < 25 ->
  assoc "_embedded" props = Some (JObj emb) ->
  assoc "compatibilities" emb = Some (JArr (JNull :: rest)) ->
  walkInitialState (JObj props) depth
  = Throw (TypeError "Cannot read properties of null (reading 'hosting')") /\
  forall stateJson pageUrl,
    stateJson pageUrl = Ok (JObj props) ->
    outcome (OnJson.fetchFromInitialState stateJson pageUrl)
    = Throw (TypeError "Cannot read properties of null (reading 'hosting')").
Proof.
  intros Hd Hname Hv Hl Hemb Hc.
  assert (forall d, d <= 15 ->
            walkInitialState (JObj props) d
            = Throw (TypeError
                       "Cannot read properties of null (reading 'hosting')"))
    as Hw.
  { intros d Hd'. cbn [walkInitialState].
    assert ((15 <? d)%nat = false) as -> by (apply Nat.ltb_ge; lia).
    assert (truthy v = true) as Tv
      by (destruct v; [discriminate Hv|reflexivity]).
    unfold versionNode. cbn [prop]. rewrite Hname.
    assert (orJ (orV (Some (JStr v)) (assoc "version" props)) (JStr "")
            = JStr v)
      as -> by (unfold orV; cbn [truthyV truthyJ]; rewrite Tv;
                cbn [orJ truthyJ]; now rewrite Tv).
    cbn [truthyJ]. rewrite Tv. cbn [toStr bind]. rewrite Hv.
    apply Nat.ltb_lt in Hl. rewrite Hl. cbn [andb].
    unfold extractVersionFromStateNode. cbn [get prop bind]. rewrite Hemb.
    cbn [orJ truthyJ prop]. rewrite Hc. reflexivity. }
  split; [exact (Hw depth Hd)|].
  intros stateJson pageUrl Hs. unfold OnJson.fetchFromInitialState.
  cbn [bindM emit liftR progressCallback outcome events].
  rewrite Hs. cbn [bindM liftR outcome events].
  rewrite (Hw 0) by lia. reflexivity.
Qed.

Lemma walkInitialState_null_candidate_witness :
  walkInitialState
    (JObj [("name", JStr "1.0");
           ("_embedded", JObj [("compatibilities", JArr [JNull])])]) 3
  = Throw (TypeError "Cannot read properties of null (reading 'hosting')") /\
  forall stateJson pageUrl,
    stateJson pageUrl
    = Ok (JObj [("name", JStr "1.0");
                ("_embedded", JObj [("compatibilities", JArr [JNull])])]) ->
    outcome (OnJson.fetchFromInitialState stateJson pageUrl)
    = Throw (TypeError "Cannot read properties of null (reading 'hosting')").
Proof.
  apply (walkInitialState_null_candidate _ [("compatibilities", JArr [JNull])]
           [] "1.0" 3); try reflexivity; cbn; lia.
Defined.
(* ===================================================================== *)
(** ** The pages of the REST listing *)
(* ===================================================================== *)

Section RestPages.

Variable httpGetJson : string -> Result Json.
Variable resourceKey : string.

Lemma requestedUrls_app a b :
  requestedUrls (a ++ b) = (requestedUrls a ++ requestedUrls b)%list.
Proof. apply flat_map_app. Qed.

Lemma sleepsOf_append a b : sleepsOf (a ++ b) = (sleepsOf a ++ sleepsOf b)%list.
Proof. apply flat_map_app. Qed.

Lemma requestedUrls_sleep ms evs :
  requestedUrls (Sleep ms :: evs) = requestedUrls evs.
Proof. reflexivity. Qed.

Lemma sleepsOf_sleep ms evs : sleepsOf (Sleep ms :: evs) = ms :: sleepsOf evs.
Proof. reflexivity. Qed.

Lemma requestPage_events offset :
  requestedUrls (events (OnJson.requestPage httpGetJson resourceKey offset))
  = [OnJson.apiUrl resourceKey offset] /\
  sleepsOf (events (OnJson.requestPage httpGetJson resourceKey offset)) = [].
Proof.
  unfold OnJson.requestPage.
  assert (forall (first : M unit) url,
            requestedUrls (events first) = [] -> sleepsOf (events first) = [] ->
            outcome first = Ok tt ->
            let m :=
              first ;;> emit (Request RestApi url) ;;>
              data <~ liftR (httpGetJson url) ;;
              items <~ liftR (OnJson.itemsOf data) ;;
              if isEmpty items then ret ([], false)
              else
                found <~ liftR (mapR OnJson.entryOfItem items) ;;
                ret (somes found,
                     negb (List.length items <? OnJson.LIMIT)%nat) in
            requestedUrls (events m) = [url] /\ sleepsOf (events m) = [])
    as H.
  { intros [evs o] url Hu Hs Ho. cbn [events outcome] in *. subst o.
    cbn [bindM emit liftR events outcome].
    destruct (httpGetJson url) as [data|];
      cbn [bindM emit liftR events outcome].
    - destruct (OnJson.itemsOf data) as [[|item items]|];
        cbn [bindM emit liftR ret events outcome isEmpty].
      + rewrite !app_nil_r, requestedUrls_app, sleepsOf_append, Hu, Hs.
        split; reflexivity.
      + destruct (mapR OnJson.entryOfItem (item :: items));
          cbn [bindM emit liftR ret events outcome];
          rewrite ?app_nil_r, requestedUrls_app, sleepsOf_append, Hu, Hs;
          split; reflexivity.
      + rewrite ?app_nil_r, requestedUrls_app, sleepsOf_append, Hu, Hs.
        split; reflexivity.
    - rewrite ?app_nil_r, requestedUrls_app, sleepsOf_append, Hu, Hs.
      split; reflexivity. }
  apply H; destruct (offset =? 0)%nat; reflexivity.
Qed.

Lemma requestPages_run :
  forall k i fuel,
    (forall j, j < k -> goesOn httpGetJson resourceKey (i + j) = true) ->
    goesOn httpGetJson resourceKey (i + k) = false ->
    k < fuel ->
    exists m,
      OnJson.requestPages httpGetJson fuel resourceKey (i * OnJson.LIMIT) = Some m /\
      requestedUrls (events m)
      = map (fun j => OnJson.apiUrl resourceKey (j * OnJson.LIMIT)) (seq i (S k)) /\
      sleepsOf (events m) = repeat 400 k /\
      outcome m
      = match outcome (OnJson.requestPage httpGetJson resourceKey
                         ((i + k) * OnJson.LIMIT)) with
        | Ok _ => Ok (flat_map (pageEntries httpGetJson resourceKey) (seq i (S k)))
        | Throw e => Throw e
        end.
Proof.
  induction k as [|k IH]; intros i fuel Hfull Hstop Hfuel;
    (destruct fuel as [|fuel]; [lia|]).
  - rewrite Nat.add_0_r in *. cbn [OnJson.requestPages seq map flat_map repeat].
    unfold goesOn in Hstop. unfold pageEntries.
    destruct (requestPage_events (i * OnJson.LIMIT)) as [Hu Hs].
    destruct (OnJson.requestPage httpGetJson resourceKey (i * OnJson.LIMIT))
      as [evs [[es more]|e]]; cbn [outcome events] in *.
    + subst more. eexists. split; [reflexivity|].
      cbn [bindM ret outcome events fst]. rewrite !app_nil_r. auto.
    + eexists. split; [reflexivity|].
      cbn [bindM ret outcome events]. auto.
  - pose proof (Hfull 0 ltac:(lia)) as H0. rewrite Nat.add_0_r in H0.
    destruct (IH (S i) fuel) as (rest & Er & Hur & Hsr & Hor).
    { intros j Hj. replace (S i + j) with (i + S j) by lia. apply Hfull. lia. }
    { replace (S i + k) with (i + S k) by lia. exact Hstop. }
    { lia. }
    replace (S i + k) with (i + S k) in Hor by lia.
    cbn [OnJson.requestPages].
    replace (i * OnJson.LIMIT + OnJson.LIMIT) with (S i * OnJson.LIMIT) by lia.
    rewrite Er. unfold goesOn in H0.
    change (seq i (S (S k))) with (i :: seq (S i) (S k)).
    cbn [map flat_map repeat]. unfold pageEntries at 1.
    destruct (requestPage_events (i * OnJson.LIMIT)) as [Hu Hs].
    destruct (OnJson.requestPage httpGetJson resourceKey (i * OnJson.LIMIT))
      as [evs [[es more]|e]]; cbn [outcome events] in *; [|discriminate H0].
    subst more. eexists. split; [reflexivity|].
    destruct rest as [evr or]. cbn [outcome events] in *.
    cbn [bindM emit ret outcome events].
    destruct or as [more|e]; cbn [bindM emit ret outcome events app];
      rewrite ?app_nil_r;
      rewrite requestedUrls_app, sleepsOf_append, Hu, Hs;
      rewrite requestedUrls_sleep, sleepsOf_sleep, Hur, Hsr;
      (split; [reflexivity|split; [reflexivity|]]);
      destruct (outcome (OnJson.requestPage httpGetJson resourceKey
                           ((i + S k) * OnJson.LIMIT)));
      try discriminate Hor; injection Hor as ->; reflexivity.
Qed.

Lemma requestPages_endless :
  (forall j, goesOn httpGetJson resourceKey j = true) ->
  forall fuel i,
    OnJson.requestPages httpGetJson fuel resourceKey (i * OnJson.LIMIT) = None.
Proof.
  intros Hfull. induction fuel as [|fuel IH]; intros i; [reflexivity|].
  cbn [OnJson.requestPages].
  pose proof (Hfull i) as H. unfold goesOn in H.
  destruct (outcome (OnJson.requestPage httpGetJson resourceKey (i * OnJson.LIMIT)))
    as [[es more]|e]; [|discriminate H].
  subst more.
  replace (i * OnJson.LIMIT + OnJson.LIMIT) with (S i * OnJson.LIMIT) by lia.
  now rewrite IH.
Qed.

End RestPages.
Section RestBlocks.

Variable httpGetJson : string -> Result Json.
Variable resourceKey : string.

Lemma requestPage_readPage offset :
  outcome (OnJson.requestPage httpGetJson resourceKey offset)
  = (p <- readPage httpGetJson (OnJson.apiUrl resourceKey offset) ;;
     Ok (somes (snd p), negb (List.length (fst p) <? 50)%nat)).
Proof.
  unfold OnJson.requestPage, readPage.
  destruct (offset =? 0)%nat;
    cbn [bindM emit ret liftR progressCallback events outcome];
    (destruct (httpGetJson _) as [data|];
     cbn [bindM emit ret liftR events outcome bind]; [|reflexivity]);
    (destruct (OnJson.itemsOf data) as [[|item items]|];
     cbn [bindM emit ret liftR events outcome bind isEmpty];
     [reflexivity| |reflexivity]);
    (destruct (mapR OnJson.entryOfItem (item :: items)) as [found|];
     cbn [bindM emit ret liftR events outcome bind]; reflexivity).
Qed.

Lemma goesOn_readPage j :
  goesOn httpGetJson resourceKey j
  = match readPage httpGetJson (OnJson.apiUrl resourceKey (j * 50)) with
    | Ok (items, _) => negb (List.length items <? 50)%nat
    | Throw _ => false
    end.
Proof.
  unfold goesOn. change OnJson.LIMIT with 50. rewrite requestPage_readPage.
  destruct (readPage _ _) as [[items found]|]; reflexivity.
Qed.

Lemma pageEntries_readPage j :
  pageEntries httpGetJson resourceKey j
  = match readPage httpGetJson (OnJson.apiUrl resourceKey (j * 50)) with
    | Ok (_, found) => somes found
    | Throw _ => []
    end.
Proof.
  unfold pageEntries. change OnJson.LIMIT with 50. rewrite requestPage_readPage.
  destruct (readPage _ _) as [[items found]|]; reflexivity.
Qed.

Lemma requestPages_blocks :
  forall k i fuel,
    (forall j, j < k -> goesOn httpGetJson resourceKey (i + j) = true) ->
    goesOn httpGetJson resourceKey (i + k) = false ->
    k < fuel ->
    exists m blocks,
      OnJson.requestPages httpGetJson fuel resourceKey (i * 50) = Some m /\
      events m = joinWith [Sleep 400] blocks /\
      Forall2
        (fun j block =>
           requestedUrls block = [OnJson.apiUrl resourceKey (j * 50)] /\
           sleepsOf block = [])
        (seq i (S k)) blocks.
Proof.
  induction k as [|k IH]; intros i fuel Hfull Hstop Hfuel;
    (destruct fuel as [|fuel]; [lia|]).
  - rewrite Nat.add_0_r in *. cbn [OnJson.requestPages].
    unfold goesOn in Hstop. change OnJson.LIMIT with 50 in Hstop.
    destruct (requestPage_events httpGetJson resourceKey (i * 50)) as [Hu Hs].
    destruct (OnJson.requestPage httpGetJson resourceKey (i * 50))
      as [evs [[es more]|e]]; cbn [outcome events] in *.
    + subst more. eexists. exists [evs]. split; [reflexivity|].
      cbn [bindM ret outcome events fst joinWith]. rewrite app_nil_r.
      split; [reflexivity|]. repeat constructor; assumption.
    + eexists. exists [evs]. split; [reflexivity|].
      cbn [bindM ret outcome events joinWith].
      split; [reflexivity|]. repeat constructor; assumption.
  - pose proof (Hfull 0 ltac:(lia)) as H0. rewrite Nat.add_0_r in H0.
    destruct (IH (S i) fuel) as (rest & blocks & Er & Eb & Fb).
    { intros j Hj. replace (S i + j) with (i + S j) by lia. apply Hfull. lia. }
    { replace (S i + k) with (i + S k) by lia. exact Hstop. }
    { lia. }
    cbn [OnJson.requestPages]. change OnJson.LIMIT with 50.
    replace (i * 50 + 50) with (S i * 50) by lia.
    rewrite Er. unfold goesOn in H0. change OnJson.LIMIT with 50 in H0.
    destruct (requestPage_events httpGetJson resourceKey (i * 50)) as [Hu Hs].
    destruct (OnJson.requestPage httpGetJson resourceKey (i * 50))
      as [evs [[es more]|e]]; cbn [outcome events] in *; [|discriminate H0].
    subst more. eexists. exists (evs :: blocks). split; [reflexivity|].
    split.
    + rewrite joinWith_cons by (intros ->; inversion Fb).
      destruct rest as [evr or]. cbn [events] in Eb. subst evr.
      cbn [bindM emit ret outcome events].
      destruct or as [more|e]; cbn [bindM emit ret outcome events app];
        rewrite ?app_nil_r; reflexivity.
    + change (seq i (S (S k))) with (i :: seq (S i) (S k)).
      constructor; [split; assumption|exact Fb].
Qed.

End RestBlocks.

(** X19.  When each of the pages before page [k] is read without an
    exception and holds 50 items or more, and page [k] holds fewer than 50
    items, none included, or cannot be read, the loop of the REST client
    ends after [k + 1] requests.  Its run is one block of events per
    request, for the offsets 0, 50, ..., 50 k in that order, with a pause of
    400 ms between two consecutive blocks and nowhere else: not after the
    last.  It returns the records read from the items of all the pages, in
    order.  When the last page cannot be read, its exception leaves the loop
    and the records of the pages before are lost. *)
Theorem requestPages_ends_at_first_short_page
    (httpGetJson : string -> Result Json) (resourceKey : string)
    (k fuel : nat) :
  (forall j, j < k ->
     exists items found,
       readPage httpGetJson (OnJson.apiUrl resourceKey (j * 50))
       = Ok (items, found) /\
       50 <= List.length items) ->
  match readPage httpGetJson (OnJson.apiUrl resourceKey (k * 50)) with
  | Ok (items, _) => List.length items < 50
  | Throw _ => True
  end ->
  k < fuel ->
  exists m blocks,
    OnJson.requestPages httpGetJson fuel resourceKey 0 = Some m /\
    events m = joinWith [Sleep 400] blocks /\
    Forall2
      (fun j block =>
         requestedUrls block = [OnJson.apiUrl resourceKey (j * 50)] /\
         sleepsOf block = [])
      (seq 0 (S k)) blocks /\
    requestedUrls (events m)
    = map (fun j => OnJson.apiUrl resourceKey (j * 50)) (seq 0 (S k)) /\
    sleepsOf (events m) = repeat 400 k /\
    outcome m
    = match readPage httpGetJson (OnJson.apiUrl resourceKey (k * 50)) with
      | Ok _ =>
          Ok (flat_map
                (fun j =>
                   match readPage httpGetJson
                           (OnJson.apiUrl resourceKey (j * 50)) with
                   | Ok (_, found) => somes found
                   | Throw _ => []
                   end)
                (seq 0 (S k)))
      | Throw e => Throw e
      end.
Proof.
  intros Hfull Hstop Hfuel.
  assert (forall j, j < k -> goesOn httpGetJson resourceKey (0 + j) = true)
    as Gfull.
  { intros j Hj. cbn [Nat.add]. rewrite goesOn_readPage.
    destruct (Hfull j Hj) as (items & found & -> & Hlen).
    apply negb_true_iff, Nat.ltb_ge. exact Hlen. }
  assert (goesOn httpGetJson resourceKey (0 + k) = false) as Gstop.
  { cbn [Nat.add]. rewrite goesOn_readPage.
    destruct (readPage _ _) as [[items found]|]; [|reflexivity].
    apply negb_false_iff, Nat.ltb_lt. exact Hstop. }
  destruct (requestPages_blocks httpGetJson resourceKey k 0 fuel
              Gfull Gstop Hfuel) as (m & blocks & Em & Eb & Fb).
  destruct (requestPages_run httpGetJson resourceKey k 0 fuel
              Gfull Gstop Hfuel) as (m' & Em' & Hu & Hs & Ho).
  cbn [Nat.mul] in Em, Em'. rewrite Em in Em'. injection Em' as <-.
  exists m, blocks.
  split; [exact Em|]. split; [exact Eb|]. split; [exact Fb|].
  split; [exact Hu|]. split; [exact Hs|].
  rewrite Ho. cbn [Nat.add]. change OnJson.LIMIT with 50.
  rewrite requestPage_readPage.
  destruct (readPage httpGetJson (OnJson.apiUrl resourceKey (k * 50)))
    as [[items found]|e]; cbn [bind]; [|reflexivity].
  f_equal. apply flat_map_ext. intros j. apply pageEntries_readPage.
Qed.

Lemma requestPages_ends_at_first_short_page_witness :
  exists m blocks,
    OnJson.requestPages twoPages 2 "1216863" 0 = Some m /\
    events m = joinWith [Sleep 400] blocks /\
    Forall2
      (fun j block =>
         requestedUrls block = [OnJson.apiUrl "1216863" (j * 50)] /\
         sleepsOf block = [])
      (seq 0 2) blocks /\
    requestedUrls (events m)
    = map (fun j => OnJson.apiUrl "1216863" (j * 50)) (seq 0 2) /\
    sleepsOf (events m) = repeat 400 1 /\
    outcome m
    = match readPage twoPages (OnJson.apiUrl "1216863" (1 * 50)) with
      | Ok _ =>
          Ok (flat_map
                (fun j =>
                   match readPage twoPages (OnJson.apiUrl "1216863" (j * 50)) with
                   | Ok (_, found) => somes found
                   | Throw _ => []
                   end)
                (seq 0 2))
      | Throw e => Throw e
      end.
Proof.
  apply (requestPages_ends_at_first_short_page twoPages "1216863" 1 2).
  - intros j Hj. assert (j = 0) as -> by lia.
    eexists. eexists. split; [vm_compute; reflexivity|].
    vm_compute. lia.
  - vm_compute. lia.
  - lia.
Defined.

(** X20.  The loop of the REST client has no bound of its own: against a
    server that answers every offset with 50 items or more, no number of
    requests ends it, and [fetchFromAPI] does not return. *)
Theorem fetchFromAPI_needs_a_short_page
    (httpGetJson : string -> Result Json) (id : string)
    (slug : option string) (fuel : nat) :
  truthy id = true ->
  (forall j, goesOn httpGetJson id j = true) ->
  OnJson.fetchFromAPI httpGetJson fuel (Identifiers.mk (Some id) slug) = None.
Proof.
  intros Hid Hfull. unfold OnJson.fetchFromAPI.
  cbn [Identifiers.id truthyO orEmpty]. rewrite Hid. cbn [negb].
  pose proof (requestPages_endless httpGetJson id Hfull fuel 0) as H.
  cbn [Nat.mul] in H. now rewrite H, Hid.
Qed.

Lemma fetchFromAPI_needs_a_short_page_witness :
  OnJson.fetchFromAPI fullPages 1000 (Identifiers.mk (Some "1216863") None)
  = None.
Proof.
  apply (fetchFromAPI_needs_a_short_page fullPages "1216863" None 1000).
  - reflexivity.
  - intros j. destruct j; vm_compute; reflexivity.
Defined.
(* ===================================================================== *)
(** ** The rows of the rendered grid *)
(* ===================================================================== *)

Section GridRows.

Lemma allChars_app p a b : allChars p (a ++ b) = allChars p a && allChars p b.
Proof.
  induction a as [|c a IH]; simpl; [reflexivity|].
  now rewrite IH, andb_assoc.
Qed.

Lemma spanDigits_chars s : allChars isTokenChar (fst (spanDigits s)) = true.
Proof.
  induction s as [|c s IH]; simpl; [reflexivity|].
  destruct (isDigit c) eqn:E; [|reflexivity].
  destruct (spanDigits s); simpl in *. rewrite IH, andb_true_r.
  unfold isTokenChar, isAlnum. now rewrite E.
Qed.

Lemma spanVersionChars_chars s :
  allChars isTokenChar (fst (spanVersionChars s)) = true.
Proof.
  induction s as [|c s IH]; simpl; [reflexivity|].
  destruct (isAlnum c || (c =? ".")%char) eqn:E; [|reflexivity].
  destruct (spanVersionChars s); simpl in *. rewrite IH, andb_true_r.
  unfold isTokenChar. exact E.
Qed.

Lemma versionAt_chars s v :
  versionAt s = Some v -> allChars isTokenChar v = true /\ v <> "".
Proof.
  unfold versionAt.
  pose proof (spanDigits_chars s) as Hd.
  destruct (spanDigits s) as [digits rest]; cbn [fst] in Hd.
  destruct (truthy digits) eqn:Td; [|intros H; discriminate H].
  destruct rest as [|c rest']; [intros H; discriminate H|].
  destruct (Ascii.eqb_spec c ".") as [->|N].
  2:{ destruct c as [[] [] [] [] [] [] [] []]; try (intros H; discriminate H).
      contradiction. }
  pose proof (spanVersionChars_chars rest') as Ht.
  destruct (spanVersionChars rest') as [tail after]; cbn [fst] in Ht.
  destruct (truthy tail); [|intros H; discriminate H].
  assert (allChars isTokenChar (digits ++ "." ++ tail) = true /\
          digits ++ "." ++ tail <> "") as R.
  { split.
    - rewrite !allChars_app, Hd, Ht. reflexivity.
    - destruct digits; [discriminate Td|discriminate]. }
  destruct after as [|c after'].
  - intros H; injection H as <-. exact R.
  - destruct (isSpace c); intros H; [|discriminate H].
    injection H as <-. exact R.
Qed.

Lemma afterSpace_chars s v :
  afterSpace s = Some v -> allChars isTokenChar v = true /\ v <> "".
Proof.
  induction s as [|c s IH]; cbn [afterSpace]; [intros H; discriminate H|].
  destruct (isSpace c); [|exact IH].
  destruct (versionAt s) as [w|] eqn:E; [|exact IH].
  intros H; injection H as <-. exact (versionAt_chars _ _ E).
Qed.

Lemma vMatch_chars t1 v :
  vMatch t1 = Some v -> allChars isTokenChar v = true /\ v <> "".
Proof.
  unfold vMatch. destruct (versionAt t1) as [w|] eqn:E.
  - intros H; injection H as <-. exact (versionAt_chars _ _ E).
  - apply afterSpace_chars.
Qed.

Lemma trim_tokenChars v : allChars isTokenChar v = true -> trim v = v.
Proof.
  intros H. pose proof (tokenChars_no_space _ H) as Hs. unfold trim.
  rewrite trimStart_fixed.
  - now apply trimEnd_no_space.
  - destruct v as [|c v]; [reflexivity|]. simpl in Hs.
    now apply orb_false_iff in Hs.
Qed.

Lemma gridRow_version cells row :
  gridRow cells = Some row ->
  allChars isTokenChar (Row.version row) = true /\ Row.version row <> "".
Proof.
  unfold gridRow. destruct cells as [|c0 [|c1 [|c2 more]]];
    try (intros H; discriminate H).
  destruct (vMatch (textOf c0)) as [v|] eqn:E; [|intros H; discriminate H].
  intros H; injection H as <-. cbn [Row.version].
  destruct (vMatch_chars _ _ E) as [Hc Hn].
  now rewrite (trim_tokenChars _ Hc).
Qed.

Lemma extractData_rows versionRows :
  Forall (fun row => allChars isTokenChar (Row.version row) = true /\
                     Row.version row <> "")
         (extractData versionRows).
Proof.
  unfold extractData, somes.
  induction versionRows as [|cells rest IH]; cbn [map flat_map];
    [constructor|].
  apply Forall_app. split; [|exact IH].
  destruct (gridRow cells) as [row|] eqn:E; constructor; [|constructor].
  exact (gridRow_version _ _ E).
Qed.

Lemma extractData_length versionRows :
  List.length (extractData versionRows) <= List.length versionRows.
Proof.
  unfold extractData, somes.
  induction versionRows as [|cells rest IH]; cbn [map flat_map List.length];
    [lia|].
  rewrite length_app. destruct (gridRow cells); cbn [List.length]; lia.
Qed.

Lemma parseCompatibilityString_singleLine text r :
  parseCompatibilityString text = Ok r ->
  singleLineO (Parsed.minVersion r) = true /\
  singleLineO (Parsed.maxVersion r) = true.
Proof.
  unfold parseCompatibilityString.
  pose proof (extractVersionTokens_chars (trim (orEmpty text))) as Hs.
  rewrite Forall_forall in Hs.
  assert (forall t, In t (extractVersionTokens (trim (orEmpty text))) ->
                    singleLine t = true) as Hl
    by (intros t Ht; apply tokenChars_singleLine, Hs, Ht).
  clear Hs.
  destruct (negb _); [intros [= <-]; split; reflexivity|].
  destruct (extractVersionTokens _) as [|t0 [|t1 rest]] eqn:Et.
  - intros [= <-]; split; reflexivity.
  - intros [= <-]. cbn. split; apply Hl; now left.
  - assert (In (last (t0 :: t1 :: rest) "") (t0 :: t1 :: rest)) as Hin
      by (apply last_In; discriminate).
    destruct (compareVersions t0 _); cbn [bind]; [|discriminate].
    destruct (_ >? _)%Z; intros [= <-]; cbn [Parsed.minVersion Parsed.maxVersion singleLineO];
      split; apply Hl; auto; now left.
Qed.

Lemma rowToRaw_singleLine row raw :
  allChars isTokenChar (Row.version row) = true ->
  rowToRaw row = Ok raw -> singleLineRaw raw = true.
Proof.
  intros Hv. unfold rowToRaw.
  destruct (parseCompatibilityString _) as [p|] eqn:Ep; cbn [bind];
    [|intros H; discriminate H].
  intros H; injection H as <-. unfold singleLineRaw.
  cbn [Raw.version Raw.minVersion Raw.maxVersion].
  destruct (parseCompatibilityString_singleLine _ _ Ep) as [-> ->].
  now rewrite (tokenChars_singleLine _ Hv).
Qed.

Lemma mapR_rowToRaw_singleLine rows versions :
  Forall (fun row => allChars isTokenChar (Row.version row) = true) rows ->
  mapR rowToRaw rows = Ok versions ->
  forallb singleLineRaw versions = true.
Proof.
  intros H. revert versions.
  induction H as [|row rows Hrow _ IH]; intros versions; cbn [mapR].
  - intros [= <-]. reflexivity.
  - destruct (rowToRaw row) as [raw|] eqn:Er; cbn [bind];
      [|intros E; discriminate E].
    destruct (mapR rowToRaw rows) as [vs|]; cbn [bind];
      [|intros E; discriminate E].
    intros [= <-]. cbn [forallb].
    now rewrite (rowToRaw_singleLine _ _ Hrow Er), (IH _ eq_refl).
Qed.

End GridRows.

(** X21.  The extraction of the grid gives at most one row per grid row, and
    the version of every row it gives is a non-empty text of letters, digits
    and dots, whatever the cells hold: it is a single line, and the
    comparator returns on it. *)
Theorem extractData_versions (versionRows : list (list Cell.t)) :
  List.length (extractData versionRows) <= List.length versionRows /\
  Forall (fun row => Row.version row <> "" /\
                     allChars isTokenChar (Row.version row) = true /\
                     singleLine (Row.version row) = true /\
                     comparable (Row.version row))
         (extractData versionRows).
Proof.
  split; [apply extractData_length|].
  eapply Forall_impl; [|apply extractData_rows].
  intros row [Hc Hn]. split; [exact Hn|]. split; [exact Hc|].
  split; [now apply tokenChars_singleLine|].
  now apply singleLine_comparable, tokenChars_singleLine.
Qed.

(** X22.  When the rows that the browser returns are those the extraction
    gives for a grid, the browser client throws only for want of rows, and
    on the records it returns the result builder returns for every plugin
    and target without line terminators: the rendered page cannot make the
    comparator throw. *)
Theorem fetchFromPuppeteer_records_are_comparable
    (up : Upstream) (pageUrl : string) (versionRows : list (list Cell.t))
    (plugin : Plugin.t) (target : option string) :
  renderedRows up pageUrl = Ok (extractData versionRows) ->
  singleLine (Plugin.currentVersion plugin) = true ->
  singleLineO target = true ->
  match outcome (fetchFromPuppeteer up pageUrl (Plugin.name plugin)) with
  | Ok versions =>
      List.length versions = List.length (extractData versionRows) /\
      exists r, buildResult plugin versions target "puppeteer" = Ok r /\
                PluginResult.totalVersionsChecked r
                = Some (List.length (extractData versionRows))
  | Throw e =>
      extractData versionRows = [] /\
      e = Error "No rows found. DOM selector mismatch."
  end.
Proof.
  intros Hrows Hcur Htarget. unfold fetchFromPuppeteer. rewrite Hrows.
  pose proof (extractData_rows versionRows) as Hv.
  destruct (extractData versionRows) as [|row rows] eqn:E.
  - cbn. auto.
  - destruct (mapR_rowToRaw (row :: rows)) as (versions & Em & _).
    cbn [bindM emit liftR progressCallback outcome events isEmpty].
    rewrite Em.
    assert (forallb singleLineRaw versions = true) as Hs.
    { apply (mapR_rowToRaw_singleLine (row :: rows)); [|exact Em].
      eapply Forall_impl; [|exact Hv]. now intros r [H _]. }
    pose proof (mapR_length _ _ _ Em) as Hlen.
    split; [auto|].
    destruct (buildResult_returns plugin versions target "puppeteer"
                Hcur Htarget Hs) as [r Er].
    exists r. split; [exact Er|].
    revert Er. unfold buildResult.
    repeat match goal with
           | |- bind ?x _ = Ok _ -> _ =>
               destruct x; cbn [bind]; [|intros H; discriminate H]
           end.
    intros H. injection H as <-. cbn [PluginResult.totalVersionsChecked].
    now rewrite Hlen.
Qed.

Lemma fetchFromPuppeteer_records_are_comparable_witness :
  match outcome (fetchFromPuppeteer (rendering gridExample)
                   "https://marketplace.example.com/apps/1215215/example/version-history"
                   (Plugin.name pluginExample)) with
  | Ok versions =>
      List.length versions = List.length (extractData gridExample) /\
      exists r, buildResult pluginExample versions (Some "8.5") "puppeteer" = Ok r /\
                PluginResult.totalVersionsChecked r
                = Some (List.length (extractData gridExample))
  | Throw e =>
      extractData gridExample = [] /\
      e = Error "No rows found. DOM selector mismatch."
  end.
Proof.
  apply (fetchFromPuppeteer_records_are_comparable (rendering gridExample)
           "https://marketplace.example.com/apps/1215215/example/version-history"
           gridExample pluginExample (Some "8.5")); reflexivity.
Defined.
(* ===================================================================== *)
(** ** What the builder and the fetch can throw *)
(* ===================================================================== *)

Section Thrown.

Lemma parseSegment_throws seg e : parseSegment seg = Throw e -> e = nullMatch.
Proof.
  unfold parseSegment. destruct (spanDigits _) as [digits rest].
  destruct (anyChar isLineTerminator rest); intros H; [|discriminate H].
  now injection H as <-.
Qed.

Lemma mapR_throws {A B} (f : A -> Result B) e0 l :
  (forall x e, f x = Throw e -> e = e0) ->
  forall e, mapR f l = Throw e -> e = e0.
Proof.
  intros Hf. induction l as [|x l IH]; intros e; cbn [mapR];
    [intros H; discriminate H|].
  destruct (f x) as [y|ex] eqn:Ex; cbn [bind].
  - destruct (mapR f l) as [ys|el]; cbn [bind]; [intros H; discriminate H|].
    intros H; injection H as <-. now apply IH.
  - intros H; injection H as <-. exact (Hf _ _ Ex).
Qed.

Lemma parseVersion_throws s e : parseVersion s = Throw e -> e = nullMatch.
Proof.
  unfold parseVersion. destruct (negb (truthy s)); [intros H; discriminate H|].
  apply mapR_throws. exact parseSegment_throws.
Qed.

Lemma compareVersions_throws a b e :
  compareVersions a b = Throw e -> e = nullMatch.
Proof.
  unfold compareVersions.
  destruct (parseVersion a) as [sa|ea] eqn:Ea; cbn [bind];
    [|intros H; injection H as <-; exact (parseVersion_throws _ _ Ea)].
  destruct (parseVersion b) as [sb|eb] eqn:Eb; cbn [bind];
    [intros H; discriminate H|].
  intros H; injection H as <-. exact (parseVersion_throws _ _ Eb).
Qed.

Lemma isVersionInRange_throws t lo hi e :
  isVersionInRange t lo hi = Throw e -> e = nullMatch.
Proof.
  unfold isVersionInRange.
  destruct t as [t|], lo as [lo|], hi as [hi|]; try (intros H; discriminate H).
  destruct (negb (truthy t) || negb (truthy lo) || negb (truthy hi));
    [intros H; discriminate H|].
  destruct (compareVersions t lo) as [c1|e1] eqn:E1; cbn [bind];
    [|intros H; injection H as <-; exact (compareVersions_throws _ _ _ E1)].
  destruct (c1 >=? 0)%Z; [|intros H; discriminate H].
  destruct (compareVersions t hi) as [c2|e2] eqn:E2; cbn [bind];
    [intros H; discriminate H|].
  intros H; injection H as <-. exact (compareVersions_throws _ _ _ E2).
Qed.

Lemma resolveBounds_never_throws v e : resolveBounds v <> Throw e.
Proof.
  unfold resolveBounds.
  destruct (negb (truthyO (Raw.minVersion v)) || negb (truthyO (Raw.maxVersion v)));
    [|discriminate].
  destruct (parseCompatibilityString_returns (Raw.compatibility v))
    as (p & -> & _).
  discriminate.
Qed.

Lemma keepCompatible_throws target rawVersions e :
  keepCompatible target rawVersions = Throw e -> e = nullMatch.
Proof.
  induction rawVersions as [|v rest IH]; cbn [keepCompatible];
    [intros H; discriminate H|].
  destruct (resolveBounds v) as [[lo hi]|eb] eqn:Eb; cbn [bind];
    [|now destruct (resolveBounds_never_throws v eb)].
  destruct (negb (truthyO lo) || negb (truthyO hi)); [exact IH|].
  destruct (isVersionInRange target lo hi) as [inRange|er] eqn:Er; cbn [bind];
    [|intros H; injection H as <-; exact (isVersionInRange_throws _ _ _ _ Er)].
  destruct (keepCompatible target rest) as [kept|ek]; cbn [bind];
    [intros H; discriminate H|].
  intros H; injection H as <-. now apply IH.
Qed.

Lemma someR_throws {A} (f : A -> Result bool) e0 l :
  (forall x e, f x = Throw e -> e = e0) ->
  forall e, someR f l = Throw e -> e = e0.
Proof.
  intros Hf. induction l as [|x l IH]; intros e; cbn [someR];
    [intros H; discriminate H|].
  destruct (f x) as [[|]|ex] eqn:Ex; cbn [bind].
  - intros H; discriminate H.
  - apply IH.
  - intros H; injection H as <-. exact (Hf _ _ Ex).
Qed.

Lemma insertBy_throws {A} (cmp : A -> A -> Result Z) e0 x l :
  (forall a b e, cmp a b = Throw e -> e = e0) ->
  forall e, insertBy cmp x l = Throw e -> e = e0.
Proof.
  intros Hc. induction l as [|y l IH]; intros e; cbn [insertBy];
    [intros H; discriminate H|].
  destruct (cmp x y) as [c|ec] eqn:Ec; cbn [bind];
    [|intros H; injection H as <-; exact (Hc _ _ _ Ec)].
  destruct (c <=? 0)%Z; [intros H; discriminate H|].
  destruct (insertBy cmp x l) as [r|er]; cbn [bind]; [intros H; discriminate H|].
  intros H; injection H as <-. now apply IH.
Qed.

Lemma sortBy_throws {A} (cmp : A -> A -> Result Z) e0 l :
  (forall a b e, cmp a b = Throw e -> e = e0) ->
  forall e, sortBy cmp l = Throw e -> e = e0.
Proof.
  intros Hc. induction l as [|x l IH]; intros e; cbn [sortBy];
    [intros H; discriminate H|].
  destruct (sortBy cmp l) as [s|es]; cbn [bind].
  - now apply insertBy_throws.
  - intros H; injection H as <-. now apply IH.
Qed.

Lemma buildResult_throws plugin rawVersions target fetchMethod e :
  buildResult plugin rawVersions target fetchMethod = Throw e -> e = nullMatch.
Proof.
  assert (forall a b e, descending a b = Throw e -> e = nullMatch) as Hd
    by (intros a b e'; apply compareVersions_throws).
  assert (forall a b e, ascending a b = Throw e -> e = nullMatch) as Ha
    by (intros a b e'; apply compareVersions_throws).
  unfold buildResult.
  destruct (keepCompatible target rawVersions) as [pushed|ek] eqn:Ek;
    cbn [bind];
    [|intros H; injection H as <-; exact (keepCompatible_throws _ _ _ Ek)].
  destruct (someR _ pushed) as [b|es] eqn:Es; cbn [bind].
  2:{ intros H; injection H as <-. revert Es. apply someR_throws.
      intros cv e'. unfold sameAsCurrent.
      destruct (compareVersions _ _) as [c|ec] eqn:Ec; cbn [bind];
        [intros H; discriminate H|].
      intros H; injection H as <-. exact (compareVersions_throws _ _ _ Ec). }
  destruct (if (0 <? List.length pushed)%nat then sortBy descending pushed
            else Ok pushed) as [cvs|ed] eqn:Ed; cbn [bind].
  2:{ intros H; injection H as <-.
      destruct (0 <? List.length pushed)%nat; [|discriminate Ed].
      exact (sortBy_throws _ _ _ Hd _ Ed). }
  destruct (0 <? List.length cvs)%nat; cbn [bind]; [|intros H; discriminate H].
  destruct (sortBy ascending cvs) as [sorted|ea] eqn:Ea; cbn [bind];
    [intros H; discriminate H|].
  intros H; injection H as <-. exact (sortBy_throws _ _ _ Ha _ Ea).
Qed.

Lemma fetchAllVersions_throws pathname up plugin err :
  outcome (fetchAllVersions pathname up plugin) = Throw err ->
  exists errors, err = allMethodsFailed errors.
Proof.
  unfold fetchAllVersions, tryPuppeteer.
  set (m1 := fetchFromInitialState up _).
  set (m2 := fetchFromAPI up _).
  set (m3 := fetchFromPuppeteer up _ _).
  clearbody m1 m2 m3.
  destruct m1 as [ev1 [v1|e1]], m2 as [ev2 [v2|e2]], m3 as [ev3 [v3|e3]];
    destruct (truthyO _ || truthyO _);
    cbn [tryCatch bindM ret throw events outcome];
    intros H; try discriminate H; injection H as <-; eauto.
Qed.

End Thrown.

(* ===================================================================== *)
(** ** The batch on the summary sheet *)
(* ===================================================================== *)

Section SummarySheet.

Variable pathname : string -> Result string.
Variable targetDCVersion : option string.

Lemma failedResult_sheetEntry plugin err :
  truthy (message err) = true ->
  sheetEntry (failedResult plugin targetDCVersion err).
Proof. intros H. unfold sheetEntry. cbn. auto. Qed.

Lemma entryFor_sheetEntry up plugin :
  sheetEntry (entryFor pathname targetDCVersion up plugin).
Proof.
  unfold entryFor.
  destruct (outcome (fetchAllVersions pathname up plugin))
    as [[versions method]|err] eqn:Ef.
  - destruct (buildResult plugin versions targetDCVersion method)
      as [r|err] eqn:E.
    + destruct (buildResult_sorted _ _ _ _ _ E) as (_ & _ & Herr & _).
      destruct (buildResult_spec _ _ _ _ _ E) as (_ & (b & Hb & _) & _).
      unfold sheetEntry. now rewrite Hb.
    + apply failedResult_sheetEntry.
      now rewrite (buildResult_throws _ _ _ _ _ E).
  - apply failedResult_sheetEntry.
    destruct (fetchAllVersions_throws _ _ _ _ Ef) as [errors ->]. reflexivity.
Qed.

Lemma entriesFrom_Forall (P : PluginResult.t -> Prop) upstreamAt :
  (forall up plugin, P (entryFor pathname targetDCVersion up plugin)) ->
  forall plugins i,
    Forall P (entriesFrom pathname upstreamAt targetDCVersion i plugins).
Proof.
  intros H. induction plugins as [|plugin rest IH]; intros i;
    cbn [entriesFrom]; constructor; auto.
Qed.

Lemma sheetEntry_status r :
  sheetEntry r ->
  compatStatus r
  = match PluginResult.compatible r with
    | Some true => StatusCompatible
    | Some false => StatusNotCompatible
    | None => StatusError
    end.
Proof.
  unfold sheetEntry, compatStatus.
  destruct (PluginResult.compatible r) as [[|]|].
  - intros ->. reflexivity.
  - intros ->. reflexivity.
  - intros (-> & -> & _). reflexivity.
Qed.

Lemma sheetEntry_counts results :
  Forall sheetEntry results ->
  Summary.compatible (summary results) + Summary.notCompatible (summary results)
  + Summary.errors (summary results) = List.length results.
Proof.
  unfold summary, count. cbn [Summary.compatible Summary.notCompatible Summary.errors].
  induction 1 as [|r results Hr _ IH]; [reflexivity|].
  cbn [filter List.length]. unfold sheetEntry in Hr.
  destruct (PluginResult.compatible r) as [[|]|]; cbn [isTrue isFalse].
  - rewrite Hr. cbn [truthyO List.length]. lia.
  - rewrite Hr. cbn [truthyO List.length]. lia.
  - destruct Hr as (-> & _). cbn [List.length]. lia.
Qed.

End SummarySheet.
Section SheetCells.

Variable pathname : string -> Result string.
Variable targetDCVersion : option string.

Lemma truthy_rangeText lo hi : truthy (rangeText lo hi) = true.
Proof. unfold rangeText. destruct lo; reflexivity. Qed.

Lemma toEntry_compatibility v lo hi :
  truthy (Entry.compatibility (toEntry v lo hi)) = true.
Proof.
  unfold toEntry. cbn [Entry.compatibility].
  destruct (Raw.compatibility v) as [c|]; cbn [truthyO orEmpty].
  - destruct (truthy c) eqn:E; [exact E|apply truthy_rangeText].
  - apply truthy_rangeText.
Qed.

Lemma entryOf_compatibility v : truthy (Entry.compatibility (entryOf v)) = true.
Proof.
  unfold entryOf. destruct (resolveBounds v) as [[lo hi]|];
    apply toEntry_compatibility.
Qed.

Lemma buildResult_sheetCells plugin rawVersions fetchMethod r :
  buildResult plugin rawVersions targetDCVersion fetchMethod = Ok r ->
  sheetCells r.
Proof.
  unfold buildResult.
  destruct (keepCompatible targetDCVersion rawVersions) as [pushed|] eqn:Ek;
    cbn [bind]; [|intros H; discriminate H].
  apply keepCompatible_filter in Ek.
  assert (forall cv, In cv pushed -> truthy (Entry.compatibility cv) = true)
    as Hc.
  { subst pushed. intros cv (v & <- & _)%in_map_iff.
    apply entryOf_compatibility. }
  clear Ek.
  destruct (someR _ pushed) as [b|] eqn:Es; cbn [bind];
    [|intros H; discriminate H].
  destruct pushed as [|e l].
  - cbn in Es. injection Es as <-. cbn. intros H; injection H as <-.
    unfold sheetCells. cbn. auto.
  - change (0 <? List.length (e :: l))%nat with true. cbv iota.
    destruct (sortBy descending (e :: l)) as [cvs|] eqn:Ed; cbn [bind];
      [|intros H; discriminate H].
    pose proof (sortBy_perm _ _ _ Ed) as Hp.
    destruct cvs as [|top rest];
      [apply Permutation_sym, Permutation_nil in Hp; discriminate Hp|].
    match goal with
    | |- bind ?x _ = _ -> _ => destruct x; cbn [bind]; [|intros H; discriminate H]
    end.
    intros H; injection H as <-.
    assert (truthy (Entry.compatibility top) = true) as Ht.
    { apply Hc. eapply Permutation_in; [apply Permutation_sym, Hp|].
      now left. }
    unfold sheetCells, dcCompatCell, dcCompatText, isRecommended.
    cbn [PluginResult.compatibleVersions PluginResult.recommendedVersion
         firstVersion map hd List.length Nat.ltb Nat.leb find].
    rewrite String.eqb_refl, Ht, Ht.
    repeat split.
    intros E. rewrite E in Ht. discriminate Ht.
Qed.

Lemma entryFor_sheetCells up plugin :
  sheetCells (entryFor pathname targetDCVersion up plugin).
Proof.
  unfold entryFor.
  destruct (outcome (fetchAllVersions pathname up plugin))
    as [[versions method]|err]; [|unfold sheetCells; cbn; auto].
  destruct (buildResult plugin versions targetDCVersion method) as [r|err] eqn:E;
    [|unfold sheetCells; cbn; auto].
  exact (buildResult_sheetCells _ _ _ _ E).
Qed.

End SheetCells.

(** X23.  On the entries that a batch returns, the status column of the
    sheet shows "Compatible" for [true], "Not Compatible" for [false] and
    "Error" for [null]: the status "Unknown" does not occur.  The counts of
    compatible, not compatible and failed plugins in the summary row add up
    to the number of plugins. *)
Theorem batch_on_the_summary_sheet (pathname : string -> Result string)
    (upstreamAt : nat -> Upstream) (plugins : list Plugin.t)
    (targetDCVersion : option string) :
  exists results,
    outcome (checkCompatibility pathname upstreamAt plugins targetDCVersion)
    = Ok results /\
    Forall
      (fun r =>
         compatStatus r
         = match PluginResult.compatible r with
           | Some true => StatusCompatible
           | Some false => StatusNotCompatible
           | None => StatusError
           end)
      results /\
    Summary.compatible (summary results)
    + Summary.notCompatible (summary results)
    + Summary.errors (summary results) = List.length plugins.
Proof.
  exists (entriesFrom pathname upstreamAt targetDCVersion 0 plugins).
  split; [apply checkCompatibility_outcome|].
  pose proof (entriesFrom_Forall pathname targetDCVersion sheetEntry upstreamAt
                (entryFor_sheetEntry pathname targetDCVersion) plugins 0) as H.
  split.
  - eapply Forall_impl; [|exact H]. exact sheetEntry_status.
  - rewrite (sheetEntry_counts _ H). apply entriesFrom_length.
Qed.

(** X24.  On the entries that a batch returns, the cells for the
    recommended version, the version range and the compatibility of the
    recommended version all show "N/A" when the entry has no compatible
    version.  Otherwise the recommended version is the first compatible
    version of the entry, the lookup of the recommended version finds that
    first entry, and the compatibility cell shows its compatibility text,
    which is not empty: the text made of its range is not used. *)
Theorem batch_on_the_sheet_cells (pathname : string -> Result string)
    (upstreamAt : nat -> Upstream) (plugins : list Plugin.t)
    (targetDCVersion : option string) :
  exists results,
    outcome (checkCompatibility pathname upstreamAt plugins targetDCVersion)
    = Ok results /\
    Forall
      (fun r =>
         match PluginResult.compatibleVersions r with
         | [] =>
             recommendedCell r = "N/A" /\ rangeCell r = "N/A" /\
             dcCompatCell r = "N/A"
         | top :: _ =>
             PluginResult.recommendedVersion r = Some (Entry.pluginVersion top) /\
             dcCompatText r = Entry.compatibility top /\
             dcCompatCell r = Entry.compatibility top /\
             Entry.compatibility top <> ""
         end)
      results.
Proof.
  exists (entriesFrom pathname upstreamAt targetDCVersion 0 plugins).
  split; [apply checkCompatibility_outcome|].
  exact (entriesFrom_Forall pathname targetDCVersion sheetCells upstreamAt
           (entryFor_sheetCells pathname targetDCVersion) plugins 0).
Qed.
(** X25.  When the detail sheet marks a row of an entry as the current
    version, the entry is reported compatible: a compatible version that is
    the current version letter for letter is also equal to it for the
    comparator. *)
Theorem marked_current_row_is_compatible (plugin : Plugin.t)
    (rawVersions : list Raw.t) (target : option string) (fetchMethod : string)
    (r : PluginResult.t) :
  buildResult plugin rawVersions target fetchMethod = Ok r ->
  existsb (isCurrentVersion r) (PluginResult.compatibleVersions r) = true ->
  PluginResult.compatible r = Some true.
Proof.
  unfold buildResult.
  destruct (keepCompatible target rawVersions) as [pushed|]; cbn [bind];
    [|intros H; discriminate H].
  destruct (someR _ pushed) as [b|] eqn:Es; cbn [bind];
    [|intros H; discriminate H].
  destruct (if (0 <? List.length pushed)%nat then sortBy descending pushed
            else Ok pushed) as [cvs|] eqn:Ed; cbn [bind];
    [|intros H; discriminate H].
  match goal with
  | |- bind ?x _ = _ -> _ => destruct x; cbn [bind]; [|intros H; discriminate H]
  end.
  intros H; injection H as <-.
  cbn [PluginResult.compatibleVersions PluginResult.compatible].
  unfold isCurrentVersion. cbn [PluginResult.currentVersion].
  intros (cv & Hin & Heq%String.eqb_eq)%existsb_exists.
  f_equal. apply (someR_true_iff _ _ _ Es).
  assert (In cv pushed) as Hp.
  { destruct pushed as [|e l]; [injection Ed as <-; destruct Hin|].
    change (0 <? List.length (e :: l))%nat with true in Ed. cbv iota in Ed.
    eapply Permutation_in; [apply Permutation_sym, (sortBy_perm _ _ _ Ed)|].
    exact Hin. }
  exists cv. split; [exact Hp|].
  assert (comparable (Plugin.currentVersion plugin)) as Hc.
  { destruct pushed as [|e l]; [destruct Hp|].
    cbn [someR] in Es. unfold sameAsCurrent at 1 in Es.
    destruct (compareVersions (Entry.pluginVersion e) _) as [c|] eqn:Ec;
      [|discriminate Es].
    apply (compareVersions_returns (Entry.pluginVersion e)). eauto. }
  unfold sameAsCurrent. rewrite Heq, (compareVersions_refl _ Hc). reflexivity.
Qed.

Lemma marked_current_row_is_compatible_witness :
  exists r, buildResult pluginExample rawExample (Some "7.5") "rest-api" = Ok r /\
            PluginResult.compatible r = Some true.
Proof.
  destruct (buildResult pluginExample rawExample (Some "7.5") "rest-api")
    as [r|e] eqn:E; [|discriminate E].
  exists r. split; [reflexivity|].
  apply (marked_current_row_is_compatible pluginExample rawExample (Some "7.5")
           "rest-api" r E).
  vm_compute in E. injection E as <-. reflexivity.
Defined.
